(** * keyring-vcm: chunked AES-256-GCM codec

    A shallow embedding of the JavaScript sources of the package
    (config.js, utils/security.js, utils/aad.js, utils/hkdf.js,
    core/chunk-crypto.js, core/encryption-stream.js,
    core/decryption-stream.js, core/file-crypto.js) together with the
    parts of the Node.js runtime they call (Buffer, crypto, stream, fs),
    followed by the properties established about them.

    Conventions.
    - A Node [Buffer] is a [list byte].
    - A JavaScript string is the list of its UTF-16 code units.
    - A JavaScript integer is a [Z]; lengths and sizes, which the code
      never lets go negative, are [nat].
    - A function that may throw returns a [result]; the exception carries
      the class name, the field or code, and the message of the source.
    - [crypto.randomBytes] reads from an explicit entropy tape, and
      [Date.now()] is an argument of the methods that read it.
    - The files are a map from paths to contents. *)

From Stdlib Require Import String Ascii DecimalString.
From Stdlib Require Import Strings.Byte.
From Stdlib Require Import List ZArith NArith Lia Bool.
Import ListNotations.
Local Open Scope Z_scope.

(** ** Exceptions and results *)

Inductive exn : Type :=
| ValidationError (message field : string)
| SecurityError (message code : string)
| RangeError (message : string)
| TypeError (message : string)
| Error (message : string).

Inductive result (A : Type) : Type :=
| Ok (a : A)
| Throw (e : exn).
Arguments Ok {A} a.
Arguments Throw {A} e.

Definition bind {A B : Type} (m : result A) (k : A -> result B) : result B :=
  match m with
  | Ok a => k a
  | Throw e => Throw e
  end.

Notation "'let*' x ':=' m 'in' k" := (bind m (fun x => k))
  (at level 10, x pattern, m at level 100, k at level 200).
Notation "m ';;' k" := (bind m (fun _ => k))
  (at level 100, k at level 200, right associativity).

Definition is_ok {A : Type} (m : result A) : bool :=
  match m with Ok _ => true | Throw _ => false end.

Definition is_ValidationError {A : Type} (m : result A) : bool :=
  match m with Throw (ValidationError _ _) => true | _ => false end.

Definition is_SecurityError {A : Type} (m : result A) : bool :=
  match m with Throw (SecurityError _ _) => true | _ => false end.

(** ** Node [Buffer] *)

Module Buffer.

Definition t : Type := list byte.

(** The byte holding [z mod 256]. *)
Definition byte_of_Z (z : Z) : byte :=
  match Byte.of_N (Z.to_N (z mod 256)) with
  | Some b => b
  | None => x00
  end.

Definition Z_of_byte (b : byte) : Z := Z.of_N (Byte.to_N b).

Definition of_Zs (l : list Z) : t := map byte_of_Z l.
Definition to_Zs (b : t) : list Z := map Z_of_byte b.

(** [Buffer.alloc(n)]: [n] zero bytes. *)
Definition alloc (n : nat) : t := repeat x00 n.

(** [Buffer.concat(list)]. *)
Definition concat (l : list t) : t := List.concat l.

(** [buf.slice(start, end)] and [buf.slice(start)] with non-negative
    offsets: both ends are clamped to the length of the buffer. *)
Definition slice (buf : t) (start stop : nat) : t :=
  firstn (stop - start) (skipn start buf).
Definition slice_from (buf : t) (start : nat) : t := skipn start buf.

(** Big-endian encoding of the low [8 * n] bits of [z]. *)
Fixpoint be_bytes (n : nat) (z : Z) : t :=
  match n with
  | O => []
  | S k => byte_of_Z (Z.shiftr z (8 * Z.of_nat k)) :: be_bytes k z
  end.

(** Big-endian value of a byte string. *)
Definition be_value (b : t) : Z :=
  fold_left (fun acc x => acc * 256 + Z_of_byte x) b 0.

(** [buf.writeUInt32BE(value, 0)] on a fresh 4-byte buffer: Node throws
    ERR_OUT_OF_RANGE unless [0 <= value <= 2^32 - 1]. *)
Definition writeUInt32BE (value : Z) : result t :=
  if (0 <=? value) && (value <=? 4294967295)
  then Ok (be_bytes 4 value)
  else Throw (RangeError "The value of value is out of range.").

(** [buf.readUInt32BE(0)]: Node throws ERR_OUT_OF_RANGE when fewer than
    four bytes are available. *)
Definition readUInt32BE (buf : t) : result Z :=
  if (4 <=? length buf)%nat
  then Ok (be_value (firstn 4 buf))
  else Throw (RangeError "Attempt to access memory outside buffer bounds").

Definition xor_byte (a b : byte) : byte :=
  byte_of_Z (Z.lxor (Z_of_byte a) (Z_of_byte b)).

(** Byte-wise xor, truncated to the shorter operand. *)
Fixpoint xor (a b : t) : t :=
  match a, b with
  | x :: a', y :: b' => xor_byte x y :: xor a' b'
  | _, _ => []
  end.

(** [buf.every(byte => byte === 0)]. *)
Definition all_zero (buf : t) : bool := forallb (Byte.eqb x00) buf.

(** [new Set(buf).size]: the number of distinct byte values. *)
Definition distinct (buf : t) : nat := length (nodup Byte.byte_eq_dec buf).

(** Lower-case hexadecimal digits of a byte string, for test vectors. *)
Definition hex_digit (z : Z) : ascii :=
  ascii_of_nat (Z.to_nat (if z <? 10 then 48 + z else 87 + z)).
Fixpoint to_hex (b : t) : string :=
  match b with
  | [] => EmptyString
  | x :: b' =>
      String (hex_digit (Z_of_byte x / 16))
        (String (hex_digit (Z_of_byte x mod 16)) (to_hex b'))
  end.

End Buffer.

(** ** JavaScript strings *)

Module JsString.

(** UTF-16 code units. *)
Definition t : Type := list Z.

(** An ASCII literal as a JavaScript string. *)
Fixpoint of_string (s : string) : t :=
  match s with
  | EmptyString => []
  | String c s' => Z.of_nat (nat_of_ascii c) :: of_string s'
  end.

Definition is_high_surrogate (u : Z) : bool := (55296 <=? u) && (u <? 56320).
Definition is_low_surrogate (u : Z) : bool := (56320 <=? u) && (u <? 57344).

(** UTF-8 bytes of one code point. *)
Definition utf8_code_point (c : Z) : list Z :=
  if c <? 128 then [c]
  else if c <? 2048 then [192 + c / 64; 128 + c mod 64]
  else if c <? 65536 then [224 + c / 4096; 128 + (c / 64) mod 64; 128 + c mod 64]
  else [240 + c / 262144; 128 + (c / 4096) mod 64;
        128 + (c / 64) mod 64; 128 + c mod 64].

(** [Buffer.from(s, 'utf8')]: surrogate pairs are combined, a lone
    surrogate is encoded as U+FFFD. *)
Fixpoint utf8_units (s : t) : list Z :=
  match s with
  | [] => []
  | u :: s' =>
      if is_high_surrogate u then
        match s' with
        | v :: s'' =>
            if is_low_surrogate v
            then utf8_code_point (65536 + (u - 55296) * 1024 + (v - 56320))
                   ++ utf8_units s''
            else utf8_code_point 65533 ++ utf8_units s'
        | [] => utf8_code_point 65533
        end
      else if is_low_surrogate u then utf8_code_point 65533 ++ utf8_units s'
      else utf8_code_point u ++ utf8_units s'
  end.

Definition utf8 (s : t) : Buffer.t := Buffer.of_Zs (utf8_units s).

End JsString.

(** ** Node [crypto]: SHA-256 and HMAC-SHA-256

    [crypto.createHash('sha256')] follows FIPS 180-4 and
    [crypto.createHmac('sha256', key)] follows RFC 2104.  Words are
    32-bit integers held in [Z] with the wrap-around written out. *)

Module Sha256.

Definition wrap (x : Z) : Z := x mod 4294967296.

Definition rotr (n x : Z) : Z :=
  Z.lor (Z.shiftr x n) (wrap (Z.shiftl x (32 - n))).

Definition xor3 (a b c : Z) : Z := Z.lxor (Z.lxor a b) c.

Definition Ch (x y z : Z) : Z :=
  Z.lxor (Z.land x y) (Z.land (Z.lxor x 4294967295) z).
Definition Maj (x y z : Z) : Z :=
  xor3 (Z.land x y) (Z.land x z) (Z.land y z).
Definition Sigma0 (x : Z) : Z := xor3 (rotr 2 x) (rotr 13 x) (rotr 22 x).
Definition Sigma1 (x : Z) : Z := xor3 (rotr 6 x) (rotr 11 x) (rotr 25 x).
Definition sigma0 (x : Z) : Z := xor3 (rotr 7 x) (rotr 18 x) (Z.shiftr x 3).
Definition sigma1 (x : Z) : Z := xor3 (rotr 17 x) (rotr 19 x) (Z.shiftr x 10).

(** The first sixty-four primes. *)
Definition primes : list Z :=
  [2; 3; 5; 7; 11; 13; 17; 19; 23; 29; 31; 37; 41; 43; 47; 53;
   59; 61; 67; 71; 73; 79; 83; 89; 97; 101; 103; 107; 109; 113; 127; 131;
   137; 139; 149; 151; 157; 163; 167; 173; 179; 181; 191; 193; 197; 199;
   211; 223; 227; 229; 233; 239; 241; 251; 257; 263; 269; 271; 277; 281;
   283; 293; 307; 311].

(** Integer cube root, one bit at a time. *)
Fixpoint icbrt_from (bits : nat) (n r : Z) : Z :=
  match bits with
  | O => r
  | S k =>
      let c := r + 2 ^ Z.of_nat k in
      icbrt_from k n (if c * c * c <=? n then c else r)
  end.
Definition icbrt (n : Z) : Z := icbrt_from 40 n 0.

(** Round constants: the first 32 bits of the fractional parts of the
    cube roots of the primes. *)
Definition K : list Z :=
  Eval vm_compute in map (fun p => wrap (icbrt (p * 2 ^ 96))) primes.

(** Initial hash value: the first 32 bits of the fractional parts of
    the square roots of the first eight primes. *)
Definition H0 : list Z :=
  Eval vm_compute in map (fun p => wrap (Z.sqrt (p * 2 ^ 64))) (firstn 8 primes).

(** Padding: a one bit, zero bits up to 56 mod 64 bytes, then the
    message length in bits as a 64-bit big-endian integer. *)
Definition pad (msg : Buffer.t) : Buffer.t :=
  let l := Z.of_nat (length msg) in
  msg ++ [x80] ++ repeat x00 (Z.to_nat ((55 - l) mod 64))
      ++ Buffer.be_bytes 8 (8 * l).

(** The big-endian 32-bit words of a byte string. *)
Fixpoint words (n : nat) (b : Buffer.t) : list Z :=
  match n with
  | O => []
  | S k => Buffer.be_value (firstn 4 b) :: words k (skipn 4 b)
  end.

(** Message schedule words 16..63, from a window of the last sixteen. *)
Fixpoint extend (n : nat) (w : list Z) : list Z :=
  match n with
  | O => []
  | S k =>
      match w with
      | [] => []
      | w0 :: rest =>
          let x := wrap (sigma1 (nth 13 rest 0) + nth 8 rest 0
                         + sigma0 (nth 0 rest 0) + w0) in
          x :: extend k (rest ++ [x])
      end
  end.

Definition schedule (block : Buffer.t) : list Z :=
  let w := words 16 block in w ++ extend 48 w.

Record state : Type := mkState { a : Z; b : Z; c : Z; d : Z; e : Z; f : Z; g : Z; h : Z }.

Definition state_of (l : list Z) : state :=
  mkState (nth 0 l 0) (nth 1 l 0) (nth 2 l 0) (nth 3 l 0)
          (nth 4 l 0) (nth 5 l 0) (nth 6 l 0) (nth 7 l 0).

Definition round (s : state) (kw : Z * Z) : state :=
  let t1 := s.(h) + Sigma1 s.(e) + Ch s.(e) s.(f) s.(g) + fst kw + snd kw in
  let t2 := Sigma0 s.(a) + Maj s.(a) s.(b) s.(c) in
  mkState (wrap (t1 + t2)) s.(a) s.(b) s.(c) (wrap (s.(d) + t1)) s.(e) s.(f) s.(g).

Definition add_state (s u : state) : state :=
  mkState (wrap (s.(a) + u.(a))) (wrap (s.(b) + u.(b))) (wrap (s.(c) + u.(c)))
          (wrap (s.(d) + u.(d))) (wrap (s.(e) + u.(e))) (wrap (s.(f) + u.(f)))
          (wrap (s.(g) + u.(g))) (wrap (s.(h) + u.(h))).

Definition compress (s : state) (block : Buffer.t) : state :=
  add_state s (fold_left round (combine K (schedule block)) s).

Fixpoint blocks (n : nat) (s : state) (b : Buffer.t) : state :=
  match n with
  | O => s
  | S k => blocks k (compress s (firstn 64 b)) (skipn 64 b)
  end.

Definition output (s : state) : Buffer.t :=
  Buffer.be_bytes 4 s.(a) ++ Buffer.be_bytes 4 s.(b) ++ Buffer.be_bytes 4 s.(c)
    ++ Buffer.be_bytes 4 s.(d) ++ Buffer.be_bytes 4 s.(e) ++ Buffer.be_bytes 4 s.(f)
    ++ Buffer.be_bytes 4 s.(g) ++ Buffer.be_bytes 4 s.(h).

(** [crypto.createHash('sha256').update(msg).digest()]. *)
Definition digest (msg : Buffer.t) : Buffer.t :=
  let p := pad msg in
  output (blocks (length p / 64) (state_of H0) p).

End Sha256.

Module Hmac.

(** The key brought to the 64-byte block size: hashed when longer,
    then padded with zeros. *)
Definition block_key (key : Buffer.t) : Buffer.t :=
  let k := if (64 <? length key)%nat then Sha256.digest key else key in
  k ++ repeat x00 (64 - length k).

(** [crypto.createHmac('sha256', key).update(msg).digest()]. *)
Definition digest (key msg : Buffer.t) : Buffer.t :=
  let k := block_key key in
  Sha256.digest (Buffer.xor k (repeat x5c 64)
                   ++ Sha256.digest (Buffer.xor k (repeat x36 64) ++ msg)).

End Hmac.

(** Template literals: the decimal rendering of an integer. *)
Definition show (z : Z) : string := NilZero.string_of_int (Z.to_int z).

(** ** Node [crypto]: AES-256-GCM

    [crypto.createCipheriv('aes-256-gcm', key, iv, { authTagLength: 16 })]
    is the AES block cipher of FIPS 197 with a 256-bit key in the
    Galois/Counter mode of NIST SP 800-38D. *)

Module Aes.

(** Multiplication by x in GF(2^8) modulo x^8 + x^4 + x^3 + x + 1. *)
Definition xtime (a : Z) : Z :=
  let s := 2 * a in if 256 <=? s then Z.lxor (s - 256) 27 else s.

Fixpoint gmul_from (n : nat) (a b acc : Z) : Z :=
  match n with
  | O => acc
  | S k =>
      gmul_from k (xtime a) (b / 2) (if Z.odd b then Z.lxor acc a else acc)
  end.
Definition gmul (a b : Z) : Z := gmul_from 8 a b 0.

Fixpoint gpow (a : Z) (n : nat) : Z :=
  match n with
  | O => 1
  | S k => gmul a (gpow a k)
  end.

Definition rotl8 (x n : Z) : Z := Z.lor (Z.shiftl x n mod 256) (Z.shiftr x (8 - n)).

(** The S-box: multiplicative inverse followed by the affine map. *)
Definition sbox_of (x : Z) : Z :=
  let i := gpow x 254 in
  Z.lxor (Z.lxor (Z.lxor (Z.lxor (Z.lxor i (rotl8 i 1)) (rotl8 i 2)) (rotl8 i 3))
            (rotl8 i 4)) 99.

Definition sbox_table : list Z :=
  Eval vm_compute in map (fun n => sbox_of (Z.of_nat n)) (seq 0 256).

Definition sbox (x : Z) : Z := nth (Z.to_nat x) sbox_table 0.

Definition xor_list (u v : list Z) : list Z :=
  map (fun p => Z.lxor (fst p) (snd p)) (combine u v).

(** Key expansion for Nk = 8: the sixty words of the key schedule. *)
Definition rot_word (w : list Z) : list Z := skipn 1 w ++ firstn 1 w.
Definition sub_word (w : list Z) : list Z := map sbox w.
Definition rcon (j : nat) : list Z := [gpow 2 (j - 1); 0; 0; 0].

Fixpoint expand_from (n i : nat) (ws : list (list Z)) : list (list Z) :=
  match n with
  | O => ws
  | S k =>
      let prev := nth (i - 1) ws [] in
      let t :=
        if (i mod 8 =? 0)%nat then xor_list (sub_word (rot_word prev)) (rcon (i / 8))
        else if (i mod 8 =? 4)%nat then sub_word prev
        else prev in
      expand_from k (S i) (ws ++ [xor_list (nth (i - 8) ws []) t])
  end.

Definition key_words (key : list Z) : list (list Z) :=
  map (fun i => firstn 4 (skipn (4 * i) key)) (seq 0 8).

Definition expand_key (key : Buffer.t) : list (list Z) :=
  expand_from 52 8 (key_words (Buffer.to_Zs key)).

Definition round_key (ws : list (list Z)) (r : nat) : list Z :=
  List.concat (firstn 4 (skipn (4 * r) ws)).

(** The state is held column by column, as the input bytes are. *)
Definition sub_bytes (s : list Z) : list Z := map sbox s.

Definition shift_rows (s : list Z) : list Z :=
  map (fun i => nth (i mod 4 + 4 * ((i / 4 + i mod 4) mod 4))%nat s 0) (seq 0 16).

Definition mix_column (col : list Z) : list Z :=
  let s0 := nth 0 col 0 in let s1 := nth 1 col 0 in
  let s2 := nth 2 col 0 in let s3 := nth 3 col 0 in
  [Z.lxor (Z.lxor (Z.lxor (gmul 2 s0) (gmul 3 s1)) s2) s3;
   Z.lxor (Z.lxor (Z.lxor s0 (gmul 2 s1)) (gmul 3 s2)) s3;
   Z.lxor (Z.lxor (Z.lxor s0 s1) (gmul 2 s2)) (gmul 3 s3);
   Z.lxor (Z.lxor (Z.lxor (gmul 3 s0) s1) s2) (gmul 2 s3)].

Definition mix_columns (s : list Z) : list Z :=
  flat_map (fun c => mix_column (firstn 4 (skipn (4 * c) s))) (seq 0 4).

Fixpoint rounds (n r : nat) (ws : list (list Z)) (s : list Z) : list Z :=
  match n with
  | O => s
  | S k =>
      rounds k (S r) ws
        (xor_list (mix_columns (shift_rows (sub_bytes s))) (round_key ws r))
  end.

(** The forward cipher on one 16-byte block. *)
Definition encrypt_block (ws : list (list Z)) (block : Buffer.t) : Buffer.t :=
  let s0 := xor_list (Buffer.to_Zs block) (round_key ws 0) in
  let s13 := rounds 13 1 ws s0 in
  let s14 := xor_list (shift_rows (sub_bytes s13)) (round_key ws 14) in
  map (fun i => Buffer.byte_of_Z (nth i s14 0)) (seq 0 16).

End Aes.

Module Gcm.

(** Multiplication in GF(2^128); blocks are 128-bit integers whose most
    significant bit is bit 0 of SP 800-38D. *)
Definition R : Z := 225 * 2 ^ 120.

Fixpoint mul_from (n : nat) (i x v z : Z) : Z :=
  match n with
  | O => z
  | S k =>
      mul_from k (i + 1) x
        (if Z.testbit v 0 then Z.lxor (Z.shiftr v 1) R else Z.shiftr v 1)
        (if Z.testbit x (127 - i) then Z.lxor z v else z)
  end.
Definition mul (x y : Z) : Z := mul_from 128 0 x y 0.

(** Zero padding to a multiple of sixteen bytes. *)
Definition pad16 (x : Buffer.t) : Buffer.t :=
  x ++ repeat x00 ((16 - length x mod 16) mod 16).

Fixpoint ghash_from (n : nat) (hk y : Z) (x : Buffer.t) : Z :=
  match n with
  | O => y
  | S k =>
      ghash_from k hk (mul (Z.lxor y (Buffer.be_value (firstn 16 x))) hk) (skipn 16 x)
  end.
Definition ghash (hk : Z) (x : Buffer.t) : Z := ghash_from (length x / 16) hk 0 x.

Definition inc32 (cb : Buffer.t) : Buffer.t :=
  firstn 12 cb ++ Buffer.be_bytes 4 (Buffer.be_value (skipn 12 cb) + 1).

(** [n] blocks of key stream starting from the counter block [cb]. *)
Fixpoint keystream (n : nat) (ws : list (list Z)) (cb : Buffer.t) : Buffer.t :=
  match n with
  | O => []
  | S k => Aes.encrypt_block ws cb ++ keystream k ws (inc32 cb)
  end.

Definition gctr (ws : list (list Z)) (icb x : Buffer.t) : Buffer.t :=
  Buffer.xor x (keystream (S (length x / 16)) ws icb).

Definition hash_key (ws : list (list Z)) : Z :=
  Buffer.be_value (Aes.encrypt_block ws (Buffer.alloc 16)).

Definition j0 (ws : list (list Z)) (iv : Buffer.t) : Buffer.t :=
  if (length iv =? 12)%nat then iv ++ [x00; x00; x00; x01]
  else Buffer.be_bytes 16
         (ghash (hash_key ws)
            (pad16 iv ++ Buffer.alloc 8 ++ Buffer.be_bytes 8 (8 * Z.of_nat (length iv)))).

Definition tag_of (ws : list (list Z)) (iv aad ct : Buffer.t) : Buffer.t :=
  let s := ghash (hash_key ws)
             (pad16 aad ++ pad16 ct
                ++ Buffer.be_bytes 8 (8 * Z.of_nat (length aad))
                ++ Buffer.be_bytes 8 (8 * Z.of_nat (length ct))) in
  gctr ws (j0 ws iv) (Buffer.be_bytes 16 s).

Definition check_key_iv (key iv : Buffer.t) : result unit :=
  if negb (length key =? 32)%nat then Throw (RangeError "Invalid key length")
  else if (length iv =? 0)%nat then Throw (TypeError "Invalid initialization vector")
  else Ok tt.

(** [createCipheriv]; [setAAD(aad)]; [update(plaintext)] and [final()];
    [getAuthTag()]. *)
Definition seal (key iv aad plaintext : Buffer.t) : result (Buffer.t * Buffer.t) :=
  check_key_iv key iv ;;
  let ws := Aes.expand_key key in
  let ct := gctr ws (inc32 (j0 ws iv)) plaintext in
  Ok (ct, tag_of ws iv aad ct).

(** The decipher up to [setAuthTag(tag)]: with [authTagLength: 16] a
    tag of another length is refused there, with a TypeError that names
    the length. *)
Definition open_setup (key iv tag : Buffer.t) : result unit :=
  check_key_iv key iv ;;
  if (length tag =? 16)%nat then Ok tt
  else Throw (TypeError ("Invalid authentication tag length: "
                           ++ show (Z.of_nat (length tag)))%string).

(** [update(ciphertext)] and [final()]: the plaintext, or the message of
    the error [final()] throws when the tag does not verify. *)
Definition open_final (key iv aad ct tag : Buffer.t) : Buffer.t + string :=
  let ws := Aes.expand_key key in
  if list_eq_dec Byte.byte_eq_dec (tag_of ws iv aad ct) tag
  then inl (gctr ws (inc32 (j0 ws iv)) ct)
  else inr "Unsupported state or unable to authenticate data"%string.

End Gcm.

(** ** Literals for test vectors *)

Definition ascii_bytes (s : string) : Buffer.t := JsString.utf8 (JsString.of_string s).

Definition hex_bytes (s : string) : Buffer.t :=
  (fix go (l : list Z) : Buffer.t :=
     match l with
     | hi :: lo :: l' =>
         let v c := if c <? 58 then c - 48 else c - 87 in
         Buffer.byte_of_Z (16 * v hi + v lo) :: go l'
     | _ => []
     end) (JsString.of_string s).

(** [crypto.randomBytes(n)]: the next [n] bytes of the entropy tape. *)
Record Rng : Type := mkRng { tape : nat -> byte; cursor : nat }.

Definition randomBytes (n : nat) (r : Rng) : Buffer.t * Rng :=
  (map r.(tape) (seq r.(cursor) n), mkRng r.(tape) (r.(cursor) + n)).

(** ** src/config.js *)

Module CONFIG.

Definition CHUNK_SIZE : nat := 512 * 1024.

Module CRYPTO.
Definition KEY_LENGTH : nat := 32.
Definition IV_LENGTH : nat := 12.
Definition AUTH_TAG_LENGTH : nat := 16.
End CRYPTO.

Module HEADER.
Definition INDEX_SIZE : nat := 4.
Definition IV_SIZE : nat := 12.
Definition TAG_SIZE : nat := 16.
Definition TOTAL_SIZE : nat := 32.
End HEADER.

Module HKDF.
Definition INFO : string := "@kitsuneislife/keyring-vcm-v1".
Definition SALT_LENGTH : nat := 32.
End HKDF.

End CONFIG.

(** ** src/utils/security.js *)

Module SECURITY_LIMITS.

Definition MAX_VIDEO_ID_LENGTH : nat := 255.
Definition MIN_VIDEO_ID_LENGTH : nat := 1.
Definition MAX_CHUNK_SIZE : nat := 10 * 1024 * 1024.
Definition MIN_CHUNK_SIZE : nat := 1024.
Definition MAX_CHUNKS_PER_VIDEO : Z := 100000.

(** One character of the class [[a-zA-Z0-9\-_:.]]. *)
Definition video_id_char (u : Z) : bool :=
  ((97 <=? u) && (u <=? 122)) || ((65 <=? u) && (u <=? 90))
  || ((48 <=? u) && (u <=? 57))
  || (u =? 45) || (u =? 95) || (u =? 58) || (u =? 46).

(** [VIDEO_ID_PATTERN.test(s)] for [/^[a-zA-Z0-9\-_:.]+$/]: at least one
    character, every character in the class. *)
Definition VIDEO_ID_PATTERN (s : JsString.t) : bool :=
  negb (length s =? 0)%nat && forallb video_id_char s.

End SECURITY_LIMITS.

(** [validateMasterKey(masterKey)].  The argument is a Buffer, so the
    guards [!masterKey] and [!Buffer.isBuffer(masterKey)] do not fire. *)
Definition validateMasterKey (masterKey : Buffer.t) : result unit :=
  if negb (length masterKey =? CONFIG.CRYPTO.KEY_LENGTH)%nat then
    Throw (ValidationError
             ("Master key deve ter exatamente "
                ++ show (Z.of_nat CONFIG.CRYPTO.KEY_LENGTH) ++ " bytes")
             "masterKey")
  else if Buffer.all_zero masterKey then
    Throw (SecurityError "Master key não pode ser vazia (todos zeros)" "WEAK_KEY")
  else if (Buffer.distinct masterKey <? 16)%nat then
    Throw (SecurityError "Master key tem entropia insuficiente" "WEAK_KEY")
  else Ok tt.

(** [validateVideoId(videoId)].  The argument is a string, so [!videoId]
    holds exactly for the empty string and the [typeof] guard does not
    fire. *)
Definition validateVideoId (videoId : JsString.t) : result unit :=
  if (length videoId =? 0)%nat then
    Throw (ValidationError "Video ID é obrigatório" "videoId")
  else if (length videoId <? SECURITY_LIMITS.MIN_VIDEO_ID_LENGTH)%nat then
    Throw (ValidationError
             ("Video ID deve ter no mínimo "
                ++ show (Z.of_nat SECURITY_LIMITS.MIN_VIDEO_ID_LENGTH) ++ " caractere")
             "videoId")
  else if (SECURITY_LIMITS.MAX_VIDEO_ID_LENGTH <? length videoId)%nat then
    Throw (ValidationError
             ("Video ID não pode exceder "
                ++ show (Z.of_nat SECURITY_LIMITS.MAX_VIDEO_ID_LENGTH) ++ " caracteres")
             "videoId")
  else if negb (SECURITY_LIMITS.VIDEO_ID_PATTERN videoId) then
    Throw (ValidationError
             "Video ID contém caracteres inválidos. Use apenas: a-z, A-Z, 0-9, -, _, :, ."
             "videoId")
  else Ok tt.

(** [validateChunkSize(chunkSize)] on an integer. *)
Definition validateChunkSize (chunkSize : nat) : result unit :=
  if (chunkSize <? SECURITY_LIMITS.MIN_CHUNK_SIZE)%nat then
    Throw (ValidationError
             ("Chunk size deve ser no mínimo "
                ++ show (Z.of_nat SECURITY_LIMITS.MIN_CHUNK_SIZE) ++ " bytes")
             "chunkSize")
  else if (SECURITY_LIMITS.MAX_CHUNK_SIZE <? chunkSize)%nat then
    Throw (ValidationError
             ("Chunk size não pode exceder "
                ++ show (Z.of_nat SECURITY_LIMITS.MAX_CHUNK_SIZE) ++ " bytes")
             "chunkSize")
  else Ok tt.

(** [validateChunkIndex(chunkIndex)] on an integer. *)
Definition validateChunkIndex (chunkIndex : Z) : result unit :=
  if chunkIndex <? 0 then
    Throw (ValidationError "Chunk index não pode ser negativo" "chunkIndex")
  else if 4294967295 <? chunkIndex then
    Throw (ValidationError "Chunk index excede uint32 máximo" "chunkIndex")
  else if SECURITY_LIMITS.MAX_CHUNKS_PER_VIDEO <? chunkIndex then
    Throw (SecurityError
             ("Número de chunks excede o limite de segurança ("
                ++ show SECURITY_LIMITS.MAX_CHUNKS_PER_VIDEO ++ ")")
             "TOO_MANY_CHUNKS")
  else Ok tt.

(** [validateBuffer(buffer, fieldName)] on a Buffer. *)
Definition validateBuffer (buffer : Buffer.t) (fieldName : string) : result unit :=
  if (length buffer =? 0)%nat then
    Throw (ValidationError (fieldName ++ " não pode estar vazio") fieldName)
  else Ok tt.

(** ** src/utils/aad.js *)

(** [createAAD(videoId, chunkIndex)]. *)
Definition createAAD (videoId : JsString.t) (chunkIndex : Z) : result Buffer.t :=
  if (length videoId =? 0)%nat then
    Throw (Error "videoId deve ser uma string não vazia")
  else if (chunkIndex <? 0) || (4294967295 <? chunkIndex) then
    Throw (Error "chunkIndex deve ser uint32 (0 a 4294967295)")
  else
    let videoIdBuffer := JsString.utf8 videoId in
    let* indexBuffer := Buffer.writeUInt32BE chunkIndex in
    let combined := Buffer.concat [videoIdBuffer; indexBuffer] in
    Ok (Sha256.digest combined).

(** [validateAAD(aad)] on a Buffer. *)
Definition validateAAD (aad : Buffer.t) : bool := (length aad =? 32)%nat.

(** ** src/utils/hkdf.js *)

(** [deriveVideoKey(masterKey, videoId)]. *)
Definition deriveVideoKey (masterKey : Buffer.t) (videoId : JsString.t)
  : result Buffer.t :=
  validateMasterKey masterKey ;;
  validateVideoId videoId ;;
  let salt := Sha256.digest (JsString.utf8 videoId) in
  let prk := Hmac.digest salt masterKey in
  let info := ascii_bytes CONFIG.HKDF.INFO in
  let infoWithCounter := Buffer.concat [info; [x01]] in
  let videoKey :=
    Buffer.slice (Hmac.digest prk infoWithCounter) 0 CONFIG.CRYPTO.KEY_LENGTH in
  Ok videoKey.

(** [generateMasterKey()]. *)
Definition generateMasterKey (rng : Rng) : result (Buffer.t * Rng) :=
  let (key, rng') := randomBytes CONFIG.CRYPTO.KEY_LENGTH rng in
  validateMasterKey key ;;
  Ok (key, rng').

(** [exportMasterKey(masterKey)]. *)
Definition exportMasterKey (masterKey : Buffer.t) : result JsString.t :=
  validateMasterKey masterKey ;;
  Ok (JsString.of_string (Buffer.to_hex masterKey)).

(** The value of a hexadecimal digit. *)
Definition hex_value (u : Z) : option Z :=
  if (48 <=? u) && (u <=? 57) then Some (u - 48)
  else if (97 <=? u) && (u <=? 102) then Some (u - 87)
  else if (65 <=? u) && (u <=? 70) then Some (u - 55)
  else None.

(** [/^[0-9a-fA-F]+$/.test(s)]. *)
Definition hex_pattern (s : JsString.t) : bool :=
  negb (length s =? 0)%nat
  && forallb (fun u => match hex_value u with Some _ => true | None => false end) s.

(** [Buffer.from(s, 'hex')]: Node decodes pairs of digits and stops at
    the first pair that is not hexadecimal; a trailing single digit is
    dropped. *)
Fixpoint Buffer_from_hex (s : JsString.t) : Buffer.t :=
  match s with
  | hi :: lo :: s' =>
      match hex_value hi, hex_value lo with
      | Some h, Some l => Buffer.byte_of_Z (16 * h + l) :: Buffer_from_hex s'
      | _, _ => []
      end
  | _ => []
  end.

(** [importMasterKey(hexKey)].  The argument is a string, so [!hexKey]
    holds exactly for the empty string. *)
Definition importMasterKey (hexKey : JsString.t) : result Buffer.t :=
  if (length hexKey =? 0)%nat then
    Throw (Error "Hex key deve ser uma string não vazia")
  else if negb (hex_pattern hexKey) then
    Throw (Error "Hex key contém caracteres inválidos")
  else
    let key := Buffer_from_hex hexKey in
    validateMasterKey key ;;
    Ok key.

(** ** src/core/chunk-crypto.js *)

(** [class EncryptedChunk]: index (4 bytes, uint32 BE), iv (12 bytes),
    tag (16 bytes), ciphertext (N bytes). *)
Record EncryptedChunk : Type := mkEncryptedChunk {
  index : Z;
  iv : Buffer.t;
  tag : Buffer.t;
  ciphertext : Buffer.t
}.

(** [chunk.toBuffer()]. *)
Definition toBuffer (this : EncryptedChunk) : result Buffer.t :=
  let* indexBuffer := Buffer.writeUInt32BE this.(index) in
  Ok (Buffer.concat [indexBuffer; this.(iv); this.(tag); this.(ciphertext)]).

(** [EncryptedChunk.fromBuffer(buffer)]. *)
Definition fromBuffer (buffer : Buffer.t) : result EncryptedChunk :=
  if (length buffer <? CONFIG.HEADER.TOTAL_SIZE)%nat then
    Throw (Error "Buffer inválido ou muito pequeno")
  else
    let* index := Buffer.readUInt32BE buffer in
    let iv := Buffer.slice buffer 4 16 in
    let tag := Buffer.slice buffer 16 32 in
    let ciphertext := Buffer.slice_from buffer 32 in
    Ok (mkEncryptedChunk index iv tag ciphertext).

(** [chunk.size]. *)
Definition size (this : EncryptedChunk) : nat :=
  CONFIG.HEADER.TOTAL_SIZE + length this.(ciphertext).

(** [encryptChunk(plaintext, videoKey, videoId, chunkIndex)]. *)
Definition encryptChunk (rng : Rng) (plaintext videoKey : Buffer.t)
    (videoId : JsString.t) (chunkIndex : Z) : result (EncryptedChunk * Rng) :=
  validateBuffer plaintext "plaintext" ;;
  validateMasterKey videoKey ;;
  validateVideoId videoId ;;
  validateChunkIndex chunkIndex ;;
  let (iv, rng') := randomBytes CONFIG.CRYPTO.IV_LENGTH rng in
  let* aad := createAAD videoId chunkIndex in
  let* sealed := Gcm.seal videoKey iv aad plaintext in
  Ok (mkEncryptedChunk chunkIndex iv (snd sealed) (fst sealed), rng').

(** [decryptChunk(encryptedChunk, videoKey, videoId)]. *)
Definition decryptChunk (encryptedChunk : EncryptedChunk) (videoKey : Buffer.t)
    (videoId : JsString.t) : result Buffer.t :=
  validateMasterKey videoKey ;;
  validateVideoId videoId ;;
  let* aad := createAAD videoId encryptedChunk.(index) in
  Gcm.open_setup videoKey encryptedChunk.(iv) encryptedChunk.(tag) ;;
  match Gcm.open_final videoKey encryptedChunk.(iv) aad
          encryptedChunk.(ciphertext) encryptedChunk.(tag) with
  | inl plaintext => Ok plaintext
  | inr message =>
      Throw (Error ("Falha na autenticação do chunk "
                      ++ show encryptedChunk.(index) ++ ": " ++ message))
  end.

(** ** Node [stream.Transform]

    A transform stream consumes its writes one at a time through
    [_transform] and is closed through [_flush]; each call pushes zero or
    more values downstream and either returns or hands an error to its
    callback, which ends the stream.  A call is represented by the values
    it pushed, the state it left the object in, and the error if any. *)

Record outcome (O S : Type) : Type := mkOutcome {
  pushes : list O;
  final : S;
  failure : option exn
}.
Arguments mkOutcome {O S} pushes final failure.
Arguments pushes {O S} o.
Arguments final {O S} o.
Arguments failure {O S} o.

Definition and_then {O S : Type} (m : outcome O S) (k : S -> outcome O S)
  : outcome O S :=
  match m.(failure) with
  | None =>
      let r := k m.(final) in
      mkOutcome (m.(pushes) ++ r.(pushes)) r.(final) r.(failure)
  | Some _ => m
  end.

Section Transform.

Variables I O S : Type.
Variable _transform : S -> I -> outcome O S.
Variable _flush : S -> outcome O S.

(** [stream.write(x)] for each [x] of [writes], in order. *)
Fixpoint write_all (s : S) (writes : list I) : outcome O S :=
  match writes with
  | [] => mkOutcome [] s None
  | x :: rest => and_then (_transform s x) (fun s' => write_all s' rest)
  end.

(** The writes followed by [stream.end()]. *)
Definition run (s : S) (writes : list I) : outcome O S :=
  and_then (write_all s writes) _flush.

End Transform.

Arguments write_all {I O S} _transform s writes.
Arguments run {I O S} _transform _flush s writes.

(** [error.message]. *)
Definition message_of (e : exn) : string :=
  match e with
  | ValidationError m _ | SecurityError m _ | RangeError m | TypeError m | Error m => m
  end.

(** ** src/core/encryption-stream.js *)

Module EncryptionStream.

Record t : Type := mk {
  videoKey : Buffer.t;
  videoId : JsString.t;
  chunkSize : nat;
  buffer : Buffer.t;
  chunkIndex : Z;
  bytesProcessed : nat;
  rng : Rng
}.

(** [new EncryptionStream(videoKey, videoId, options)]:
    [this.chunkSize = options.chunkSize || CONFIG.CHUNK_SIZE]. *)
Definition new (videoKey : Buffer.t) (videoId : JsString.t)
    (options_chunkSize : option nat) (rng : Rng) : t :=
  mk videoKey videoId
     (match options_chunkSize with
      | Some (S n) => S n
      | Some O | None => CONFIG.CHUNK_SIZE
      end)
     (Buffer.alloc 0) 0 0 rng.

(** The [while (this.buffer.length >= this.chunkSize)] loop; every
    iteration removes [chunkSize >= 1] bytes from the buffer, so
    [length buffer] iterations are never exceeded. *)
Fixpoint drain (fuel : nat) (this : t) : outcome EncryptedChunk t :=
  match fuel with
  | O => mkOutcome [] this None
  | S fuel' =>
      if (this.(chunkSize) <=? length this.(buffer))%nat then
        let chunkData := Buffer.slice this.(buffer) 0 this.(chunkSize) in
        let rest := Buffer.slice_from this.(buffer) this.(chunkSize) in
        match encryptChunk this.(rng) chunkData this.(videoKey) this.(videoId)
                this.(chunkIndex) with
        | Throw e =>
            mkOutcome []
              (mk this.(videoKey) this.(videoId) this.(chunkSize) rest
                  this.(chunkIndex) this.(bytesProcessed) this.(rng))
              (Some e)
        | Ok (encryptedChunk, rng') =>
            and_then
              (mkOutcome [encryptedChunk]
                 (mk this.(videoKey) this.(videoId) this.(chunkSize) rest
                     (this.(chunkIndex) + 1)
                     (this.(bytesProcessed) + length chunkData) rng')
                 None)
              (drain fuel')
        end
      else mkOutcome [] this None
  end.

(** [_transform(chunk, encoding, callback)]. *)
Definition _transform (this : t) (chunk : Buffer.t) : outcome EncryptedChunk t :=
  let buffer' := Buffer.concat [this.(buffer); chunk] in
  drain (length buffer')
    (mk this.(videoKey) this.(videoId) this.(chunkSize) buffer'
        this.(chunkIndex) this.(bytesProcessed) this.(rng)).

(** [_flush(callback)]. *)
Definition _flush (this : t) : outcome EncryptedChunk t :=
  if (0 <? length this.(buffer))%nat then
    match encryptChunk this.(rng) this.(buffer) this.(videoKey) this.(videoId)
            this.(chunkIndex) with
    | Throw e => mkOutcome [] this (Some e)
    | Ok (encryptedChunk, rng') =>
        mkOutcome [encryptedChunk]
          (mk this.(videoKey) this.(videoId) this.(chunkSize) (Buffer.alloc 0)
              (this.(chunkIndex) + 1)
              (this.(bytesProcessed) + length this.(buffer)) rng')
          None
    end
  else mkOutcome [] this None.

(** [getStats()]: totalChunks and bytesProcessed. *)
Definition getStats (this : t) : Z * nat :=
  (this.(chunkIndex), this.(bytesProcessed)).

End EncryptionStream.

Module ChunkSerializationStream.

(** [_transform(encryptedChunk, encoding, callback)]; the input is an
    [EncryptedChunk], so the [instanceof] guard does not fire. *)
Definition _transform (this : unit) (encryptedChunk : EncryptedChunk)
  : outcome Buffer.t unit :=
  match toBuffer encryptedChunk with
  | Ok b => mkOutcome [b] this None
  | Throw e => mkOutcome [] this (Some e)
  end.

(** No [_flush] is defined. *)
Definition _flush (this : unit) : outcome Buffer.t unit := mkOutcome [] this None.

End ChunkSerializationStream.

(** ** src/core/decryption-stream.js

    The repository carries two definitions of [ChunkDeserializationStream].
    [ChunkDeserializationStream] below is the length-prefixed one, whose
    [_flush] message names the number of bytes left (the message the
    stream tests of the repository expect from decryption-stream.js);
    [WholeWriteDeserializationStream] is the other one, which takes every
    write of at least [minChunkSize] bytes as one whole chunk.  The class
    [DecryptionStream] is the same in both files.  The sources do not
    tell which of the two file-crypto.js imports: see
    [DeserializationClass] below. *)

Module ChunkDeserializationStream.

Record t : Type := mk { buffer : Buffer.t }.

Definition new : t := mk (Buffer.alloc 0).

(** The [while (this.buffer.length >= 4)] loop; every iteration that
    continues removes at least four bytes from the buffer. *)
Fixpoint extract (fuel : nat) (this : t) : outcome EncryptedChunk t :=
  match fuel with
  | O => mkOutcome [] this None
  | S fuel' =>
      if (4 <=? length this.(buffer))%nat then
        match Buffer.readUInt32BE this.(buffer) with
        | Throw e => mkOutcome [] this (Some e)
        | Ok chunkSize =>
            if Z.of_nat (length this.(buffer)) <? 4 + chunkSize then
              mkOutcome [] this None
            else
              let chunkData :=
                Buffer.slice this.(buffer) 4 (4 + Z.to_nat chunkSize) in
              let rest :=
                Buffer.slice_from this.(buffer) (4 + Z.to_nat chunkSize) in
              match fromBuffer chunkData with
              | Throw e => mkOutcome [] (mk rest) (Some e)
              | Ok encryptedChunk =>
                  and_then (mkOutcome [encryptedChunk] (mk rest) None)
                           (extract fuel')
              end
        end
      else mkOutcome [] this None
  end.

(** [_transform(chunk, encoding, callback)]. *)
Definition _transform (this : t) (chunk : Buffer.t) : outcome EncryptedChunk t :=
  let buffer' := Buffer.concat [this.(buffer); chunk] in
  extract (length buffer') (mk buffer').

(** [_flush(callback)]. *)
Definition _flush (this : t) : outcome EncryptedChunk t :=
  if (0 <? length this.(buffer))%nat then
    mkOutcome [] this
      (Some (Error ("Buffer contém " ++ show (Z.of_nat (length this.(buffer)))
                      ++ " bytes não processados")))
  else mkOutcome [] this None.

End ChunkDeserializationStream.

Module WholeWriteDeserializationStream.

Record t : Type := mk { buffer : Buffer.t; minChunkSize : nat }.

Definition new : t := mk (Buffer.alloc 0) (CONFIG.HEADER.TOTAL_SIZE + 1).

(** The [while (this.buffer.length >= this.minChunkSize)] loop; a parse
    error inside the loop only leaves it.  The chunk parsed from the
    buffer has all of it, so one iteration empties the buffer. *)
Fixpoint extract (fuel : nat) (this : t) : outcome EncryptedChunk t :=
  match fuel with
  | O => mkOutcome [] this None
  | S fuel' =>
      if (this.(minChunkSize) <=? length this.(buffer))%nat then
        match fromBuffer this.(buffer) with
        | Throw _ => mkOutcome [] this None
        | Ok encryptedChunk =>
            let chunkSize := size encryptedChunk in
            and_then
              (mkOutcome [encryptedChunk]
                 (mk (Buffer.slice_from this.(buffer) chunkSize)
                     this.(minChunkSize))
                 None)
              (extract fuel')
        end
      else mkOutcome [] this None
  end.

(** [_transform(chunk, encoding, callback)]. *)
Definition _transform (this : t) (chunk : Buffer.t) : outcome EncryptedChunk t :=
  let buffer' := Buffer.concat [this.(buffer); chunk] in
  extract (length buffer') (mk buffer' this.(minChunkSize)).

(** [_flush(callback)]. *)
Definition _flush (this : t) : outcome EncryptedChunk t :=
  if (0 <? length this.(buffer))%nat then
    mkOutcome [] this (Some (Error "Buffer contém dados não processados"))
  else mkOutcome [] this None.

End WholeWriteDeserializationStream.

Module DecryptionStream.

Record t : Type := mk {
  videoKey : Buffer.t;
  videoId : JsString.t;
  chunksProcessed : nat;
  bytesProcessed : nat;
  errors : list (Z * string)
}.

(** [new DecryptionStream(videoKey, videoId)]. *)
Definition new (videoKey : Buffer.t) (videoId : JsString.t) : t :=
  mk videoKey videoId 0 0 [].

(** [_transform(encryptedChunk, encoding, callback)]; the input is an
    [EncryptedChunk], so the [instanceof] guard does not fire. *)
Definition _transform (this : t) (encryptedChunk : EncryptedChunk)
  : outcome Buffer.t t :=
  match decryptChunk encryptedChunk this.(videoKey) this.(videoId) with
  | Ok plaintext =>
      mkOutcome [plaintext]
        (mk this.(videoKey) this.(videoId) (this.(chunksProcessed) + 1)
            (this.(bytesProcessed) + length plaintext) this.(errors))
        None
  | Throw e =>
      mkOutcome []
        (mk this.(videoKey) this.(videoId) this.(chunksProcessed)
            this.(bytesProcessed)
            (this.(errors) ++ [(encryptedChunk.(index), message_of e)]))
        (Some e)
  end.

(** No [_flush] is defined. *)
Definition _flush (this : t) : outcome Buffer.t t := mkOutcome [] this None.

(** [getStats()]. *)
Definition getStats (this : t) : nat * nat * list (Z * string) :=
  (this.(chunksProcessed), this.(bytesProcessed), this.(errors)).

End DecryptionStream.

(** The class that [import { ChunkDeserializationStream } from
    './decryption-stream.js'] binds: its instances, the constructor
    without arguments, [_transform] and [_flush].  The functions of
    file-crypto.js that call [new ChunkDeserializationStream()] take the
    class as an argument, and the two classes of the sources are its two
    values. *)
Record DeserializationClass : Type := mkDeserializationClass {
  instance : Type;
  construct : instance;
  transform : instance -> Buffer.t -> outcome EncryptedChunk instance;
  flush : instance -> outcome EncryptedChunk instance
}.

Definition length_prefixed : DeserializationClass :=
  mkDeserializationClass ChunkDeserializationStream.t
    ChunkDeserializationStream.new
    ChunkDeserializationStream._transform
    ChunkDeserializationStream._flush.

Definition whole_write : DeserializationClass :=
  mkDeserializationClass WholeWriteDeserializationStream.t
    WholeWriteDeserializationStream.new
    WholeWriteDeserializationStream._transform
    WholeWriteDeserializationStream._flush.

(** ** src/core/file-crypto.js *)

(** The promise settled from a pipeline: rejected with the error of the
    stage that failed, resolved with what was pushed otherwise.  The
    stages of a pipeline are run one after the other, each to its end:
    when more than one stage has an error to report, the error of the
    earliest stage is the one kept, whereas Node reports the one that is
    raised first in time. *)
Definition settle {O S : Type} (p : outcome O S) : result (list O) :=
  match p.(failure) with
  | None => Ok p.(pushes)
  | Some e => Throw e
  end.

(** [encryptBuffer({ data, masterKey, videoId, chunkSize })]: one write
    of [data] into the encryption stream, piped into the serialization
    stream; resolves with the array of the buffers it emitted. *)
Definition encryptBuffer (rng : Rng) (data masterKey : Buffer.t)
    (videoId : JsString.t) (chunkSize : option nat) : result (list Buffer.t) :=
  let* videoKey := deriveVideoKey masterKey videoId in
  let encryptionStream := EncryptionStream.new videoKey videoId chunkSize rng in
  let* encrypted :=
    settle (run EncryptionStream._transform EncryptionStream._flush
              encryptionStream [data]) in
  settle (run ChunkSerializationStream._transform ChunkSerializationStream._flush
            tt encrypted).

(** [decryptBuffer({ chunks, masterKey, videoId })], for the class that
    [ChunkDeserializationStream] names: one write per element of
    [chunks] into the deserialization stream, piped into the decryption
    stream; resolves with the concatenation of the plaintexts. *)
Definition decryptBuffer (Deserialization : DeserializationClass)
    (chunks : list Buffer.t) (masterKey : Buffer.t) (videoId : JsString.t)
  : result Buffer.t :=
  let* videoKey := deriveVideoKey masterKey videoId in
  let* frames :=
    settle (run Deserialization.(transform) Deserialization.(flush)
              Deserialization.(construct) chunks) in
  let* plaintextChunks :=
    settle (run DecryptionStream._transform DecryptionStream._flush
              (DecryptionStream.new videoKey videoId) frames) in
  Ok (Buffer.concat plaintextChunks).

(** [decryptBuffer] with the whole-write deserialization stream. *)
Definition decryptBuffer_whole_write : list Buffer.t -> Buffer.t -> JsString.t
                                       -> result Buffer.t :=
  decryptBuffer whole_write.

(** ** JavaScript strings: the methods of [String.prototype] in use *)

Module StringPrototype.

(** [s === t]. *)
Fixpoint eqb (s t : JsString.t) : bool :=
  match s, t with
  | [], [] => true
  | u :: s', v :: t' => (u =? v) && eqb s' t'
  | _, _ => false
  end.

(** [s.startsWith(pat)]. *)
Fixpoint startsWith (s pat : JsString.t) {struct pat} : bool :=
  match pat, s with
  | [], _ => true
  | p :: pat', u :: s' => (u =? p) && startsWith s' pat'
  | _ :: _, [] => false
  end.

(** [s.includes(pat)]. *)
Fixpoint includes (s pat : JsString.t) : bool :=
  startsWith s pat
  || match s with
     | [] => false
     | _ :: s' => includes s' pat
     end.

(** [s.split(sep)] for a separator of one code unit: the pieces between
    the occurrences of the separator, one more than there are
    occurrences. *)
Fixpoint split (s : JsString.t) (sep : Z) : list JsString.t :=
  match s with
  | [] => [[]]
  | u :: s' =>
      if u =? sep then [] :: split s' sep
      else
        match split s' sep with
        | piece :: rest => (u :: piece) :: rest
        | [] => [[u]]
        end
  end.

(** WhiteSpace and LineTerminator code units of ECMAScript. *)
Definition is_white_space (u : Z) : bool :=
  ((9 <=? u) && (u <=? 13)) || (u =? 32) || (u =? 160) || (u =? 5760)
  || ((8192 <=? u) && (u <=? 8202)) || (u =? 8232) || (u =? 8233)
  || (u =? 8239) || (u =? 8287) || (u =? 12288) || (u =? 65279).

Fixpoint trimStart (s : JsString.t) : JsString.t :=
  match s with
  | [] => []
  | u :: s' => if is_white_space u then trimStart s' else s
  end.

Definition trimEnd (s : JsString.t) : JsString.t := rev (trimStart (rev s)).

(** [s.trim()]. *)
Definition trim (s : JsString.t) : JsString.t := trimEnd (trimStart s).

End StringPrototype.

(** The UTF-8 bytes of a JavaScript string as a message text. *)
Definition text_of (s : JsString.t) : string :=
  string_of_list_byte (JsString.utf8 s).

(** ** src/utils/security.js, continued *)

Definition MAX_FILE_SIZE : Z := 50 * 1024 * 1024 * 1024.

Definition validEncodings : list JsString.t :=
  [JsString.of_string "binary"; JsString.of_string "base64"; JsString.of_string "hex"].

(** [validateEncoding(encoding)]: the argument is a string, or is left
    out; the empty string is falsy and passes as an encoding left out
    does. *)
Definition validateEncoding (encoding : option JsString.t) : result unit :=
  match encoding with
  | None => Ok tt
  | Some e =>
      if (length e =? 0)%nat then Ok tt
      else if negb (existsb (StringPrototype.eqb e) validEncodings) then
        Throw (ValidationError "Encoding inválido. Use: binary, base64, hex" "encoding")
      else Ok tt
  end.

(** [sanitizeVideoId(videoId)] on a string:
    [videoId.replace(/[^a-zA-Z0-9\-_:.]/g, '')]. *)
Definition sanitizeVideoId (videoId : JsString.t) : JsString.t :=
  filter SECURITY_LIMITS.video_id_char videoId.

(** [validateFilePath(filePath, fieldName)] on a string. *)
Definition validateFilePath (filePath : JsString.t) (fieldName : string)
  : result unit :=
  if (length filePath =? 0)%nat then
    Throw (ValidationError (fieldName ++ " é obrigatório") fieldName)
  else if StringPrototype.includes filePath (JsString.of_string "..") then
    Throw (SecurityError "Path traversal detectado" "PATH_TRAVERSAL")
  else if (4096 <? length filePath)%nat then
    Throw (ValidationError "Caminho do arquivo muito longo" fieldName)
  else Ok tt.

(** [constantTimeCompare(a, b)] on two Buffers. *)
Definition constantTimeCompare (a b : Buffer.t) : bool :=
  if negb (length a =? length b)%nat then false
  else
    let result :=
      fold_left
        (fun result i =>
           Z.lor result
             (Z.lxor (Buffer.Z_of_byte (nth i a x00)) (Buffer.Z_of_byte (nth i b x00))))
        (seq 0 (length a)) 0 in
    result =? 0.

(** [secureWipe(buffer)] on a Buffer: the content [buffer.fill(0)] leaves
    in it. *)
Definition secureWipe (buffer : Buffer.t) : Buffer.t :=
  repeat x00 (length buffer).

(** [class RateLimiter].  [this.requests] is a [Map] from keys to
    [{ count, resetAt }], kept in insertion order; [Date.now()] is an
    argument of the methods that read it. *)
Module RateLimiter.

Record requestData : Type := mkData { count : Z; resetAt : Z }.

Definition Map : Type := list (JsString.t * requestData).

(** [map.get(key)]. *)
Fixpoint Map_get (m : Map) (key : JsString.t) : option requestData :=
  match m with
  | [] => None
  | (k, d) :: m' => if StringPrototype.eqb k key then Some d else Map_get m' key
  end.

(** [map.set(key, value)]: a key already present keeps its place. *)
Fixpoint Map_set (m : Map) (key : JsString.t) (value : requestData) : Map :=
  match m with
  | [] => [(key, value)]
  | (k, d) :: m' =>
      if StringPrototype.eqb k key then (k, value) :: m'
      else (k, d) :: Map_set m' key value
  end.

(** [map.delete(key)]. *)
Definition Map_delete (m : Map) (key : JsString.t) : Map :=
  filter (fun e => negb (StringPrototype.eqb (fst e) key)) m.

Record t : Type := mk {
  maxRequests : Z;
  windowMs : Z;
  requests : Map
}.

(** [new RateLimiter(maxRequests = 100, windowMs = 60000)]. *)
Definition new (maxRequests windowMs : option Z) : t :=
  mk (match maxRequests with Some n => n | None => 100 end)
     (match windowMs with Some n => n | None => 60000 end)
     [].

(** [check(key)]: the answer and the limiter afterwards. *)
Definition check (this : t) (now : Z) (key : JsString.t) : bool * t :=
  match Map_get this.(requests) key with
  | None =>
      (true,
       mk this.(maxRequests) this.(windowMs)
          (Map_set this.(requests) key (mkData 1 (now + this.(windowMs)))))
  | Some requestData =>
      if requestData.(resetAt) <? now then
        (true,
         mk this.(maxRequests) this.(windowMs)
            (Map_set this.(requests) key (mkData 1 (now + this.(windowMs)))))
      else if this.(maxRequests) <=? requestData.(count) then (false, this)
      else
        (true,
         mk this.(maxRequests) this.(windowMs)
            (Map_set this.(requests) key
               (mkData (requestData.(count) + 1) requestData.(resetAt))))
  end.

(** [reset(key)]. *)
Definition reset (this : t) (key : JsString.t) : t :=
  mk this.(maxRequests) this.(windowMs) (Map_delete this.(requests) key).

(** [cleanup()]: every entry with [now > data.resetAt] is deleted. *)
Definition cleanup (this : t) (now : Z) : t :=
  mk this.(maxRequests) this.(windowMs)
     (filter (fun e => negb ((snd e).(resetAt) <? now)) this.(requests)).

End RateLimiter.

(** ** Node [Buffer]: text encodings *)

(** The encodings the package documents for its text forms. *)
Inductive Encoding : Type := binary | base64 | hex.

Definition Encoding_name (e : Encoding) : JsString.t :=
  match e with
  | binary => JsString.of_string "binary"
  | base64 => JsString.of_string "base64"
  | hex => JsString.of_string "hex"
  end.

Module Base64.

Definition alphabet : JsString.t :=
  JsString.of_string "ABCDEFGHIJKLMNOPQRSTUVWXYZabcdefghijklmnopqrstuvwxyz0123456789+/".

Definition digit (v : Z) : Z := nth (Z.to_nat v) alphabet 0.

(** [buf.toString('base64')] on the values of the bytes: RFC 4648 with
    padding. *)
Fixpoint encode (b : list Z) : JsString.t :=
  match b with
  | x :: y :: z :: b' =>
      digit (x / 4) :: digit (x mod 4 * 16 + y / 16)
        :: digit (y mod 16 * 4 + z / 64) :: digit (z mod 64) :: encode b'
  | [x; y] => [digit (x / 4); digit (x mod 4 * 16 + y / 16); digit (y mod 16 * 4); 61]
  | [x] => [digit (x / 4); digit (x mod 4 * 16); 61; 61]
  | [] => []
  end.

End Base64.

(** [Buffer.from(text, 'base64')].  Node's decoder accepts more than the
    output of its encoder; the definitions that call it take it as it
    is, as a parameter. *)
Class Base64Decoder : Type := Buffer_from_base64 : JsString.t -> Buffer.t.

(** [buf.toString(encoding)]; ['binary'] is latin1. *)
Definition Buffer_toString (buf : Buffer.t) (encoding : Encoding) : JsString.t :=
  match encoding with
  | binary => Buffer.to_Zs buf
  | base64 => Base64.encode (Buffer.to_Zs buf)
  | hex => JsString.of_string (Buffer.to_hex buf)
  end.

(** [Buffer.from(text, encoding)]. *)
Definition Buffer_from `{Base64Decoder} (text : JsString.t) (encoding : Encoding)
  : Buffer.t :=
  match encoding with
  | binary => Buffer.of_Zs text
  | base64 => Buffer_from_base64 text
  | hex => Buffer_from_hex text
  end.

(** [buf.toString()]: UTF-8 decoding, an ill-formed sequence giving
    U+FFFD for each of its maximal parts. *)
Module Utf8Decoder.

Record state : Type := mkState {
  code_point : Z;
  bytes_needed : nat;
  lower : Z;
  upper : Z
}.

Definition initial : state := mkState 0 0 128 191.

(** The UTF-16 code units of a code point. *)
Definition units (cp : Z) : list Z :=
  if cp <? 65536 then [cp]
  else [55296 + (cp - 65536) / 1024; 56320 + (cp - 65536) mod 1024].

(** A byte met between two characters. *)
Definition start (b : Z) : list Z * state :=
  if b <=? 127 then ([b], initial)
  else if (194 <=? b) && (b <=? 223) then ([], mkState (b - 192) 1 128 191)
  else if (224 <=? b) && (b <=? 239) then
    ([], mkState (b - 224) 2 (if b =? 224 then 160 else 128)
           (if b =? 237 then 159 else 191))
  else if (240 <=? b) && (b <=? 244) then
    ([], mkState (b - 240) 3 (if b =? 240 then 144 else 128)
           (if b =? 244 then 143 else 191))
  else ([65533], initial).

Definition step (st : state) (b : Z) : list Z * state :=
  match st.(bytes_needed) with
  | O => start b
  | S n =>
      if (st.(lower) <=? b) && (b <=? st.(upper)) then
        let cp := st.(code_point) * 64 + (b - 128) in
        match n with
        | O => (units cp, initial)
        | S _ => ([], mkState cp n 128 191)
        end
      else
        let (out, st') := start b in
        (65533 :: out, st')
  end.

Fixpoint decode_from (st : state) (bytes : list Z) : JsString.t :=
  match bytes with
  | [] =>
      match st.(bytes_needed) with
      | O => []
      | S _ => [65533]
      end
  | b :: rest =>
      let (out, st') := step st b in
      out ++ decode_from st' rest
  end.

Definition decode (buf : Buffer.t) : JsString.t :=
  decode_from initial (Buffer.to_Zs buf).

End Utf8Decoder.

(** ** src/core/chunk-crypto.js, continued *)

(** [chunk.toText(encoding = 'base64')]. *)
Definition toText (this : EncryptedChunk) (encoding : option Encoding)
  : result JsString.t :=
  let encoding := match encoding with Some e => e | None => base64 end in
  let* buffer := toBuffer this in
  Ok (Buffer_toString buffer encoding).

(** [EncryptedChunk.fromText(text, encoding = 'base64')]. *)
Definition fromText `{Base64Decoder} (text : JsString.t) (encoding : option Encoding)
  : result EncryptedChunk :=
  let encoding := match encoding with Some e => e | None => base64 end in
  let buffer := Buffer_from text encoding in
  fromBuffer buffer.

(** ** Node [stream.Readable] in byte mode

    [push] of a string stores its UTF-8 bytes; a chunk of no bytes is
    not handed on. *)
Definition Readable_push (chunk : Buffer.t) : list Buffer.t :=
  if (length chunk =? 0)%nat then [] else [chunk].

Definition Readable_push_string (text : JsString.t) : list Buffer.t :=
  Readable_push (JsString.utf8 text).

(** ** src/core/encryption-stream.js, continued *)

Module TextEncodingStream.

Record t : Type := mk { encoding : Encoding }.

(** [new TextEncodingStream(encoding = 'base64')]. *)
Definition new (encoding : option Encoding) : t :=
  mk (match encoding with Some e => e | None => base64 end).

(** [_transform(chunk, encoding, callback)]. *)
Definition _transform (this : t) (chunk : Buffer.t) : outcome Buffer.t t :=
  let text := Buffer_toString chunk this.(encoding) in
  mkOutcome (Readable_push_string (text ++ [10])) this None.

(** No [_flush] is defined. *)
Definition _flush (this : t) : outcome Buffer.t t := mkOutcome [] this None.

End TextEncodingStream.

(** ** src/core/decryption-stream.js, continued *)

Module TextDecodingStream.

Record t : Type := mk { encoding : Encoding; lineBuffer : JsString.t }.

(** [new TextDecodingStream(encoding = 'base64')]. *)
Definition new (encoding : option Encoding) : t :=
  mk (match encoding with Some e => e | None => base64 end) [].

(** The body of the loop over the lines, and of [_flush]:
    [if (line.trim()) this.push(Buffer.from(line.trim(), this.encoding))]. *)
Definition decode_line `{Base64Decoder} (encoding : Encoding) (line : JsString.t)
  : list Buffer.t :=
  if (0 <? length (StringPrototype.trim line))%nat
  then Readable_push (Buffer_from (StringPrototype.trim line) encoding)
  else [].

(** [_transform(chunk, encoding, callback)]. *)
Definition _transform `{Base64Decoder} (this : t) (chunk : Buffer.t)
  : outcome Buffer.t t :=
  let lineBuffer := this.(lineBuffer) ++ Utf8Decoder.decode chunk in
  let lines := StringPrototype.split lineBuffer 10 in
  let lineBuffer' := last lines [] in
  let lines' := removelast lines in
  mkOutcome (flat_map (decode_line this.(encoding)) lines')
    (mk this.(encoding) lineBuffer') None.

(** [_flush(callback)]. *)
Definition _flush `{Base64Decoder} (this : t) : outcome Buffer.t t :=
  mkOutcome (decode_line this.(encoding) this.(lineBuffer)) this None.

End TextDecodingStream.

(** ** Node [fs]

    The files are those of a map from paths to contents: two paths name
    the same file when they are the same string.  A read stream delivers
    the content in pieces of [highWaterMark] bytes; a write stream
    opens its path with the flag 'w', which empties the file, and what
    it is given becomes the content of its path. *)
Module fs.

Definition t : Type := JsString.t -> option Buffer.t.

Definition existsSync (files : t) (path : JsString.t) : bool :=
  match files path with
  | Some _ => true
  | None => false
  end.

(** [fs.statSync(path).size]. *)
Definition statSync_size (files : t) (path : JsString.t) : result Z :=
  match files path with
  | Some content => Ok (Z.of_nat (length content))
  | None => Throw (Error ("ENOENT: no such file or directory, stat '"
                            ++ text_of path ++ "'"))
  end.

Definition highWaterMark : nat := 64 * 1024.

Fixpoint read (fuel : nat) (content : Buffer.t) : list Buffer.t :=
  match fuel with
  | O => []
  | S fuel' =>
      match content with
      | [] => []
      | _ :: _ => firstn highWaterMark content :: read fuel' (skipn highWaterMark content)
      end
  end.

(** The [data] events of [fs.createReadStream(path)]. *)
Definition createReadStream (files : t) (path : JsString.t) : result (list Buffer.t) :=
  match files path with
  | Some content => Ok (read (length content) content)
  | None => Throw (Error ("ENOENT: no such file or directory, open '"
                            ++ text_of path ++ "'"))
  end.

(** The files once a write stream on [path] has been given [chunks] and
    closed. *)
Definition written (files : t) (path : JsString.t) (chunks : list Buffer.t) : t :=
  fun p => if StringPrototype.eqb p path then Some (Buffer.concat chunks) else files p.

(** The files once [fs.createWriteStream(path)] has opened its file:
    the file is there and empty. *)
Definition createWriteStream (files : t) (path : JsString.t) : t :=
  written files path [].

End fs.

(** ** src/core/file-crypto.js, continued *)

(** A stage of a pipeline run to its end: what it pushed and the state
    it was left in, or the error that stopped it.  As with [settle], the
    stages are run one after the other, and the error kept is that of
    the earliest stage that has one. *)
Definition stage {O S : Type} (p : outcome O S) : result (list O * S) :=
  match p.(failure) with
  | None => Ok (p.(pushes), p.(final))
  | Some e => Throw e
  end.

(** [encryptFile({ inputPath, outputPath, masterKey, videoId, encoding,
    chunkSize })]: the statistics it resolves with and the files
    afterwards.  Both streams on files are created before the pipeline
    runs, so the output file has been opened, and emptied, by the time
    the input file is read. *)
Definition encryptFile (rng : Rng) (files : fs.t) (inputPath outputPath : JsString.t)
    (masterKey : Buffer.t) (videoId : JsString.t) (encoding : option Encoding)
    (chunkSize : option nat) : result (Z * nat * fs.t) :=
  let encoding := match encoding with Some e => e | None => binary end in
  validateFilePath inputPath "inputPath" ;;
  validateFilePath outputPath "outputPath" ;;
  validateMasterKey masterKey ;;
  validateVideoId videoId ;;
  validateEncoding (Some (Encoding_name encoding)) ;;
  match chunkSize with
  | Some n => validateChunkSize n
  | None => Ok tt
  end ;;
  if negb (fs.existsSync files inputPath) then
    Throw (Error ("Arquivo de entrada não encontrado: " ++ text_of inputPath))
  else
    let* size := fs.statSync_size files inputPath in
    if MAX_FILE_SIZE <? size then
      Throw (Error ("Arquivo excede o tamanho máximo permitido ("
                      ++ show MAX_FILE_SIZE ++ " bytes)"))
    else
      let* videoKey := deriveVideoKey masterKey videoId in
      let opened := fs.createWriteStream files outputPath in
      let* input := fs.createReadStream opened inputPath in
      let encryptionStream := EncryptionStream.new videoKey videoId chunkSize rng in
      let* encrypted :=
        stage (run EncryptionStream._transform EncryptionStream._flush
                 encryptionStream input) in
      let* serialized :=
        stage (run ChunkSerializationStream._transform ChunkSerializationStream._flush
                 tt (fst encrypted)) in
      let* output :=
        match encoding with
        | binary => Ok (fst serialized)
        | _ =>
            let* encoded :=
              stage (run TextEncodingStream._transform TextEncodingStream._flush
                       (TextEncodingStream.new (Some encoding)) (fst serialized)) in
            Ok (fst encoded)
        end in
      Ok (EncryptionStream.getStats (snd encrypted),
          fs.written files outputPath output).

(** [decryptFile({ inputPath, outputPath, masterKey, videoId, encoding })],
    for the class that [ChunkDeserializationStream] names.  As in
    [encryptFile], the output file is opened before the input file is
    read. *)
Definition decryptFile `{Base64Decoder} (Deserialization : DeserializationClass)
    (files : fs.t) (inputPath outputPath : JsString.t) (masterKey : Buffer.t) (videoId : JsString.t)
    (encoding : option Encoding)
  : result (nat * nat * list (Z * string) * fs.t) :=
  let encoding := match encoding with Some e => e | None => binary end in
  validateFilePath inputPath "inputPath" ;;
  validateFilePath outputPath "outputPath" ;;
  validateMasterKey masterKey ;;
  validateVideoId videoId ;;
  validateEncoding (Some (Encoding_name encoding)) ;;
  if negb (fs.existsSync files inputPath) then
    Throw (Error ("Arquivo criptografado não encontrado: " ++ text_of inputPath))
  else
    let* videoKey := deriveVideoKey masterKey videoId in
    let opened := fs.createWriteStream files outputPath in
    let* input := fs.createReadStream opened inputPath in
    let* decoded :=
      match encoding with
      | binary => Ok input
      | _ =>
          let* decoded :=
            stage (run TextDecodingStream._transform TextDecodingStream._flush
                     (TextDecodingStream.new (Some encoding)) input) in
          Ok (fst decoded)
      end in
    let* frames :=
      stage (run Deserialization.(transform) Deserialization.(flush)
               Deserialization.(construct) decoded) in
    let* plaintexts :=
      stage (run DecryptionStream._transform DecryptionStream._flush
               (DecryptionStream.new videoKey videoId) (fst frames)) in
    Ok (DecryptionStream.getStats (snd plaintexts),
        fs.written files outputPath (fst plaintexts)).

(** ** Reference definitions for the statements *)

(** The chunk [encryptChunk] builds for a plaintext, from the nonce it
    draws. *)
Definition sealed_chunk (rng : Rng) (plaintext videoKey : Buffer.t)
    (videoId : JsString.t) (chunkIndex : Z) : EncryptedChunk :=
  let nonce := fst (randomBytes 12 rng) in
  let aad := Sha256.digest (JsString.utf8 videoId ++ Buffer.be_bytes 4 chunkIndex) in
  let ws := Aes.expand_key videoKey in
  let ct := Gcm.gctr ws (Gcm.inc32 (Gcm.j0 ws nonce)) plaintext in
  mkEncryptedChunk chunkIndex nonce (Gcm.tag_of ws nonce aad ct) ct.

Definition advance (rng : Rng) : Rng := snd (randomBytes 12 rng).

Fixpoint advance_by (n : nat) (rng : Rng) : Rng :=
  match n with
  | O => rng
  | S k => advance_by k (advance rng)
  end.

(** The [k]-th piece of [F] bytes of a byte string, and its first [n]
    pieces. *)
Definition piece (F : nat) (B : Buffer.t) (k : nat) : Buffer.t :=
  firstn F (skipn (k * F) B).

Definition pieces (F : nat) (B : Buffer.t) (n : nat) : list Buffer.t :=
  map (piece F B) (seq 0 n).

(** The chunks of successive pieces, numbered from [i]. *)
Fixpoint seal_all (rng : Rng) (videoKey : Buffer.t) (videoId : JsString.t)
    (i : Z) (ps : list Buffer.t) : list EncryptedChunk :=
  match ps with
  | [] => []
  | p :: ps' =>
      sealed_chunk rng p videoKey videoId i
        :: seal_all (advance rng) videoKey videoId (i + 1) ps'
  end.

(** The number of frames of a byte string of length [len]: the ceiling
    of [len / F]. *)
Definition frame_count (F len : nat) : nat := (len + F - 1) / F.

(** ** Sample inputs *)

Definition sample_chunk : EncryptedChunk :=
  mkEncryptedChunk 5 (Buffer.alloc 12) (Buffer.alloc 16) (ascii_bytes "test data").

Definition sample_key : Buffer.t :=
  hex_bytes "000102030405060708090a0b0c0d0e0f101112131415161718191a1b1c1d1e1f".

Definition sample_id : JsString.t := JsString.of_string "video-1".

Definition sample_rng : Rng :=
  mkRng (fun n => Buffer.byte_of_Z (Z.of_nat (7 * n + 3))) 0.


(** Two chunks sealed under the sample key and id, the one of index 1
    placed before the one of index 0. *)
Definition out_of_order_frames : list EncryptedChunk :=
  [sealed_chunk (advance sample_rng) (ascii_bytes "second") sample_key sample_id 1;
   sealed_chunk sample_rng (ascii_bytes "first") sample_key sample_id 0].


(** Sixty-four hexadecimal digits followed by one more. *)
Definition hex_key_65 : JsString.t :=
  JsString.of_string
    "000102030405060708090a0b0c0d0e0f101112131415161718191a1b1c1d1e1f0".

(** The answers of a rate limiter to a sequence of requests, each made
    of the time it arrives at and its key: to all of them, and to those
    of one key. *)
Fixpoint answers (this : RateLimiter.t) (reqs : list (Z * JsString.t)) : list bool :=
  match reqs with
  | [] => []
  | (now, key) :: rest =>
      let r := RateLimiter.check this now key in
      fst r :: answers (snd r) rest
  end.

Fixpoint answers_to (key : JsString.t) (this : RateLimiter.t)
    (reqs : list (Z * JsString.t)) : list bool :=
  match reqs with
  | [] => []
  | (now, k) :: rest =>
      let r := RateLimiter.check this now k in
      if StringPrototype.eqb k key then fst r :: answers_to key (snd r) rest
      else answers_to key (snd r) rest
  end.

(** The times of the requests of one key. *)
Definition times_of (key : JsString.t) (reqs : list (Z * JsString.t)) : list Z :=
  map fst (filter (fun r => StringPrototype.eqb (snd r) key) reqs).

(** The bytes of a chunk as [toBuffer] lays them out, and a record of
    the length-prefixed form: the length of the body on four bytes, then
    the body. *)
Definition serialized (c : EncryptedChunk) : Buffer.t :=
  Buffer.be_bytes 4 c.(index) ++ c.(iv) ++ c.(tag) ++ c.(ciphertext).

Definition framed (body : Buffer.t) : Buffer.t :=
  Buffer.be_bytes 4 (Z.of_nat (length body)) ++ body.

(** The line a text encoding stream writes for a chunk of bytes. *)
Definition text_line (encoding : Encoding) (chunk : Buffer.t) : Buffer.t :=
  JsString.utf8 (Buffer_toString chunk encoding ++ [10]).

(** A decoder of base64 text for the strings [Base64.encode] makes: the
    decoder of RFC 4648, which inverts the encoder. *)
Module Base64Reference.

Definition value (u : Z) : Z :=
  if (65 <=? u) && (u <=? 90) then u - 65
  else if (97 <=? u) && (u <=? 122) then u - 71
  else if (48 <=? u) && (u <=? 57) then u + 4
  else if u =? 43 then 62
  else 63.

Fixpoint decode (s : JsString.t) : list Z :=
  match s with
  | a :: b :: c :: d :: s' =>
      if c =? 61 then [value a * 4 + value b / 16]
      else if d =? 61 then
        [value a * 4 + value b / 16; value b mod 16 * 16 + value c / 4]
      else
        (value a * 4 + value b / 16) :: (value b mod 16 * 16 + value c / 4)
          :: (value c mod 4 * 64 + value d) :: decode s'
  | _ => []
  end.

End Base64Reference.

Definition reference_decoder : Base64Decoder :=
  fun text => Buffer.of_Zs (Base64Reference.decode text).

(** Two limiters that answer alike from a time [t] on: the same bounds,
    and for every key the same entry, or no entry in the first and one
    that is expired at [t] in the second. *)
Definition alike_from (t : Z) (s1 s2 : RateLimiter.t) : Prop :=
  RateLimiter.maxRequests s1 = RateLimiter.maxRequests s2
  /\ RateLimiter.windowMs s1 = RateLimiter.windowMs s2
  /\ forall k : JsString.t,
       RateLimiter.Map_get (RateLimiter.requests s1) k
       = RateLimiter.Map_get (RateLimiter.requests s2) k
       \/ (RateLimiter.Map_get (RateLimiter.requests s1) k = None
           /\ exists d, RateLimiter.Map_get (RateLimiter.requests s2) k = Some d
                        /\ RateLimiter.resetAt d < t).

(** Two limiters with the same bounds and the same entries but for one
    key. *)
Definition alike_but (key : JsString.t) (s1 s2 : RateLimiter.t) : Prop :=
  RateLimiter.maxRequests s1 = RateLimiter.maxRequests s2
  /\ RateLimiter.windowMs s1 = RateLimiter.windowMs s2
  /\ forall k : JsString.t,
       k <> key ->
       RateLimiter.Map_get (RateLimiter.requests s1) k
       = RateLimiter.Map_get (RateLimiter.requests s2) k.

(** What is left in the buffer holds no complete record. *)
Definition incomplete (tail : Buffer.t) : Prop :=
  (length tail < 4)%nat
  \/ Z.of_nat (length tail) < 4 + Buffer.be_value (firstn 4 tail).

(** Text without white space: printable ASCII characters only. *)
Definition plain (s : JsString.t) : Prop := Forall (fun u => 33 <= u <= 126) s.

(** Lines: strings without a line feed, and the text they make when each
    is followed by one. *)
Definition no_newline (s : JsString.t) : Prop := ~ In 10 s.

Definition lines_text (ls : list JsString.t) : JsString.t :=
  concat (map (fun l => l ++ [10]) ls).


(** ** Further sample inputs *)

(** The key derived from the sample key for the sample id. *)
Definition sample_video_key : Buffer.t :=
  hex_bytes "41927a8e991f11e560824b2678c90ba2acb76a4e2fc8f2ea7bfc17bf72f99087".

(** One file, in.bin, of thirteen bytes. *)
Definition sample_files : fs.t :=
  fun path =>
    if StringPrototype.eqb path (JsString.of_string "in.bin")
    then Some (ascii_bytes "Hello, World!")
    else None.


(** Four requests, three of them of the key a. *)
Definition sample_requests : list (Z * JsString.t) :=
  [(0, JsString.of_string "a"); (10, JsString.of_string "b");
   (20, JsString.of_string "a"); (30, JsString.of_string "a")].

(** A limiter that holds an entry expired at time 200. *)
Definition stale_limiter : RateLimiter.t :=
  RateLimiter.mk 5 1000 [(JsString.of_string "a", RateLimiter.mkData 5 100)].

(** Two records, of 32 and of 40 bytes, cut into three writes. *)
Definition sample_records : list Buffer.t := [Buffer.alloc 32; Buffer.alloc 40].

Definition sample_record_writes : list Buffer.t :=
  let bytes := concat (map framed sample_records) in
  [firstn 5 bytes; firstn 45 (skipn 5 bytes); skipn 50 bytes].

(** The chunks of thirteen bytes taken four at a time, under the sample
    key and id. *)
Definition sample_chunks : list Buffer.t :=
  map serialized
    (seal_all sample_rng sample_video_key sample_id 0
       (pieces 4 (ascii_bytes "Hello, World!") 4)).

(** A file that holds the sample chunks, each behind its length. *)
Definition framed_files : fs.t :=
  fun _ => Some (Buffer.concat (map framed sample_chunks)).

(** * Properties *)

(** ** Test vectors of the primitives (FIPS 180-4, RFC 4231, FIPS 197,
    the GCM specification) *)

Example sha256_abc :
  Buffer.to_hex (Sha256.digest (ascii_bytes "abc"))
  = "ba7816bf8f01cfea414140de5dae2223b00361a396177a9cb410ff61f20015ad"%string.
Proof. vm_compute. reflexivity. Qed.

Example sha256_empty :
  Buffer.to_hex (Sha256.digest [])
  = "e3b0c44298fc1c149afbf4c8996fb92427ae41e4649b934ca495991b7852b855"%string.
Proof. vm_compute. reflexivity. Qed.

Example sha256_two_blocks :
  Buffer.to_hex (Sha256.digest
    (ascii_bytes "abcdbcdecdefdefgefghfghighijhijkijkljklmklmnlmnomnopnopq"))
  = "248d6a61d20638b8e5c026930c3e6039a33ce45964ff2167f6ecedd419db06c1"%string.
Proof. vm_compute. reflexivity. Qed.

Example hmac_rfc4231_1 :
  Buffer.to_hex (Hmac.digest (repeat x0b 20) (ascii_bytes "Hi There"))
  = "b0344c61d8db38535ca8afceaf0bf12b881dc200c9833da726e9376c2e32cff7"%string.
Proof. vm_compute. reflexivity. Qed.

Example hmac_rfc4231_2 :
  Buffer.to_hex (Hmac.digest (ascii_bytes "Jefe") (ascii_bytes "what do ya want for nothing?"))
  = "5bdcc146bf60754e6a042426089575c75a003f089d2739839dec58b964ec3843"%string.
Proof. vm_compute. reflexivity. Qed.


Example aes256_fips197 :
  Buffer.to_hex
    (Aes.encrypt_block
       (Aes.expand_key (hex_bytes "000102030405060708090a0b0c0d0e0f101112131415161718191a1b1c1d1e1f"))
       (hex_bytes "00112233445566778899aabbccddeeff"))
  = "8ea2b7ca516745bfeafc49904b496089"%string.
Proof. vm_compute. reflexivity. Qed.

Example gcm_case_13 :
  Gcm.seal (Buffer.alloc 32) (Buffer.alloc 12) [] []
  = Ok ([], hex_bytes "530f8afbc74536b9a963b4f1c4cb738b").
Proof. vm_compute. reflexivity. Qed.

Example gcm_case_14 :
  Gcm.seal (Buffer.alloc 32) (Buffer.alloc 12) [] (Buffer.alloc 16)
  = Ok (hex_bytes "cea7403d4d606b6e074ec5d3baf39d18",
        hex_bytes "d0d1c8a799996bf0265b98b5d48ab919").
Proof. vm_compute. reflexivity. Qed.

Example gcm_case_16 :
  Gcm.seal
    (hex_bytes "feffe9928665731c6d6a8f9467308308feffe9928665731c6d6a8f9467308308")
    (hex_bytes "cafebabefacedbaddecaf888")
    (hex_bytes "feedfacedeadbeeffeedfacedeadbeefabaddad2")
    (hex_bytes "d9313225f88406e5a55909c5aff5269a86a7a9531534f7da2e4c303d8a318a721c3c0c95956809532fcf0e2449a6b525b16aedf5aa0de657ba637b39")
  = Ok (hex_bytes "522dc1f099567d07f47f37a32a84427d643a8cdcbfe5c0c97598a2bd2555d1aa8cb08e48590dbb3da7b08b1056828838c5f61e6393ba7a0abcc9f662",
        hex_bytes "76fc6ece0f4e1768cddf8853bb2d551b").
Proof. vm_compute. reflexivity. Qed.

(** ** Lists and bytes *)

Lemma firstn_app_length {A : Type} (u v : list A) (n : nat) :
  length u = n -> firstn n (u ++ v) = u.
Proof.
  intros <-. rewrite firstn_app, Nat.sub_diag, firstn_all. simpl.
  apply app_nil_r.
Qed.

Lemma skipn_app_length {A : Type} (u v : list A) (n : nat) :
  length u = n -> skipn n (u ++ v) = v.
Proof.
  intros <-. rewrite skipn_app, Nat.sub_diag, skipn_all. reflexivity.
Qed.

Lemma Z_of_byte_range (b : byte) : 0 <= Buffer.Z_of_byte b < 256.
Proof.
  unfold Buffer.Z_of_byte. pose proof (Byte.to_N_bounded b). lia.
Qed.

Lemma Z_of_byte_of_Z (z : Z) : Buffer.Z_of_byte (Buffer.byte_of_Z z) = z mod 256.
Proof.
  unfold Buffer.Z_of_byte, Buffer.byte_of_Z.
  pose proof (Z.mod_pos_bound z 256 ltac:(lia)) as Hm.
  destruct (Byte.of_N (Z.to_N (z mod 256))) as [b|] eqn:E.
  - apply Byte.to_of_N in E. rewrite E. lia.
  - apply Byte.of_N_None_iff in E. lia.
Qed.

Lemma byte_of_Z_of_byte (b : byte) : Buffer.byte_of_Z (Buffer.Z_of_byte b) = b.
Proof.
  unfold Buffer.byte_of_Z.
  rewrite Z.mod_small by apply Z_of_byte_range.
  unfold Buffer.Z_of_byte. rewrite N2Z.id, Byte.of_to_N. reflexivity.
Qed.

Lemma length_be_bytes (n : nat) (z : Z) : length (Buffer.be_bytes n z) = n.
Proof. induction n; simpl; congruence. Qed.

Lemma be_value_be_bytes_4 (z : Z) :
  0 <= z <= 4294967295 -> Buffer.be_value (Buffer.be_bytes 4 z) = z.
Proof.
  intros Hz. unfold Buffer.be_value, Buffer.be_bytes. cbn [fold_left].
  rewrite !Z_of_byte_of_Z, !Z.shiftr_div_pow2 by lia.
  change (2 ^ (8 * Z.of_nat 3)) with 16777216.
  change (2 ^ (8 * Z.of_nat 2)) with 65536.
  change (2 ^ (8 * Z.of_nat 1)) with 256.
  change (2 ^ (8 * Z.of_nat 0)) with 1.
  Z.to_euclidean_division_equations. lia.
Qed.

Lemma be_value_range_4 (b : Buffer.t) :
  length b = 4%nat -> 0 <= Buffer.be_value b <= 4294967295.
Proof.
  destruct b as [|b0 [|b1 [|b2 [|b3 [|? ?]]]]]; try discriminate. intros _.
  unfold Buffer.be_value. cbn [fold_left].
  pose proof (Z_of_byte_range b0). pose proof (Z_of_byte_range b1).
  pose proof (Z_of_byte_range b2). pose proof (Z_of_byte_range b3). lia.
Qed.

(** ** The serialized chunk (chunk-crypto.js) *)

Lemma toBuffer_ok (c : EncryptedChunk) :
  0 <= c.(index) <= 4294967295 ->
  toBuffer c
  = Ok (Buffer.be_bytes 4 c.(index) ++ c.(iv) ++ c.(tag) ++ c.(ciphertext)).
Proof.
  intros H. unfold toBuffer, Buffer.writeUInt32BE.
  replace ((0 <=? index c) && (index c <=? 4294967295)) with true
    by (symmetry; apply andb_true_intro; split; apply Z.leb_le; lia).
  cbn [bind Buffer.concat concat]. rewrite app_nil_r. reflexivity.
Qed.

Lemma fromBuffer_layout (i : Z) (v t c : Buffer.t) :
  0 <= i <= 4294967295 -> length v = 12%nat -> length t = 16%nat ->
  fromBuffer (Buffer.be_bytes 4 i ++ v ++ t ++ c) = Ok (mkEncryptedChunk i v t c).
Proof.
  intros Hi Hv Ht. unfold fromBuffer, Buffer.readUInt32BE.
  set (buf := Buffer.be_bytes 4 i ++ v ++ t ++ c).
  assert (Hlen : length buf = (32 + length c)%nat).
  { unfold buf. rewrite !length_app, length_be_bytes. lia. }
  replace (length buf <? CONFIG.HEADER.TOTAL_SIZE)%nat with false
    by (symmetry; apply Nat.ltb_ge; unfold CONFIG.HEADER.TOTAL_SIZE; lia).
  replace (4 <=? length buf)%nat with true by (symmetry; apply Nat.leb_le; lia).
  cbn [bind]. unfold Buffer.slice, Buffer.slice_from, buf.
  rewrite (firstn_app_length _ _ 4) by apply length_be_bytes.
  rewrite be_value_be_bytes_4 by assumption.
  rewrite (skipn_app_length _ _ 4) by apply length_be_bytes.
  change (16 - 4)%nat with 12%nat. rewrite (firstn_app_length _ _ 12) by assumption.
  replace (Buffer.be_bytes 4 i ++ v ++ t ++ c)
    with ((Buffer.be_bytes 4 i ++ v) ++ t ++ c) by (rewrite <- app_assoc; reflexivity).
  rewrite (skipn_app_length _ _ 16) by (rewrite length_app, length_be_bytes; lia).
  change (32 - 16)%nat with 16%nat. rewrite (firstn_app_length _ _ 16) by assumption.
  replace ((Buffer.be_bytes 4 i ++ v) ++ t ++ c)
    with (((Buffer.be_bytes 4 i ++ v) ++ t) ++ c) by (rewrite <- !app_assoc; reflexivity).
  rewrite (skipn_app_length _ _ 32) by (rewrite !length_app, length_be_bytes; lia).
  reflexivity.
Qed.

(** C5. For every chunk whose index is a uint32, whose iv has 12 bytes
    and whose tag has 16 bytes, [toBuffer] yields exactly the four
    big-endian index bytes, the iv, the tag and the ciphertext, 32 + N
    bytes in all, and [fromBuffer] of that buffer is the chunk again. *)
Theorem C5_toBuffer_layout_fromBuffer_inverse (c : EncryptedChunk) :
  0 <= c.(index) <= 4294967295 ->
  length c.(iv) = 12%nat ->
  length c.(tag) = 16%nat ->
  exists buf : Buffer.t,
    toBuffer c = Ok buf
    /\ buf = Buffer.be_bytes 4 c.(index) ++ c.(iv) ++ c.(tag) ++ c.(ciphertext)
    /\ Buffer.be_value (firstn 4 buf) = c.(index)
    /\ length buf = (32 + length c.(ciphertext))%nat
    /\ fromBuffer buf = Ok c.
Proof.
  intros Hi Hv Ht. eexists. split; [apply toBuffer_ok; assumption|].
  split; [reflexivity|]. split; [|split].
  - rewrite (firstn_app_length _ _ 4) by apply length_be_bytes.
    apply be_value_be_bytes_4; assumption.
  - rewrite !length_app, length_be_bytes. lia.
  - rewrite fromBuffer_layout by assumption. destruct c; reflexivity.
Qed.

Lemma C5_witness :
  exists buf : Buffer.t,
    toBuffer sample_chunk = Ok buf
    /\ buf = Buffer.be_bytes 4 5 ++ Buffer.alloc 12 ++ Buffer.alloc 16
               ++ ascii_bytes "test data"
    /\ Buffer.be_value (firstn 4 buf) = 5
    /\ length buf = (32 + 9)%nat
    /\ fromBuffer buf = Ok sample_chunk.
Proof.
  apply (C5_toBuffer_layout_fromBuffer_inverse sample_chunk).
  - simpl. lia.
  - reflexivity.
  - reflexivity.
Defined.

(** C7 (as the code has it). [fromBuffer] refuses exactly the buffers of
    fewer than 32 bytes, the size of the header; a buffer of the header
    alone is accepted, with an empty ciphertext. *)
Theorem C7_fromBuffer_accepts_from_32_bytes (buffer : Buffer.t) :
  is_ok (fromBuffer buffer) = (32 <=? length buffer)%nat
  /\ ((length buffer <? 32)%nat = true ->
      fromBuffer buffer = Throw (Error "Buffer inválido ou muito pequeno")).
Proof.
  unfold fromBuffer, Buffer.readUInt32BE, CONFIG.HEADER.TOTAL_SIZE.
  destruct (length buffer <? 32)%nat eqn:E.
  - split; [|reflexivity]. apply Nat.ltb_lt in E.
    symmetry. apply Nat.leb_gt. assumption.
  - apply Nat.ltb_ge in E. split; [|discriminate].
    replace (4 <=? length buffer)%nat with true by (symmetry; apply Nat.leb_le; lia).
    cbn [bind is_ok]. symmetry. apply Nat.leb_le. assumption.
Qed.

(** C7 fails as stated: a buffer of 32 bytes, fewer than 33, is parsed. *)
Lemma C7_counterexample :
  (length (Buffer.alloc 32) <? 33)%nat = true
  /\ fromBuffer (Buffer.alloc 32)
     = Ok (mkEncryptedChunk 0 (Buffer.alloc 12) (Buffer.alloc 16) []).
Proof. split; reflexivity. Qed.

(** ** Digest sizes *)

Lemma length_sha256 (msg : Buffer.t) : length (Sha256.digest msg) = 32%nat.
Proof.
  unfold Sha256.digest, Sha256.output.
  rewrite !length_app, !length_be_bytes. reflexivity.
Qed.

Lemma length_hmac (key msg : Buffer.t) : length (Hmac.digest key msg) = 32%nat.
Proof. unfold Hmac.digest. apply length_sha256. Qed.

(** ** Validation (security.js) *)

Lemma validateMasterKey_ok (k : Buffer.t) :
  validateMasterKey k = Ok tt
  <-> length k = 32%nat /\ Buffer.all_zero k = false /\ (16 <= Buffer.distinct k)%nat.
Proof.
  unfold validateMasterKey, CONFIG.CRYPTO.KEY_LENGTH.
  destruct (length k =? 32)%nat eqn:E1; cbn [negb].
  - apply Nat.eqb_eq in E1. destruct (Buffer.all_zero k) eqn:E2.
    + split; [discriminate | intros (_ & H & _); discriminate].
    + destruct (Buffer.distinct k <? 16)%nat eqn:E3.
      * apply Nat.ltb_lt in E3. split; [discriminate | intros (_ & _ & H); lia].
      * apply Nat.ltb_ge in E3. split; auto.
  - apply Nat.eqb_neq in E1. split; [discriminate | intros (H & _); contradiction].
Qed.

Lemma validateVideoId_ok (s : JsString.t) :
  validateVideoId s = Ok tt
  <-> (1 <= length s <= 255)%nat /\ forallb SECURITY_LIMITS.video_id_char s = true.
Proof.
  unfold validateVideoId, SECURITY_LIMITS.VIDEO_ID_PATTERN,
    SECURITY_LIMITS.MIN_VIDEO_ID_LENGTH, SECURITY_LIMITS.MAX_VIDEO_ID_LENGTH.
  destruct (length s =? 0)%nat eqn:E0.
  { apply Nat.eqb_eq in E0. split; [discriminate | intros [H _]; lia]. }
  apply Nat.eqb_neq in E0.
  destruct (length s <? 1)%nat eqn:E1.
  { apply Nat.ltb_lt in E1. lia. }
  destruct (255 <? length s)%nat eqn:E2.
  { apply Nat.ltb_lt in E2. split; [discriminate | intros [H _]; lia]. }
  apply Nat.ltb_ge in E2. cbn [negb andb].
  destruct (forallb SECURITY_LIMITS.video_id_char s) eqn:E3; cbn [negb].
  - split; [intros _; split; [lia | reflexivity] | reflexivity].
  - split; [discriminate | intros [_ H]; discriminate].
Qed.

Lemma validateVideoId_nonempty (s : JsString.t) :
  validateVideoId s = Ok tt -> (length s =? 0)%nat = false.
Proof.
  intros H. apply validateVideoId_ok in H. apply Nat.eqb_neq. lia.
Qed.

Lemma video_id_char_ascii (u : Z) :
  SECURITY_LIMITS.video_id_char u = true -> 0 <= u < 128.
Proof. unfold SECURITY_LIMITS.video_id_char. lia. Qed.

Lemma utf8_units_ascii (s : JsString.t) :
  forallb SECURITY_LIMITS.video_id_char s = true -> JsString.utf8_units s = s.
Proof.
  induction s as [|u s IH]; [reflexivity|].
  cbn [forallb]. intros H. apply andb_prop in H as [Hu Hs].
  apply video_id_char_ascii in Hu. cbn [JsString.utf8_units].
  unfold JsString.is_high_surrogate, JsString.is_low_surrogate, JsString.utf8_code_point.
  replace ((55296 <=? u) && (u <? 56320)) with false by lia.
  replace ((56320 <=? u) && (u <? 57344)) with false by lia.
  replace (u <? 128) with true by lia.
  cbn [app]. rewrite IH by assumption. reflexivity.
Qed.

Lemma length_utf8_video_id (s : JsString.t) :
  forallb SECURITY_LIMITS.video_id_char s = true ->
  length (JsString.utf8 s) = length s.
Proof.
  intros H. unfold JsString.utf8, Buffer.of_Zs.
  rewrite length_map, utf8_units_ascii by assumption. reflexivity.
Qed.

(** C9 (as the code has it). [validateVideoId] accepts exactly the
    strings of 1 to 255 characters, all of the class [[A-Za-z0-9._:-]];
    every other string is refused with a ValidationError; an accepted
    string has as many UTF-8 bytes as characters. *)
Theorem C9_validateVideoId_accepts_1_to_255 (videoId : JsString.t) :
  is_ok (validateVideoId videoId)
  = (1 <=? length videoId)%nat && (length videoId <=? 255)%nat
    && forallb SECURITY_LIMITS.video_id_char videoId
  /\ (is_ok (validateVideoId videoId) = false ->
      is_ValidationError (validateVideoId videoId) = true)
  /\ (is_ok (validateVideoId videoId) = true ->
      length (JsString.utf8 videoId) = length videoId).
Proof.
  split; [|split].
  - destruct (validateVideoId videoId) as [[]|e] eqn:E; cbn [is_ok].
    + apply validateVideoId_ok in E as [Hl Hc]. rewrite Hc.
      symmetry. rewrite !andb_true_iff, !Nat.leb_le. repeat split; lia.
    + symmetry. apply not_true_is_false. intros H.
      rewrite !andb_true_iff, !Nat.leb_le in H. destruct H as [[H1 H2] H3].
      assert (Hok : validateVideoId videoId = Ok tt)
        by (apply validateVideoId_ok; split; [lia | assumption]).
      congruence.
  - unfold validateVideoId.
    repeat match goal with
           | |- context [if ?b then _ else _] => destruct b
           end; cbn [is_ok is_ValidationError]; congruence.
  - intros H. destruct (validateVideoId videoId) as [[]|e] eqn:E; [|discriminate].
    apply validateVideoId_ok in E as [_ Hc]. apply length_utf8_video_id. assumption.
Qed.

(** C9 fails as stated: the id of 256 letters [a] is over the allowed
    alphabet and 256 bytes long in UTF-8, and it is refused. *)
Lemma C9_counterexample :
  forallb SECURITY_LIMITS.video_id_char (repeat 97 256) = true
  /\ length (JsString.utf8 (repeat 97 256)) = 256%nat
  /\ validateVideoId (repeat 97 256)
     = Throw (ValidationError "Video ID não pode exceder 255 caracteres" "videoId").
Proof. repeat split; vm_compute; reflexivity. Qed.

(** ** Key derivation (hkdf.js) *)

(** C3. For a valid master key and a valid video id, [deriveVideoKey]
    returns the first 32 bytes of HMAC-SHA-256(prk, INFO || 0x01) with
    prk = HMAC-SHA-256(SHA-256(utf8 id), master) and INFO the bytes of
    "@kitsuneislife/keyring-vcm-v1"; the result is 32 bytes long and is
    a function of the two arguments alone. *)
Theorem C3_deriveVideoKey_is_hkdf (masterKey : Buffer.t) (videoId : JsString.t) :
  validateMasterKey masterKey = Ok tt ->
  validateVideoId videoId = Ok tt ->
  let salt := Sha256.digest (JsString.utf8 videoId) in
  let prk := Hmac.digest salt masterKey in
  let okm := Hmac.digest prk (ascii_bytes "@kitsuneislife/keyring-vcm-v1" ++ [x01]) in
  deriveVideoKey masterKey videoId = Ok (firstn 32 okm)
  /\ length (firstn 32 okm) = 32%nat.
Proof.
  intros HM HO salt prk okm. unfold deriveVideoKey. rewrite HM, HO. cbn [bind].
  split.
  - unfold Buffer.slice, CONFIG.CRYPTO.KEY_LENGTH, CONFIG.HKDF.INFO, Buffer.concat.
    cbn [concat skipn]. rewrite app_nil_r. reflexivity.
  - rewrite length_firstn. unfold okm. rewrite length_hmac. reflexivity.
Qed.

Lemma C3_witness :
  let salt := Sha256.digest (JsString.utf8 sample_id) in
  let prk := Hmac.digest salt sample_key in
  let okm := Hmac.digest prk (ascii_bytes "@kitsuneislife/keyring-vcm-v1" ++ [x01]) in
  deriveVideoKey sample_key sample_id = Ok (firstn 32 okm)
  /\ length (firstn 32 okm) = 32%nat.
Proof.
  apply (C3_deriveVideoKey_is_hkdf sample_key sample_id); reflexivity.
Defined.

(** ** Associated data (aad.js) *)

(** C6. For a valid video id and an index in [0, 2^32 - 1], [createAAD]
    returns SHA-256(utf8 id || uint32_be index), which is 32 bytes long;
    its only inputs are the id and the index. *)
Theorem C6_createAAD_is_sha256_of_id_and_index (videoId : JsString.t) (chunkIndex : Z) :
  validateVideoId videoId = Ok tt ->
  0 <= chunkIndex <= 4294967295 ->
  createAAD videoId chunkIndex
  = Ok (Sha256.digest (JsString.utf8 videoId ++ Buffer.be_bytes 4 chunkIndex))
  /\ length (Sha256.digest (JsString.utf8 videoId ++ Buffer.be_bytes 4 chunkIndex))
     = 32%nat.
Proof.
  intros HO Hi. split; [|apply length_sha256].
  unfold createAAD, Buffer.writeUInt32BE.
  rewrite (validateVideoId_nonempty _ HO).
  replace ((chunkIndex <? 0) || (4294967295 <? chunkIndex)) with false by lia.
  replace ((0 <=? chunkIndex) && (chunkIndex <=? 4294967295)) with true by lia.
  cbn [bind Buffer.concat concat]. rewrite app_nil_r. reflexivity.
Qed.

Lemma C6_witness :
  createAAD sample_id 7
  = Ok (Sha256.digest (JsString.utf8 sample_id ++ Buffer.be_bytes 4 7))
  /\ length (Sha256.digest (JsString.utf8 sample_id ++ Buffer.be_bytes 4 7))
     = 32%nat.
Proof.
  apply (C6_createAAD_is_sha256_of_id_and_index sample_id 7).
  - reflexivity.
  - lia.
Defined.

(** ** AES-256-GCM: opening what was sealed *)

Lemma log2_byte (x : Z) : 0 <= x < 256 -> Z.log2 x < 8.
Proof.
  intros H. destruct (Z.eq_dec x 0) as [->|N]; [reflexivity|].
  apply Z.log2_lt_pow2; lia.
Qed.

Lemma lxor_byte_range (x y : Z) :
  0 <= x < 256 -> 0 <= y < 256 -> 0 <= Z.lxor x y < 256.
Proof.
  intros Hx Hy.
  assert (Hn : 0 <= Z.lxor x y) by (apply Z.lxor_nonneg; lia).
  split; [assumption|].
  destruct (Z.eq_dec (Z.lxor x y) 0) as [->|N]; [lia|].
  change 256 with (2 ^ 8). apply Z.log2_lt_pow2; [lia|].
  pose proof (Z.log2_lxor x y ltac:(lia) ltac:(lia)).
  pose proof (log2_byte x Hx). pose proof (log2_byte y Hy). lia.
Qed.

Lemma xor_byte_involutive (x k : byte) :
  Buffer.xor_byte (Buffer.xor_byte x k) k = x.
Proof.
  unfold Buffer.xor_byte. rewrite Z_of_byte_of_Z.
  rewrite Z.mod_small by (apply lxor_byte_range; apply Z_of_byte_range).
  rewrite Z.lxor_assoc, Z.lxor_nilpotent, Z.lxor_0_r.
  apply byte_of_Z_of_byte.
Qed.

Lemma length_xor (x k : Buffer.t) :
  (length x <= length k)%nat -> length (Buffer.xor x k) = length x.
Proof.
  revert k. induction x as [|a x IH]; intros [|b k] H; cbn in *; try lia.
  rewrite IH by lia. reflexivity.
Qed.

Lemma xor_involutive (x k : Buffer.t) :
  (length x <= length k)%nat -> Buffer.xor (Buffer.xor x k) k = x.
Proof.
  revert k. induction x as [|a x IH]; intros [|b k] H; cbn in *; try lia; try reflexivity.
  rewrite xor_byte_involutive, IH by lia. reflexivity.
Qed.

Lemma length_encrypt_block (ws : list (list Z)) (block : Buffer.t) :
  length (Aes.encrypt_block ws block) = 16%nat.
Proof. unfold Aes.encrypt_block. rewrite length_map, length_seq. reflexivity. Qed.

Lemma length_keystream (n : nat) (ws : list (list Z)) (cb : Buffer.t) :
  length (Gcm.keystream n ws cb) = (16 * n)%nat.
Proof.
  revert cb. induction n as [|n IH]; intros cb; [reflexivity|].
  cbn [Gcm.keystream]. rewrite length_app, length_encrypt_block, IH. lia.
Qed.

Lemma keystream_covers (x : Buffer.t) (ws : list (list Z)) (cb : Buffer.t) :
  (length x <= length (Gcm.keystream (S (length x / 16)) ws cb))%nat.
Proof.
  rewrite length_keystream.
  pose proof (Nat.div_mod_eq (length x) 16) as E.
  pose proof (Nat.mod_upper_bound (length x) 16 ltac:(lia)). lia.
Qed.

Lemma length_gctr (ws : list (list Z)) (icb x : Buffer.t) :
  length (Gcm.gctr ws icb x) = length x.
Proof. unfold Gcm.gctr. apply length_xor, keystream_covers. Qed.

Lemma gctr_involutive (ws : list (list Z)) (icb x : Buffer.t) :
  Gcm.gctr ws icb (Gcm.gctr ws icb x) = x.
Proof.
  unfold Gcm.gctr at 1. rewrite length_gctr. unfold Gcm.gctr.
  apply xor_involutive, keystream_covers.
Qed.

Lemma seal_ok (key nonce aad plaintext : Buffer.t) :
  length key = 32%nat -> length nonce = 12%nat ->
  let ws := Aes.expand_key key in
  let ct := Gcm.gctr ws (Gcm.inc32 (Gcm.j0 ws nonce)) plaintext in
  Gcm.seal key nonce aad plaintext = Ok (ct, Gcm.tag_of ws nonce aad ct).
Proof.
  intros Hk Hn. unfold Gcm.seal, Gcm.check_key_iv. rewrite Hk, Hn. reflexivity.
Qed.

Lemma length_tag_of (ws : list (list Z)) (nonce aad ct : Buffer.t) :
  length (Gcm.tag_of ws nonce aad ct) = 16%nat.
Proof. unfold Gcm.tag_of. rewrite length_gctr. apply length_be_bytes. Qed.

Lemma open_sealed (key nonce aad plaintext : Buffer.t) :
  let ws := Aes.expand_key key in
  let ct := Gcm.gctr ws (Gcm.inc32 (Gcm.j0 ws nonce)) plaintext in
  Gcm.open_final key nonce aad ct (Gcm.tag_of ws nonce aad ct) = inl plaintext.
Proof.
  intros ws ct. unfold Gcm.open_final. fold ws.
  destruct (list_eq_dec Byte.byte_eq_dec (Gcm.tag_of ws nonce aad ct)
              (Gcm.tag_of ws nonce aad ct)) as [_|N]; [|contradiction].
  unfold ct. rewrite gctr_involutive. reflexivity.
Qed.

(** ** One chunk (chunk-crypto.js) *)

Lemma length_randomBytes (n : nat) (rng : Rng) :
  length (fst (randomBytes n rng)) = n.
Proof. unfold randomBytes. cbn [fst]. rewrite length_map, length_seq. reflexivity. Qed.

Lemma createAAD_ok (videoId : JsString.t) (chunkIndex : Z) :
  validateVideoId videoId = Ok tt ->
  0 <= chunkIndex <= 4294967295 ->
  createAAD videoId chunkIndex
  = Ok (Sha256.digest (JsString.utf8 videoId ++ Buffer.be_bytes 4 chunkIndex)).
Proof.
  intros HO Hi. unfold createAAD, Buffer.writeUInt32BE.
  rewrite (validateVideoId_nonempty _ HO).
  replace ((chunkIndex <? 0) || (4294967295 <? chunkIndex)) with false by lia.
  replace ((0 <=? chunkIndex) && (chunkIndex <=? 4294967295)) with true by lia.
  cbn [bind Buffer.concat concat]. rewrite app_nil_r. reflexivity.
Qed.

Lemma validateChunkIndex_ok (i : Z) :
  0 <= i <= 100000 -> validateChunkIndex i = Ok tt.
Proof.
  intros H. unfold validateChunkIndex, SECURITY_LIMITS.MAX_CHUNKS_PER_VIDEO.
  replace (i <? 0) with false by lia.
  replace (4294967295 <? i) with false by lia.
  replace (100000 <? i) with false by lia. reflexivity.
Qed.


Lemma encryptChunk_ok (rng : Rng) (plaintext videoKey : Buffer.t)
    (videoId : JsString.t) (chunkIndex : Z) :
  plaintext <> [] ->
  validateMasterKey videoKey = Ok tt ->
  validateVideoId videoId = Ok tt ->
  0 <= chunkIndex <= 100000 ->
  encryptChunk rng plaintext videoKey videoId chunkIndex
  = Ok (sealed_chunk rng plaintext videoKey videoId chunkIndex, advance rng).
Proof.
  intros Hp Hk Ho Hi. unfold encryptChunk, validateBuffer.
  destruct plaintext as [|b p]; [contradiction|].
  cbn [length Nat.eqb bind]. rewrite Hk, Ho, validateChunkIndex_ok by assumption.
  cbn [bind]. unfold CONFIG.CRYPTO.IV_LENGTH.
  destruct (randomBytes 12 rng) as [nonce rng'] eqn:E.
  rewrite createAAD_ok by (assumption || lia). cbn [bind].
  assert (Hn : length nonce = 12%nat).
  { replace nonce with (fst (randomBytes 12 rng)) by (rewrite E; reflexivity).
    apply length_randomBytes. }
  apply validateMasterKey_ok in Hk as (Hlen & _).
  rewrite seal_ok by assumption. cbn [bind fst snd].
  unfold sealed_chunk, advance. rewrite E. reflexivity.
Qed.


Lemma decryptChunk_sealed (rng : Rng) (plaintext videoKey : Buffer.t)
    (videoId : JsString.t) (chunkIndex : Z) :
  validateMasterKey videoKey = Ok tt ->
  validateVideoId videoId = Ok tt ->
  0 <= chunkIndex <= 4294967295 ->
  decryptChunk (sealed_chunk rng plaintext videoKey videoId chunkIndex) videoKey videoId
  = Ok plaintext.
Proof.
  intros Hk Ho Hi. unfold decryptChunk. rewrite Hk, Ho. cbn [bind].
  unfold sealed_chunk. cbn [index iv tag ciphertext].
  rewrite createAAD_ok by assumption. cbn [bind].
  unfold Gcm.open_setup, Gcm.check_key_iv.
  apply validateMasterKey_ok in Hk as (Hlen & _).
  rewrite Hlen, length_randomBytes, length_tag_of. cbn [Nat.eqb negb bind].
  rewrite open_sealed. reflexivity.
Qed.

(** ** Cutting a byte string into pieces *)

Lemma div_bounds (a F : nat) :
  (1 <= F)%nat -> (a / F * F <= a)%nat /\ (a < a / F * F + F)%nat.
Proof.
  intros HF. pose proof (Nat.div_mod_eq a F) as E.
  pose proof (Nat.mod_upper_bound a F ltac:(lia)) as U.
  rewrite (Nat.mul_comm F) in E. lia.
Qed.

Lemma div_step (a F : nat) :
  (1 <= F)%nat -> (F <= a)%nat -> (a / F = S ((a - F) / F))%nat.
Proof.
  intros HF Ha. symmetry.
  apply (Nat.div_unique a F (S ((a - F) / F)) ((a - F) mod F)).
  - apply Nat.mod_upper_bound. lia.
  - pose proof (Nat.div_mod_eq (a - F) F) as E. rewrite Nat.mul_succ_r. lia.
Qed.

Lemma div_add_pieces (m r F : nat) :
  (1 <= F)%nat -> ((m * F + r) / F = m + r / F)%nat.
Proof. intros HF. rewrite Nat.div_add_l by lia. reflexivity. Qed.

Lemma frame_count_cases (F len : nat) :
  (1 <= F)%nat ->
  frame_count F len = if (len mod F =? 0)%nat then (len / F)%nat else S (len / F).
Proof.
  intros HF. unfold frame_count.
  pose proof (Nat.div_mod_eq len F) as E.
  pose proof (Nat.mod_upper_bound len F ltac:(lia)) as U.
  destruct (len mod F =? 0)%nat eqn:Z0.
  - apply Nat.eqb_eq in Z0. symmetry.
    apply (Nat.div_unique _ F (len / F) (F - 1)); lia.
  - apply Nat.eqb_neq in Z0. symmetry.
    apply (Nat.div_unique _ F (S (len / F)) (len mod F - 1)); [lia|].
    rewrite Nat.mul_succ_r. lia.
Qed.

Lemma map_seq_offset {A : Type} (f : nat -> A) (a n : nat) :
  map f (seq a n) = map (fun j => f (a + j)%nat) (seq 0 n).
Proof.
  rewrite <- (Nat.add_0_r a) at 1. generalize 0%nat as o.
  induction n as [|n IH]; intros o; [reflexivity|].
  cbn [seq map]. f_equal. rewrite <- IH. f_equal. f_equal. lia.
Qed.

Lemma length_pieces (F : nat) (B : Buffer.t) (n : nat) : length (pieces F B n) = n.
Proof. unfold pieces. rewrite length_map, length_seq. reflexivity. Qed.

Lemma pieces_S (F : nat) (B : Buffer.t) (n : nat) :
  pieces F B (S n) = firstn F B :: pieces F (skipn F B) n.
Proof.
  unfold pieces. cbn [seq map]. f_equal.
  rewrite map_seq_offset. apply map_ext. intros j. unfold piece.
  rewrite skipn_skipn. f_equal. f_equal. lia.
Qed.

Lemma pieces_snoc (F : nat) (B : Buffer.t) (n : nat) :
  pieces F B (S n) = pieces F B n ++ [piece F B n].
Proof. unfold pieces. rewrite seq_S, map_app. reflexivity. Qed.

Lemma piece_app_l (F : nat) (X Y : Buffer.t) (k : nat) :
  (k * F + F <= length X)%nat -> piece F (X ++ Y) k = piece F X k.
Proof.
  intros H. unfold piece.
  rewrite skipn_app. replace (k * F - length X)%nat with 0%nat by lia.
  cbn [skipn]. rewrite firstn_app, length_skipn.
  replace (F - (length X - k * F))%nat with 0%nat by lia.
  cbn [firstn]. apply app_nil_r.
Qed.

Lemma skipn_app_l {A : Type} (X Y : list A) (n : nat) :
  (n <= length X)%nat -> skipn n (X ++ Y) = skipn n X ++ Y.
Proof.
  intros H. rewrite skipn_app. replace (n - length X)%nat with 0%nat by lia.
  reflexivity.
Qed.

Lemma pieces_app (F : nat) (X Y : Buffer.t) (m1 m2 : nat) :
  (m1 * F <= length X)%nat ->
  pieces F (X ++ Y) (m1 + m2)
  = pieces F X m1 ++ pieces F (skipn (m1 * F) X ++ Y) m2.
Proof.
  intros H. unfold pieces. rewrite seq_app, map_app. f_equal.
  - apply map_ext_in. intros k Hk. apply in_seq in Hk.
    apply piece_app_l. nia.
  - cbn [Nat.add]. rewrite map_seq_offset. apply map_ext. intros j.
    unfold piece. rewrite <- (skipn_app_l X Y) by assumption.
    rewrite skipn_skipn. f_equal. f_equal. lia.
Qed.

Lemma seal_all_app (rng : Rng) (key : Buffer.t) (id : JsString.t) (i : Z)
    (l1 l2 : list Buffer.t) :
  seal_all rng key id i (l1 ++ l2)
  = seal_all rng key id i l1
      ++ seal_all (advance_by (length l1) rng) key id (i + Z.of_nat (length l1)) l2.
Proof.
  revert rng i. induction l1 as [|p l1 IH]; intros rng i.
  - cbn [app seal_all length advance_by Z.of_nat]. rewrite Z.add_0_r. reflexivity.
  - cbn [app seal_all length advance_by]. rewrite IH. cbn [app]. f_equal. f_equal. f_equal. lia.
Qed.

Lemma advance_by_add (a b : nat) (rng : Rng) :
  advance_by (a + b) rng = advance_by b (advance_by a rng).
Proof.
  revert rng. induction a as [|a IH]; intros rng; [reflexivity|].
  cbn [Nat.add advance_by]. apply IH.
Qed.

(** ** The encryption stream (encryption-stream.js) *)

Section EncryptionStreamFacts.

Variable key : Buffer.t.
Variable id : JsString.t.
Variable F : nat.
Hypothesis key_valid : validateMasterKey key = Ok tt.
Hypothesis id_valid : validateVideoId id = Ok tt.
Hypothesis F_pos : (1 <= F)%nat.

Lemma firstn_nonempty (b : Buffer.t) : (F <= length b)%nat -> firstn F b <> [].
Proof.
  intros H E. apply (f_equal (@length byte)) in E.
  rewrite length_firstn in E. cbn in E. lia.
Qed.

(** The loop of [_transform] emits the full pieces of the buffer and
    keeps the rest, as long as the indices stay within the limit. *)
Lemma drain_spec (fuel : nat) :
  forall (b : Buffer.t) (i : Z) (bp : nat) (rng : Rng),
    (length b <= fuel)%nat ->
    0 <= i ->
    i + Z.of_nat (length b / F) <= 100001 ->
    EncryptionStream.drain fuel (EncryptionStream.mk key id F b i bp rng)
    = mkOutcome
        (seal_all rng key id i (pieces F b (length b / F)))
        (EncryptionStream.mk key id F (skipn (length b / F * F) b)
           (i + Z.of_nat (length b / F)) (bp + length b / F * F)
           (advance_by (length b / F) rng))
        None.
Proof.
  induction fuel as [|fuel IH]; intros b i bp rng Hfuel Hi Hcap.
  - destruct b; [|cbn in Hfuel; lia]. cbn [length].
    rewrite Nat.Div0.div_0_l. cbn. rewrite Z.add_0_r, Nat.add_0_r. reflexivity.
  - cbn [EncryptionStream.drain EncryptionStream.chunkSize EncryptionStream.buffer
           EncryptionStream.videoKey EncryptionStream.videoId
           EncryptionStream.chunkIndex EncryptionStream.bytesProcessed
           EncryptionStream.rng].
    destruct (F <=? length b)%nat eqn:E.
    + apply Nat.leb_le in E.
      pose proof (div_step (length b) F F_pos E) as Hdiv.
      unfold Buffer.slice, Buffer.slice_from. rewrite Nat.sub_0_r. cbn [skipn].
      rewrite encryptChunk_ok; try assumption;
        [|apply firstn_nonempty; assumption|lia].
      unfold and_then. cbn [failure final pushes].
      assert (Hrest : length (skipn F b) = (length b - F)%nat) by apply length_skipn.
      rewrite IH by (rewrite ?Hrest; lia).
      cbn [failure final pushes]. rewrite Hrest, Hdiv.
      rewrite pieces_S. cbn [seal_all advance_by app].
      rewrite skipn_skipn, length_firstn.
      f_equal. f_equal; try lia.
      f_equal. lia.
    + apply Nat.leb_gt in E. rewrite Nat.div_small by lia.
      cbn. rewrite Z.add_0_r, Nat.add_0_r. reflexivity.
Qed.


Lemma transform_unfold (b w : Buffer.t) (i : Z) (bp : nat) (rng : Rng) :
  EncryptionStream._transform (EncryptionStream.mk key id F b i bp rng) w
  = EncryptionStream.drain (length (b ++ w))
      (EncryptionStream.mk key id F (b ++ w) i bp rng).
Proof.
  unfold EncryptionStream._transform.
  cbn [EncryptionStream.chunkSize EncryptionStream.buffer
         EncryptionStream.videoKey EncryptionStream.videoId
         EncryptionStream.chunkIndex EncryptionStream.bytesProcessed
         EncryptionStream.rng Buffer.concat concat].
  rewrite app_nil_r. reflexivity.
Qed.

(** Any sequence of writes emits the full pieces of what was written and
    keeps the rest in the buffer. *)
Lemma write_all_spec (writes : list Buffer.t) :
  forall (b : Buffer.t) (i : Z) (bp : nat) (rng : Rng),
    (length b < F)%nat ->
    0 <= i ->
    i + Z.of_nat (length (b ++ concat writes) / F) <= 100001 ->
    write_all EncryptionStream._transform
      (EncryptionStream.mk key id F b i bp rng) writes
    = mkOutcome
        (seal_all rng key id i
           (pieces F (b ++ concat writes) (length (b ++ concat writes) / F)))
        (EncryptionStream.mk key id F
           (skipn (length (b ++ concat writes) / F * F) (b ++ concat writes))
           (i + Z.of_nat (length (b ++ concat writes) / F))
           (bp + length (b ++ concat writes) / F * F)
           (advance_by (length (b ++ concat writes) / F) rng))
        None.
Proof.
  induction writes as [|w ws IH]; intros b i bp rng Hb Hi Hcap.
  - cbn [concat write_all] in *. rewrite app_nil_r in *.
    rewrite Nat.div_small by lia.
    cbn. rewrite Z.add_0_r, Nat.add_0_r. reflexivity.
  - cbn [write_all concat] in *. rewrite transform_unfold.
    set (X := b ++ w) in *. set (Y := concat ws) in *.
    replace (b ++ w ++ Y) with (X ++ Y) in * by (unfold X; rewrite app_assoc; reflexivity).
    set (m1 := (length X / F)%nat) in *.
    destruct (div_bounds (length X) F F_pos) as [Hlo Hhi]. fold m1 in Hlo, Hhi.
    assert (Hlen : length (X ++ Y) = (m1 * F + length (skipn (m1 * F) X ++ Y))%nat).
    { rewrite !length_app, length_skipn. lia. }
    assert (Hdiv : (length (X ++ Y) / F = m1 + length (skipn (m1 * F) X ++ Y) / F)%nat).
    { rewrite Hlen at 1. apply div_add_pieces. assumption. }
    rewrite drain_spec; [|lia|assumption|fold m1; lia].
    fold m1. unfold and_then. cbn [failure final pushes].
    rewrite IH; [|rewrite length_skipn; lia|lia|lia].
    cbn [failure final pushes].
    set (m2 := (length (skipn (m1 * F) X ++ Y) / F)%nat) in *.
    rewrite Hdiv. rewrite (pieces_app F X Y m1 m2) by assumption.
    rewrite seal_all_app, length_pieces. rewrite advance_by_add.
    rewrite <- (skipn_app_l X Y (m1 * F)) by assumption.
    rewrite skipn_skipn.
    f_equal. f_equal; try lia. f_equal. lia.
Qed.

Lemma piece_last (B : Buffer.t) (m : nat) :
  (length B < m * F + F)%nat -> piece F B m = skipn (m * F) B.
Proof.
  intros H. unfold piece. apply firstn_all2. rewrite length_skipn. lia.
Qed.

(** A whole run, from a fresh stream: the frames are the chunks of the
    successive pieces of the input. *)
Lemma run_spec (writes : list Buffer.t) (rng : Rng) :
  Z.of_nat (frame_count F (length (concat writes))) <= 100001 ->
  run EncryptionStream._transform EncryptionStream._flush
    (EncryptionStream.mk key id F [] 0 0 rng) writes
  = mkOutcome
      (seal_all rng key id 0
         (pieces F (concat writes) (frame_count F (length (concat writes)))))
      (EncryptionStream.mk key id F [] 
         (Z.of_nat (frame_count F (length (concat writes))))
         (length (concat writes))
         (advance_by (frame_count F (length (concat writes))) rng))
      None.
Proof.
  intros Hcap. set (B := concat writes) in *.
  rewrite frame_count_cases in * by assumption.
  destruct (div_bounds (length B) F F_pos) as [Hlo Hhi].
  pose proof (Nat.div_mod_eq (length B) F) as Hmod.
  rewrite (Nat.mul_comm F) in Hmod.
  set (m := (length B / F)%nat) in *.
  assert (Hm : Z.of_nat m <= 100001) by (destruct (length B mod F =? 0)%nat; lia).
  unfold run. rewrite write_all_spec; cbn [app length]; fold B; fold m;
    [|lia|lia|lia].
  unfold and_then. cbn [failure final pushes].
  unfold EncryptionStream._flush.
  cbn [EncryptionStream.chunkSize EncryptionStream.buffer
         EncryptionStream.videoKey EncryptionStream.videoId
         EncryptionStream.chunkIndex EncryptionStream.bytesProcessed
         EncryptionStream.rng].
  assert (Hr : length (skipn (m * F) B) = (length B mod F)%nat)
    by (rewrite length_skipn; lia).
  rewrite Hr.
  destruct (length B mod F =? 0)%nat eqn:E.
  - apply Nat.eqb_eq in E. rewrite E. cbn [Nat.ltb Nat.leb failure final pushes].
    rewrite app_nil_r. rewrite E in Hr. apply length_zero_iff_nil in Hr. rewrite Hr.
    f_equal. f_equal. lia.
  - apply Nat.eqb_neq in E.
    replace (0 <? length B mod F)%nat with true by (symmetry; apply Nat.ltb_lt; lia).
    rewrite encryptChunk_ok; try assumption; [|intros N; rewrite N in Hr; cbn in Hr; lia|lia].
    cbn [failure final pushes].
    rewrite pieces_snoc, seal_all_app, length_pieces.
    rewrite piece_last by lia. cbn [seal_all].
    change (Buffer.alloc 0) with (@nil byte).
    replace (advance_by (S m) rng) with (advance (advance_by m rng))
      by (replace (S m) with (m + 1)%nat by lia; rewrite advance_by_add; reflexivity).
    f_equal. f_equal; lia.
Qed.


End EncryptionStreamFacts.

(** ** The frames of a run *)

Lemma nth_error_pieces (F : nat) (B : Buffer.t) (n k : nat) :
  (k < n)%nat -> nth_error (pieces F B n) k = Some (piece F B k).
Proof.
  intros H. unfold pieces. rewrite nth_error_map.
  rewrite nth_error_seq. replace (k <? n)%nat with true by (symmetry; apply Nat.ltb_lt; lia).
  reflexivity.
Qed.

Lemma nth_error_seal_all (key : Buffer.t) (id : JsString.t) (ps : list Buffer.t) :
  forall (rng : Rng) (i : Z) (k : nat) (p : Buffer.t),
    nth_error ps k = Some p ->
    nth_error (seal_all rng key id i ps) k
    = Some (sealed_chunk (advance_by k rng) p key id (i + Z.of_nat k)).
Proof.
  induction ps as [|q ps IH]; intros rng i k p H.
  - destruct k; discriminate.
  - destruct k as [|k].
    + cbn in H. injection H as ->. cbn. rewrite Z.add_0_r. reflexivity.
    + cbn [nth_error seal_all advance_by] in *. rewrite (IH _ _ _ _ H).
      replace (i + 1 + Z.of_nat k) with (i + Z.of_nat (S k)) by lia. reflexivity.
Qed.

Lemma length_seal_all (key : Buffer.t) (id : JsString.t) (ps : list Buffer.t) :
  forall (rng : Rng) (i : Z), length (seal_all rng key id i ps) = length ps.
Proof.
  induction ps as [|q ps IH]; intros rng i; [reflexivity|].
  cbn [seal_all length]. rewrite IH. reflexivity.
Qed.

Lemma length_piece (F : nat) (B : Buffer.t) (k : nat) :
  length (piece F B k) = Nat.min F (length B - k * F).
Proof. unfold piece. rewrite length_firstn, length_skipn. reflexivity. Qed.

Lemma concat_pieces (F : nat) (n : nat) :
  forall B : Buffer.t, (length B <= n * F)%nat -> concat (pieces F B n) = B.
Proof.
  induction n as [|n IH]; intros B H.
  - cbn in H. destruct B; [reflexivity | cbn in H; lia].
  - rewrite pieces_S. cbn [concat]. rewrite IH.
    + apply firstn_skipn.
    + rewrite length_skipn. lia.
Qed.

Lemma frame_count_bounds (F len : nat) :
  (1 <= F)%nat ->
  (len <= frame_count F len * F)%nat
  /\ (frame_count F len * F < len + F)%nat.
Proof.
  intros HF. rewrite frame_count_cases by assumption.
  destruct (div_bounds len F HF) as [Hlo Hhi].
  pose proof (Nat.div_mod_eq len F) as Hmod. rewrite (Nat.mul_comm F) in Hmod.
  destruct (len mod F =? 0)%nat eqn:E.
  - apply Nat.eqb_eq in E. lia.
  - apply Nat.eqb_neq in E. cbn [Nat.mul]. lia.
Qed.

Lemma new_unfold (key : Buffer.t) (id : JsString.t) (opt : option nat) (rng : Rng) :
  EncryptionStream.new key id opt rng
  = EncryptionStream.mk key id
      (EncryptionStream.chunkSize (EncryptionStream.new key id opt rng)) [] 0 0 rng.
Proof. reflexivity. Qed.

Lemma new_chunkSize_pos (key : Buffer.t) (id : JsString.t) (opt : option nat) (rng : Rng) :
  (1 <= EncryptionStream.chunkSize (EncryptionStream.new key id opt rng))%nat.
Proof.
  unfold EncryptionStream.new. cbn [EncryptionStream.chunkSize].
  destruct opt as [[|n]|]; try lia; unfold CONFIG.CHUNK_SIZE; apply Nat.lt_0_mul'; lia.
Qed.




(** ** The decryption stream (decryption-stream.js) *)

Lemma decrypt_run_ok (key : Buffer.t) (id : JsString.t) (frames : list EncryptedChunk) :
  forall (plaintexts : list Buffer.t) (n bytes : nat) (errs : list (Z * string)),
    Forall2 (fun c p => decryptChunk c key id = Ok p) frames plaintexts ->
    write_all DecryptionStream._transform
      (DecryptionStream.mk key id n bytes errs) frames
    = mkOutcome plaintexts
        (DecryptionStream.mk key id (n + length frames)
           (bytes + length (concat plaintexts)) errs)
        None.
Proof.
  induction frames as [|c frames IH]; intros plaintexts n bytes errs H.
  - inversion H; subst. cbn. rewrite !Nat.add_0_r. reflexivity.
  - inversion H as [|c' p frames' ps Hc Hrest]; subst.
    cbn [write_all]. unfold DecryptionStream._transform at 1.
    cbn [DecryptionStream.videoKey DecryptionStream.videoId
           DecryptionStream.chunksProcessed DecryptionStream.bytesProcessed
           DecryptionStream.errors].
    rewrite Hc. unfold and_then. cbn [failure final pushes].
    rewrite (IH ps) by assumption. cbn [failure final pushes app concat length].
    rewrite length_app.
    replace (n + 1 + length frames)%nat with (n + S (length frames))%nat by lia.
    replace (bytes + length p + length (concat ps))%nat
      with (bytes + (length p + length (concat ps)))%nat by lia.
    reflexivity.
Qed.

(** The decryption stream keeps no expected index: chunks sealed under
    the key and id of the stream at any indices, arriving in any order,
    are all decrypted, each with the associated data of its own index,
    and their plaintexts are emitted in arrival order without any
    error. *)
Theorem frames_are_decrypted_in_arrival_order (videoKey : Buffer.t)
    (videoId : JsString.t) (items : list (Rng * Buffer.t * Z)) :
  validateMasterKey videoKey = Ok tt ->
  validateVideoId videoId = Ok tt ->
  Forall (fun it => 0 <= snd it <= 4294967295) items ->
  let frames :=
    map (fun it => sealed_chunk (fst (fst it)) (snd (fst it)) videoKey videoId (snd it))
      items in
  let o := run DecryptionStream._transform DecryptionStream._flush
             (DecryptionStream.new videoKey videoId) frames in
  map index frames = map snd items
  /\ o.(failure) = None
  /\ o.(pushes) = map (fun it => snd (fst it)) items
  /\ DecryptionStream.chunksProcessed o.(final) = length items.
Proof.
  intros Hk Ho Hi frames o.
  assert (H2 : Forall2 (fun c p => decryptChunk c videoKey videoId = Ok p)
                 frames (map (fun it => snd (fst it)) items)).
  { unfold frames. clear o frames. induction Hi as [|it items Hit _ IH].
    - constructor.
    - cbn [map]. constructor; [|exact IH].
      apply decryptChunk_sealed; assumption. }
  assert (Hidx : map index frames = map snd items).
  { unfold frames. rewrite map_map. reflexivity. }
  assert (Hlen : length frames = length items) by (unfold frames; apply length_map).
  unfold o, run, DecryptionStream.new.
  rewrite (decrypt_run_ok _ _ _ _ _ _ _ H2).
  unfold and_then, DecryptionStream._flush. cbn [failure final pushes].
  rewrite app_nil_r. cbn [DecryptionStream.chunksProcessed].
  repeat split; [assumption | lia].
Qed.

Lemma frames_in_arrival_order_witness :
  validateMasterKey sample_key = Ok tt
  /\ validateVideoId sample_id = Ok tt
  /\ (let items := [(advance sample_rng, ascii_bytes "second", 1);
                    (sample_rng, ascii_bytes "first", 0)] in
      let frames :=
        map (fun it => sealed_chunk (fst (fst it)) (snd (fst it)) sample_key sample_id
                         (snd it)) items in
      let o := run DecryptionStream._transform DecryptionStream._flush
                 (DecryptionStream.new sample_key sample_id) frames in
      map index frames = map snd items
      /\ o.(failure) = None
      /\ o.(pushes) = map (fun it => snd (fst it)) items
      /\ DecryptionStream.chunksProcessed o.(final) = length items).
Proof.
  split; [reflexivity|]. split; [reflexivity|].
  apply (frames_are_decrypted_in_arrival_order sample_key sample_id
           [(advance sample_rng, ascii_bytes "second", 1);
            (sample_rng, ascii_bytes "first", 0)]).
  - reflexivity.
  - reflexivity.
  - repeat constructor; cbn [snd]; lia.
Defined.

(** C2 at the failing input: the two chunks [encryptChunk] makes for
    indices 0 and 1, fed to the decryption stream with index 1 first,
    raise no error, and the plaintext of each is emitted, in the order
    of arrival: the exchange of the two chunks goes unnoticed. *)
Theorem C2_out_of_order_frames_are_decrypted :
  encryptChunk sample_rng (ascii_bytes "first") sample_key sample_id 0
  = Ok (nth 1 out_of_order_frames sample_chunk, advance sample_rng)
  /\ encryptChunk (advance sample_rng) (ascii_bytes "second") sample_key sample_id 1
     = Ok (nth 0 out_of_order_frames sample_chunk, advance (advance sample_rng))
  /\ map index out_of_order_frames = [1; 0]
  /\ settle (run DecryptionStream._transform DecryptionStream._flush
               (DecryptionStream.new sample_key sample_id) out_of_order_frames)
     = Ok [ascii_bytes "second"; ascii_bytes "first"].
Proof. repeat split; vm_compute; reflexivity. Qed.

(** The decryption stream stops at the first chunk that [decryptChunk]
    refuses: the plaintexts of the chunks before it have been pushed and
    counted, the error of [decryptChunk] is the error of the stream, its
    message is recorded in [errors] with the index of the chunk, and the
    chunks behind it are not decrypted. *)
Theorem decryption_stream_stops_at_the_first_refused_chunk (videoKey : Buffer.t)
    (videoId : JsString.t) (before behind : list EncryptedChunk)
    (plaintexts : list Buffer.t) (c : EncryptedChunk) (e : exn) :
  Forall2 (fun c p => decryptChunk c videoKey videoId = Ok p) before plaintexts ->
  decryptChunk c videoKey videoId = Throw e ->
  run DecryptionStream._transform DecryptionStream._flush
    (DecryptionStream.new videoKey videoId) (before ++ c :: behind)
  = mkOutcome plaintexts
      (DecryptionStream.mk videoKey videoId (length before)
         (length (concat plaintexts)) [(c.(index), message_of e)])
      (Some e).
Proof.
  intros H Hc. unfold run, DecryptionStream.new.
  assert (G : forall n bytes,
             write_all DecryptionStream._transform
               (DecryptionStream.mk videoKey videoId n bytes []) (before ++ c :: behind)
             = mkOutcome plaintexts
                 (DecryptionStream.mk videoKey videoId (n + length before)
                    (bytes + length (concat plaintexts)) [(c.(index), message_of e)])
                 (Some e)).
  { induction H as [|c0 p before ps Hc0 _ IH]; intros n bytes.
    - cbn [app write_all]. unfold DecryptionStream._transform, and_then.
      cbn [DecryptionStream.videoKey DecryptionStream.videoId
             DecryptionStream.chunksProcessed DecryptionStream.bytesProcessed
             DecryptionStream.errors].
      rewrite Hc. cbn [failure app concat length]. rewrite !Nat.add_0_r. reflexivity.
    - cbn [app write_all]. unfold DecryptionStream._transform at 1.
      cbn [DecryptionStream.videoKey DecryptionStream.videoId
             DecryptionStream.chunksProcessed DecryptionStream.bytesProcessed
             DecryptionStream.errors].
      rewrite Hc0. unfold and_then. cbn [failure final pushes].
      rewrite IH. cbn [failure final pushes app concat length].
      rewrite length_app.
      replace (n + 1 + length before)%nat with (n + S (length before))%nat by lia.
      replace (bytes + length p + length (concat ps))%nat
        with (bytes + (length p + length (concat ps)))%nat by lia.
      reflexivity. }
  rewrite (G 0%nat 0%nat). reflexivity.
Qed.


(** ** The length-prefixed deserialization stream (decryption-stream.js) *)

Lemma fromBuffer_parts (b : Buffer.t) :
  (32 <= length b)%nat ->
  fromBuffer b
  = Ok (mkEncryptedChunk (Buffer.be_value (firstn 4 b)) (Buffer.slice b 4 16)
          (Buffer.slice b 16 32) (skipn 32 b)).
Proof.
  intros H. unfold fromBuffer, Buffer.readUInt32BE, CONFIG.HEADER.TOTAL_SIZE.
  replace (length b <? 32)%nat with false by (symmetry; apply Nat.ltb_ge; lia).
  replace (4 <=? length b)%nat with true by (symmetry; apply Nat.leb_le; lia).
  reflexivity.
Qed.

Lemma fromBuffer_short (b : Buffer.t) :
  (length b < 32)%nat -> fromBuffer b = Throw (Error "Buffer inválido ou muito pequeno").
Proof.
  intros H. unfold fromBuffer, CONFIG.HEADER.TOTAL_SIZE.
  replace (length b <? 32)%nat with true by (symmetry; apply Nat.ltb_lt; lia).
  reflexivity.
Qed.

Lemma length_slice (b : Buffer.t) (i j : nat) :
  (i <= j)%nat -> (j <= length b)%nat -> length (Buffer.slice b i j) = (j - i)%nat.
Proof.
  intros Hij Hj. unfold Buffer.slice. rewrite length_firstn, length_skipn. lia.
Qed.

(** One turn of the [while (this.buffer.length >= 4)] loop. *)
Lemma extract_unfold (buf : Buffer.t) (fuel : nat) :
  (4 <= length buf)%nat ->
  let body_len := Buffer.be_value (firstn 4 buf) in
  let this := ChunkDeserializationStream.mk buf in
  let rest := ChunkDeserializationStream.mk (skipn (4 + Z.to_nat body_len) buf) in
  ChunkDeserializationStream.extract (S fuel) this
  = if Z.of_nat (length buf) <? 4 + body_len
    then mkOutcome [] this None
    else match fromBuffer (Buffer.slice buf 4 (4 + Z.to_nat body_len)) with
         | Throw e => mkOutcome [] rest (Some e)
         | Ok c =>
             and_then (mkOutcome [c] rest None)
               (ChunkDeserializationStream.extract fuel)
         end.
Proof.
  intros H4 body_len this rest.
  cbn [ChunkDeserializationStream.extract ChunkDeserializationStream.buffer this].
  unfold this. cbn [ChunkDeserializationStream.buffer].
  unfold Buffer.readUInt32BE.
  replace (4 <=? length buf)%nat with true by (symmetry; apply Nat.leb_le; lia).
  reflexivity.
Qed.




(** ** Importing a master key (hkdf.js) *)

(** C10 at the failing input: a string of 65 hexadecimal digits is
    accepted; its last digit is dropped by [Buffer.from(hexKey, 'hex')]
    and the key of the first 64 digits is returned. *)
Theorem C10_import_accepts_65_digits :
  length hex_key_65 = 65%nat
  /\ hex_pattern hex_key_65 = true
  /\ importMasterKey hex_key_65 = Ok sample_key.
Proof. repeat split; vm_compute; reflexivity. Qed.

(** ** Buffers in memory (file-crypto.js) *)

(** The two classes at one input.  [encryptBuffer] turns the 13 bytes
    of "Hello, World!" into one serialized frame of 45 bytes.  With the
    length-prefixed class [decryptBuffer] of that frame is rejected: the
    deserialization stream reads the first four bytes of the frame, its
    index 0, as the length of a record and hands an empty record to
    [fromBuffer].  With the whole-write class it returns the 13 bytes. *)
Example decryptBuffer_of_a_frame_under_each_class :
  exists frame : Buffer.t,
    encryptBuffer sample_rng (ascii_bytes "Hello, World!") sample_key sample_id None
    = Ok [frame]
    /\ length frame = 45%nat
    /\ Buffer.readUInt32BE frame = Ok 0
    /\ decryptBuffer length_prefixed [frame] sample_key sample_id
       = Throw (Error "Buffer inválido ou muito pequeno")
    /\ decryptBuffer whole_write [frame] sample_key sample_id
       = Ok (ascii_bytes "Hello, World!").
Proof.
  eexists. split; [vm_compute; reflexivity|].
  repeat split; vm_compute; reflexivity.
Qed.

(** ** The length-prefixed class: [decryptBuffer] rejects what [encryptBuffer] made *)

Lemma settle_and_then {O S : Type} (m : outcome O S) (k : S -> outcome O S)
    (l : list O) :
  settle (and_then m k) = Ok l ->
  m.(failure) = None
  /\ (k m.(final)).(failure) = None
  /\ l = m.(pushes) ++ (k m.(final)).(pushes).
Proof.
  unfold settle, and_then. destruct (failure m) as [e|] eqn:Em.
  - rewrite Em. discriminate.
  - cbn [failure pushes]. destruct (failure (k (final m))); [discriminate|].
    intros H. injection H as <-. auto.
Qed.

Lemma settle_failed {O S : Type} (m : outcome O S) (k : S -> outcome O S) (e : exn) :
  m.(failure) = Some e -> settle (and_then m k) = Throw e.
Proof. intros H. unfold settle, and_then. rewrite H, H. reflexivity. Qed.

Lemma validateChunkIndex_inv (i : Z) :
  validateChunkIndex i = Ok tt -> 0 <= i <= 100000.
Proof.
  unfold validateChunkIndex, SECURITY_LIMITS.MAX_CHUNKS_PER_VIDEO.
  destruct (i <? 0) eqn:E1; [discriminate|].
  destruct (4294967295 <? i) eqn:E2; [discriminate|].
  destruct (100000 <? i) eqn:E3; [discriminate|]. lia.
Qed.

(** A chunk that [encryptChunk] returned. *)
Lemma encryptChunk_inv (rng rng' : Rng) (plaintext videoKey : Buffer.t)
    (videoId : JsString.t) (chunkIndex : Z) (c : EncryptedChunk) :
  encryptChunk rng plaintext videoKey videoId chunkIndex = Ok (c, rng') ->
  c = sealed_chunk rng plaintext videoKey videoId chunkIndex
  /\ plaintext <> []
  /\ validateMasterKey videoKey = Ok tt
  /\ validateVideoId videoId = Ok tt
  /\ 0 <= chunkIndex <= 100000.
Proof.
  intros H.
  assert (Hp : plaintext <> []).
  { intros ->. unfold encryptChunk, validateBuffer in H. cbn in H. discriminate. }
  assert (Hv : validateMasterKey videoKey = Ok tt
               /\ validateVideoId videoId = Ok tt
               /\ validateChunkIndex chunkIndex = Ok tt).
  { unfold encryptChunk in H.
    destruct (validateBuffer plaintext "plaintext") as [[]|]; [|discriminate].
    cbn [bind] in H.
    destruct (validateMasterKey videoKey) as [[]|]; [|discriminate].
    cbn [bind] in H.
    destruct (validateVideoId videoId) as [[]|]; [|discriminate].
    cbn [bind] in H.
    destruct (validateChunkIndex chunkIndex) as [[]|]; [|discriminate].
    auto. }
  destruct Hv as (Hk & Ho & Hi). apply validateChunkIndex_inv in Hi.
  rewrite encryptChunk_ok in H by assumption.
  injection H as <- _. auto.
Qed.

Lemma sealed_chunk_shape (rng : Rng) (p key : Buffer.t) (id : JsString.t) (i : Z) :
  (sealed_chunk rng p key id i).(index) = i
  /\ length (sealed_chunk rng p key id i).(iv) = 12%nat
  /\ length (sealed_chunk rng p key id i).(tag) = 16%nat
  /\ length (sealed_chunk rng p key id i).(ciphertext) = length p.
Proof.
  unfold sealed_chunk. cbn [index iv tag ciphertext].
  rewrite length_randomBytes, length_tag_of, length_gctr. auto.
Qed.

(** The first chunk the loop of [_transform] pushes, if it pushes any. *)
Lemma drain_head (fuel : nat) (this : EncryptionStream.t) :
  (EncryptionStream.drain fuel this).(failure) = None ->
  ((EncryptionStream.drain fuel this).(pushes) = []
   /\ (EncryptionStream.drain fuel this).(final) = this
   /\ (fuel = 0%nat
       \/ (length this.(EncryptionStream.buffer) < this.(EncryptionStream.chunkSize))%nat))
  \/ (exists c rest rng',
        (EncryptionStream.drain fuel this).(pushes) = c :: rest
        /\ encryptChunk this.(EncryptionStream.rng)
             (Buffer.slice this.(EncryptionStream.buffer) 0
                this.(EncryptionStream.chunkSize))
             this.(EncryptionStream.videoKey) this.(EncryptionStream.videoId)
             this.(EncryptionStream.chunkIndex) = Ok (c, rng')).
Proof.
  destruct fuel as [|fuel]; cbn [EncryptionStream.drain].
  - intros _. left. auto.
  - destruct (EncryptionStream.chunkSize this <=? length (EncryptionStream.buffer this))%nat
      eqn:E.
    + destruct (encryptChunk _ _ _ _ _) as [[c rng']|e] eqn:Ec.
      * intros _. right. unfold and_then. cbn [failure final pushes app].
        eexists c, _, rng'. split; reflexivity.
      * cbn [failure]. discriminate.
    + intros _. left. apply Nat.leb_gt in E. auto.
Qed.

Lemma first_frame (videoKey : Buffer.t) (videoId : JsString.t)
    (options_chunkSize : option nat) (rng : Rng) (data : Buffer.t)
    (frames : list EncryptedChunk) :
  data <> [] ->
  settle (run EncryptionStream._transform EncryptionStream._flush
            (EncryptionStream.new videoKey videoId options_chunkSize rng) [data])
  = Ok frames ->
  exists c rest,
    frames = c :: rest
    /\ c.(index) = 0 /\ length c.(iv) = 12%nat /\ length c.(tag) = 16%nat.
Proof.
  intros Hdata H. rewrite new_unfold in H.
  set (F := EncryptionStream.chunkSize _) in H. clearbody F.
  unfold run in H. apply settle_and_then in H as (HW & Hflush & ->).
  cbn [write_all] in HW, Hflush |- *.
  rewrite transform_unfold in HW, Hflush |- *. cbn [app] in HW, Hflush |- *.
  set (T := EncryptionStream.drain (length data)
              (EncryptionStream.mk videoKey videoId F data 0 0 rng)) in *.
  assert (HT : failure T = None).
  { unfold and_then in HW. destruct (failure T) eqn:E; [congruence | reflexivity]. }
  unfold and_then in Hflush |- *. rewrite HT in Hflush |- *.
  cbn [failure final pushes] in Hflush |- *. rewrite app_nil_r.
  destruct (drain_head _ _ HT) as [(Hnil & Hfin & Hcond) | (c & rest & rng' & Hpush & Henc)].
  - fold T in Hnil, Hfin. rewrite Hnil, Hfin in *. cbn [app].
    cbn [EncryptionStream.buffer EncryptionStream.chunkSize] in Hcond.
    unfold EncryptionStream._flush in Hflush |- *.
    cbn [EncryptionStream.chunkSize EncryptionStream.buffer
           EncryptionStream.videoKey EncryptionStream.videoId
           EncryptionStream.chunkIndex EncryptionStream.bytesProcessed
           EncryptionStream.rng] in Hflush |- *.
    destruct data as [|x data]; [contradiction|].
    cbn [length Nat.ltb Nat.leb] in Hflush |- *.
    destruct (encryptChunk rng (x :: data) videoKey videoId 0) as [[c rng']|e] eqn:Ec;
      [|discriminate].
    cbn [pushes]. apply encryptChunk_inv in Ec as (-> & _).
    eexists _, []. split; [reflexivity|].
    destruct (sealed_chunk_shape rng (x :: data) videoKey videoId 0) as (? & ? & ? & _).
    auto.
  - fold T in Hpush. rewrite Hpush. cbn [app].
    cbn [EncryptionStream.chunkSize EncryptionStream.buffer
           EncryptionStream.videoKey EncryptionStream.videoId
           EncryptionStream.chunkIndex EncryptionStream.rng] in Henc.
    apply encryptChunk_inv in Henc as (-> & _).
    eexists _, _. split; [reflexivity|].
    destruct (sealed_chunk_shape rng (Buffer.slice data 0 F) videoKey videoId 0)
      as (? & ? & ? & _).
    auto.
Qed.

Lemma first_serialized (c : EncryptedChunk) (rest : list EncryptedChunk)
    (chunks : list Buffer.t) :
  settle (run ChunkSerializationStream._transform ChunkSerializationStream._flush
            tt (c :: rest)) = Ok chunks ->
  exists b rest', chunks = b :: rest' /\ toBuffer c = Ok b.
Proof.
  intros H. unfold run in H. apply settle_and_then in H as (HW & _ & ->).
  cbn [write_all] in HW |- *.
  destruct (toBuffer c) as [b|e] eqn:Eb.
  - exists b. unfold and_then, ChunkSerializationStream._transform. rewrite Eb.
    cbn [failure final pushes app]. eexists. split; reflexivity.
  - exfalso. unfold and_then, ChunkSerializationStream._transform in HW.
    rewrite Eb in HW. cbn [failure] in HW. discriminate.
Qed.

(** A serialized chunk of index 0 is read as a record of length 0. *)
Lemma deserialization_rejects_index_0 (c : EncryptedChunk) (b : Buffer.t)
    (rest : list Buffer.t) :
  c.(index) = 0 -> length c.(iv) = 12%nat -> length c.(tag) = 16%nat ->
  toBuffer c = Ok b ->
  settle (run ChunkDeserializationStream._transform ChunkDeserializationStream._flush
            ChunkDeserializationStream.new (b :: rest))
  = Throw (Error "Buffer inválido ou muito pequeno").
Proof.
  intros Hi Hv Ht Hb. rewrite toBuffer_ok in Hb by lia.
  assert (Eb : b = Buffer.be_bytes 4 (index c) ++ iv c ++ tag c ++ ciphertext c)
    by congruence.
  clear Hb.
  assert (Hlen : length b = (32 + length (ciphertext c))%nat).
  { rewrite Eb, !length_app, length_be_bytes. lia. }
  assert (Hbody : Buffer.be_value (firstn 4 b) = 0).
  { rewrite Eb, (firstn_app_length _ _ 4) by apply length_be_bytes.
    rewrite Hi. reflexivity. }
  clear Eb.
  unfold run. apply settle_failed. cbn [write_all]. unfold and_then.
  assert (HT : failure (ChunkDeserializationStream._transform
                          ChunkDeserializationStream.new b)
               = Some (Error "Buffer inválido ou muito pequeno")).
  { unfold ChunkDeserializationStream._transform, ChunkDeserializationStream.new.
    cbn [ChunkDeserializationStream.buffer Buffer.concat concat Buffer.alloc repeat app].
    rewrite app_nil_r.
    destruct (length b) as [|fuel] eqn:El; [lia|].
    rewrite extract_unfold by lia. cbn zeta. rewrite Hbody.
    replace (Z.of_nat (length b) <? 4 + 0) with false by lia.
    rewrite fromBuffer_short; [reflexivity|].
    unfold Buffer.slice. rewrite length_firstn. cbn. lia. }
  rewrite HT. exact HT.
Qed.

Lemma deriveVideoKey_inv (masterKey : Buffer.t) (videoId : JsString.t) (k : Buffer.t) :
  deriveVideoKey masterKey videoId = Ok k ->
  validateMasterKey masterKey = Ok tt /\ validateVideoId videoId = Ok tt.
Proof.
  unfold deriveVideoKey.
  destruct (validateMasterKey masterKey) as [[]|]; [|discriminate].
  destruct (validateVideoId videoId) as [[]|]; [|discriminate]. auto.
Qed.

(** With the length-prefixed class for [ChunkDeserializationStream]:
    whatever the non-empty data, the key, the id, the frame size and the
    nonces, when [encryptBuffer] resolves, [decryptBuffer] of its result
    is rejected, at the first frame. *)
Theorem decryptBuffer_rejects_every_encryptBuffer_output (rng : Rng)
    (data masterKey : Buffer.t) (videoId : JsString.t) (chunkSize : option nat)
    (chunks : list Buffer.t) :
  data <> [] ->
  encryptBuffer rng data masterKey videoId chunkSize = Ok chunks ->
  decryptBuffer length_prefixed chunks masterKey videoId
  = Throw (Error "Buffer inválido ou muito pequeno").
Proof.
  intros Hdata H. unfold encryptBuffer in H. unfold decryptBuffer.
  cbn [length_prefixed transform flush construct instance].
  destruct (deriveVideoKey masterKey videoId) as [vk|] eqn:Ek; [|discriminate].
  cbn [bind] in H |- *.
  destruct (settle (run EncryptionStream._transform EncryptionStream._flush _ _))
    as [frames|] eqn:Ef; [|discriminate].
  cbn [bind] in H.
  destruct (first_frame _ _ _ _ _ _ Hdata Ef) as (c & rest & -> & Hi & Hv & Ht).
  destruct (first_serialized _ _ _ H) as (b & rest' & -> & Hb).
  rewrite (deserialization_rejects_index_0 c b rest' Hi Hv Ht Hb). reflexivity.
Qed.

Lemma decryptBuffer_rejects_witness :
  ascii_bytes "A" <> []
  /\ (forall chunks : list Buffer.t,
        encryptBuffer sample_rng (ascii_bytes "A") sample_key sample_id (Some 1024%nat)
        = Ok chunks ->
        decryptBuffer length_prefixed chunks sample_key sample_id
        = Throw (Error "Buffer inválido ou muito pequeno"))
  /\ is_ok (encryptBuffer sample_rng (ascii_bytes "A") sample_key sample_id
              (Some 1024%nat)) = true.
Proof.
  split; [discriminate|]. split.
  - intros chunks.
    apply (decryptBuffer_rejects_every_encryptBuffer_output sample_rng (ascii_bytes "A")
             sample_key sample_id (Some 1024%nat) chunks).
    discriminate.
  - vm_compute. reflexivity.
Defined.

(** ** The whole-write deserialization stream: the round trip it gives *)

(** The bytes [toBuffer] lays out for a chunk. *)
Lemma serialize_all (frames : list EncryptedChunk) :
  Forall (fun c => 0 <= c.(index) <= 4294967295) frames ->
  write_all ChunkSerializationStream._transform tt frames
  = mkOutcome
      (map (fun c => Buffer.be_bytes 4 c.(index) ++ c.(iv) ++ c.(tag) ++ c.(ciphertext))
         frames)
      tt None.
Proof.
  induction 1 as [|c frames Hc _ IH]; [reflexivity|].
  cbn [write_all map]. unfold ChunkSerializationStream._transform at 1.
  rewrite toBuffer_ok by assumption.
  unfold and_then. cbn [failure final pushes]. rewrite IH. reflexivity.
Qed.

Lemma whole_write_one (c : EncryptedChunk) :
  0 <= c.(index) <= 4294967295 ->
  length c.(iv) = 12%nat -> length c.(tag) = 16%nat ->
  (1 <= length c.(ciphertext))%nat ->
  WholeWriteDeserializationStream._transform WholeWriteDeserializationStream.new
    (Buffer.be_bytes 4 c.(index) ++ c.(iv) ++ c.(tag) ++ c.(ciphertext))
  = mkOutcome [c] WholeWriteDeserializationStream.new None.
Proof.
  intros Hi Hv Ht Hc.
  pose proof (fromBuffer_layout c.(index) c.(iv) c.(tag) c.(ciphertext) Hi Hv Ht) as Hparse.
  assert (Hlen : length (Buffer.be_bytes 4 c.(index) ++ c.(iv) ++ c.(tag) ++ c.(ciphertext))
                 = (32 + length c.(ciphertext))%nat).
  { rewrite !length_app, length_be_bytes. lia. }
  revert Hparse Hlen.
  generalize (Buffer.be_bytes 4 c.(index) ++ c.(iv) ++ c.(tag) ++ c.(ciphertext)).
  intros b Hparse Hlen.
  unfold WholeWriteDeserializationStream._transform, WholeWriteDeserializationStream.new.
  cbn [WholeWriteDeserializationStream.buffer WholeWriteDeserializationStream.minChunkSize
         Buffer.concat concat Buffer.alloc repeat app].
  rewrite app_nil_r.
  destruct (length b) as [|fuel] eqn:El; [lia|].
  cbn [WholeWriteDeserializationStream.extract WholeWriteDeserializationStream.buffer
         WholeWriteDeserializationStream.minChunkSize].
  unfold CONFIG.HEADER.TOTAL_SIZE.
  replace (32 + 1 <=? length b)%nat with true by (symmetry; apply Nat.leb_le; lia).
  rewrite Hparse. unfold size, CONFIG.HEADER.TOTAL_SIZE, Buffer.slice_from.
  cbn [ciphertext].
  replace (skipn (32 + length (ciphertext c)) b) with (@nil byte)
    by (symmetry; apply skipn_all2; lia).
  unfold and_then. cbn [failure final pushes].
  destruct fuel as [|fuel]; cbn [WholeWriteDeserializationStream.extract
                                  WholeWriteDeserializationStream.buffer
                                  WholeWriteDeserializationStream.minChunkSize
                                  length Nat.leb Nat.add failure final pushes app];
    destruct c; reflexivity.
Qed.

Lemma whole_write_all (frames : list EncryptedChunk) :
  Forall (fun c => 0 <= c.(index) <= 4294967295
                   /\ length c.(iv) = 12%nat /\ length c.(tag) = 16%nat
                   /\ (1 <= length c.(ciphertext))%nat) frames ->
  write_all WholeWriteDeserializationStream._transform WholeWriteDeserializationStream.new
    (map (fun c => Buffer.be_bytes 4 c.(index) ++ c.(iv) ++ c.(tag) ++ c.(ciphertext))
       frames)
  = mkOutcome frames WholeWriteDeserializationStream.new None.
Proof.
  induction 1 as [|c frames (Hi & Hv & Ht & Hc) _ IH]; [reflexivity|].
  cbn [write_all map]. rewrite whole_write_one by assumption.
  unfold and_then. cbn [failure final pushes]. rewrite IH. reflexivity.
Qed.

Lemma seal_all_shape (key : Buffer.t) (id : JsString.t) (ps : list Buffer.t) :
  forall (rng : Rng) (i : Z),
    0 <= i -> i + Z.of_nat (length ps) <= 4294967296 ->
    Forall (fun p => p <> []) ps ->
    Forall (fun c => 0 <= c.(index) <= 4294967295
                     /\ length c.(iv) = 12%nat /\ length c.(tag) = 16%nat
                     /\ (1 <= length c.(ciphertext))%nat)
      (seal_all rng key id i ps).
Proof.
  induction ps as [|p ps IH]; intros rng i Hi Hn Hp; [constructor|].
  inversion Hp as [|? ? Hp0 Hps]; subst. cbn [seal_all length] in *. constructor.
  - destruct (sealed_chunk_shape rng p key id i) as (-> & -> & -> & ->).
    repeat split; try lia. destruct p; [contradiction | cbn; lia].
  - apply IH; [lia | lia | assumption].
Qed.

Lemma seal_all_decrypts (key : Buffer.t) (id : JsString.t) (ps : list Buffer.t) :
  validateMasterKey key = Ok tt ->
  validateVideoId id = Ok tt ->
  forall (rng : Rng) (i : Z),
    0 <= i -> i + Z.of_nat (length ps) <= 4294967296 ->
    Forall2 (fun c p => decryptChunk c key id = Ok p) (seal_all rng key id i ps) ps.
Proof.
  intros Hk Ho. induction ps as [|p ps IH]; intros rng i Hi Hn; [constructor|].
  cbn [seal_all length] in *. constructor.
  - apply decryptChunk_sealed; try assumption. lia.
  - apply IH; lia.
Qed.

Lemma pieces_nonempty (F : nat) (B : Buffer.t) :
  (1 <= F)%nat -> Forall (fun p => p <> []) (pieces F B (frame_count F (length B))).
Proof.
  intros HF. apply Forall_forall. intros p Hp. unfold pieces in Hp.
  apply in_map_iff in Hp as (k & <- & Hk). apply in_seq in Hk.
  destruct (frame_count_bounds F (length B) HF) as [Hlo Hhi].
  intros E. apply (f_equal (@length byte)) in E. rewrite length_piece in E.
  cbn [length] in E. nia.
Qed.

(** With the whole-write deserialization stream in the place of the
    length-prefixed one the round trip holds: for every data of at most
    four frames, every master key and id whose derived key passes
    [validateMasterKey], and whatever the nonces, [encryptBuffer]
    resolves and decrypting its result gives the data back. *)
Theorem whole_write_round_trip (rng : Rng) (data masterKey : Buffer.t)
    (videoId : JsString.t) (chunkSize : option nat) (videoKey : Buffer.t) :
  deriveVideoKey masterKey videoId = Ok videoKey ->
  validateMasterKey videoKey = Ok tt ->
  let F := EncryptionStream.chunkSize
             (EncryptionStream.new videoKey videoId chunkSize rng) in
  (length data <= 4 * F)%nat ->
  exists chunks : list Buffer.t,
    encryptBuffer rng data masterKey videoId chunkSize = Ok chunks
    /\ length chunks = frame_count F (length data)
    /\ decryptBuffer_whole_write chunks masterKey videoId = Ok data.
Proof.
  intros Hd Hk F Hlen.
  destruct (deriveVideoKey_inv _ _ _ Hd) as [_ Ho].
  assert (HF : (1 <= F)%nat) by apply new_chunkSize_pos.
  set (n := frame_count F (length data)).
  destruct (frame_count_bounds F (length data) HF) as [Hlo Hhi]. fold n in Hlo, Hhi.
  assert (Hn : (n <= 4)%nat) by nia.
  set (frames := seal_all rng videoKey videoId 0 (pieces F data n)).
  assert (Henc : run EncryptionStream._transform EncryptionStream._flush
                   (EncryptionStream.new videoKey videoId chunkSize rng) [data]
                 = mkOutcome frames
                     (EncryptionStream.mk videoKey videoId F [] (Z.of_nat n)
                        (length data) (advance_by n rng))
                     None).
  { rewrite new_unfold. fold F.
    pose proof (run_spec videoKey videoId F Hk Ho HF [data] rng) as R.
    cbn [concat] in R. rewrite app_nil_r in R. fold n in R. apply R. lia. }
  clearbody F.
  assert (Hshape : Forall (fun c => 0 <= c.(index) <= 4294967295
                                    /\ length c.(iv) = 12%nat
                                    /\ length c.(tag) = 16%nat
                                    /\ (1 <= length c.(ciphertext))%nat) frames).
  { apply seal_all_shape; [lia | rewrite length_pieces; lia|].
    apply pieces_nonempty. assumption. }
  assert (Hidx : Forall (fun c => 0 <= c.(index) <= 4294967295) frames).
  { eapply Forall_impl; [|exact Hshape]. cbn beta. intros c (H & _). exact H. }
  assert (Hdec : Forall2 (fun c p => decryptChunk c videoKey videoId = Ok p)
                   frames (pieces F data n)).
  { apply seal_all_decrypts; try assumption; [lia | rewrite length_pieces; lia]. }
  exists (map (fun c => Buffer.be_bytes 4 c.(index) ++ c.(iv) ++ c.(tag) ++ c.(ciphertext))
            frames).
  split; [|split].
  - unfold encryptBuffer. rewrite Hd. cbn [bind]. rewrite Henc.
    unfold settle at 1. cbn [failure pushes bind].
    unfold run. rewrite serialize_all by assumption.
    unfold and_then, ChunkSerializationStream._flush, settle.
    cbn [failure final pushes]. rewrite app_nil_r. reflexivity.
  - rewrite length_map. unfold frames. rewrite length_seal_all. apply length_pieces.
  - unfold decryptBuffer_whole_write, decryptBuffer.
    cbn [whole_write transform flush construct instance]. rewrite Hd. cbn [bind].
    unfold run. rewrite whole_write_all by assumption.
    unfold and_then at 1, WholeWriteDeserializationStream._flush,
      WholeWriteDeserializationStream.new, settle at 1.
    cbn [failure final pushes WholeWriteDeserializationStream.buffer Buffer.alloc repeat
           length Nat.ltb Nat.leb bind].
    rewrite app_nil_r. unfold DecryptionStream.new.
    rewrite (decrypt_run_ok _ _ _ _ _ _ _ Hdec).
    unfold and_then, DecryptionStream._flush, settle.
    cbn [failure final pushes bind]. rewrite app_nil_r.
    unfold Buffer.concat. rewrite concat_pieces by assumption. reflexivity.
Qed.

Lemma whole_write_round_trip_witness :
  deriveVideoKey sample_key sample_id
  = Ok (hex_bytes "41927a8e991f11e560824b2678c90ba2acb76a4e2fc8f2ea7bfc17bf72f99087")
  /\ exists chunks : list Buffer.t,
       encryptBuffer sample_rng (ascii_bytes "Hello, World!") sample_key sample_id
         (Some 4%nat) = Ok chunks
       /\ length chunks
          = frame_count
              (EncryptionStream.chunkSize
                 (EncryptionStream.new
                    (hex_bytes "41927a8e991f11e560824b2678c90ba2acb76a4e2fc8f2ea7bfc17bf72f99087")
                    sample_id (Some 4%nat) sample_rng))
              (length (ascii_bytes "Hello, World!"))
       /\ decryptBuffer_whole_write chunks sample_key sample_id
          = Ok (ascii_bytes "Hello, World!").
Proof.
  split; [vm_compute; reflexivity|].
  apply (whole_write_round_trip sample_rng (ascii_bytes "Hello, World!") sample_key
           sample_id (Some 4%nat)
           (hex_bytes "41927a8e991f11e560824b2678c90ba2acb76a4e2fc8f2ea7bfc17bf72f99087")).
  - vm_compute. reflexivity.
  - vm_compute. reflexivity.
  - vm_compute. lia.
Defined.

(** ** What [importMasterKey] accepts *)

Lemma list_pairs_ind {A : Type} (P : list A -> Prop) :
  P [] -> (forall a, P [a]) -> (forall a b l, P l -> P (a :: b :: l)) ->
  forall l, P l.
Proof.
  intros H0 H1 H2.
  assert (H : forall l, P l /\ forall a, P (a :: l)).
  { induction l as [|b l [IHl IHa]]; split; auto. }
  intros l. apply H.
Qed.

Lemma length_Buffer_from_hex (s : JsString.t) :
  forallb (fun u => match hex_value u with Some _ => true | None => false end) s = true ->
  length (Buffer_from_hex s) = (length s / 2)%nat.
Proof.
  induction s as [| a | a b s IH] using list_pairs_ind; intros H.
  - reflexivity.
  - reflexivity.
  - cbn [forallb] in H. apply andb_prop in H as [Ha H]. apply andb_prop in H as [Hb H].
    cbn [Buffer_from_hex].
    destruct (hex_value a); [|discriminate]. destruct (hex_value b); [|discriminate].
    cbn [length]. rewrite IH by assumption.
    change (S (S (length s))) with (1 * 2 + length s)%nat.
    rewrite Nat.div_add_l by lia. reflexivity.
Qed.

Lemma importMasterKey_ok_iff (hexKey : JsString.t) (key : Buffer.t) :
  importMasterKey hexKey = Ok key
  <-> hex_pattern hexKey = true
      /\ key = Buffer_from_hex hexKey
      /\ validateMasterKey key = Ok tt.
Proof.
  unfold importMasterKey. split.
  - destruct (length hexKey =? 0)%nat; [discriminate|].
    destruct (hex_pattern hexKey); [|discriminate]. cbn [negb].
    destruct (validateMasterKey (Buffer_from_hex hexKey)) as [[]|] eqn:E;
      [|discriminate].
    cbn [bind]. intros H. injection H as <-. auto.
  - intros (Hp & -> & Hv). destruct (length hexKey =? 0)%nat eqn:E0.
    + unfold hex_pattern in Hp. rewrite E0 in Hp. discriminate.
    + rewrite Hp, Hv. reflexivity.
Qed.

(** [importMasterKey] returns a key exactly when the string is made of
    hexadecimal digits only and the bytes decoded from its pairs of
    digits pass [validateMasterKey]; a string with another character and
    a string whose decoded bytes fail the length or entropy checks are
    refused; an accepted string has 64 or 65 characters, so of the
    odd-length strings only those of 65 characters can be accepted. *)
Theorem importMasterKey_accepts (hexKey : JsString.t) (key : Buffer.t) :
  (importMasterKey hexKey = Ok key
   <-> hex_pattern hexKey = true
       /\ key = Buffer_from_hex hexKey
       /\ validateMasterKey key = Ok tt)
  /\ (importMasterKey hexKey = Ok key ->
      length hexKey = 64%nat \/ length hexKey = 65%nat)
  /\ (hex_pattern hexKey = false -> is_ok (importMasterKey hexKey) = false)
  /\ (is_ok (validateMasterKey (Buffer_from_hex hexKey)) = false ->
      is_ok (importMasterKey hexKey) = false).
Proof.
  pose proof (importMasterKey_ok_iff hexKey key) as Hiff.
  split; [exact Hiff|]. split; [|split].
  - intros H. apply Hiff in H as (Hp & -> & Hv).
    apply validateMasterKey_ok in Hv as (Hlen & _).
    unfold hex_pattern in Hp. apply andb_prop in Hp as [_ Hp].
    rewrite length_Buffer_from_hex in Hlen by assumption.
    pose proof (Nat.div_mod_eq (length hexKey) 2).
    pose proof (Nat.mod_upper_bound (length hexKey) 2 ltac:(lia)). lia.
  - intros Hp. unfold importMasterKey. rewrite Hp.
    destruct (length hexKey =? 0)%nat; reflexivity.
  - intros Hv. unfold importMasterKey.
    destruct (length hexKey =? 0)%nat; [reflexivity|].
    destruct (hex_pattern hexKey); [|reflexivity]. cbn [negb].
    destruct (validateMasterKey (Buffer_from_hex hexKey)); [discriminate | reflexivity].
Qed.

Lemma Buffer_from_hex_to_hex (key : Buffer.t) :
  Buffer_from_hex (JsString.of_string (Buffer.to_hex key)) = key.
Proof.
  induction key as [|x key IH]; [reflexivity|].
  cbn [Buffer.to_hex JsString.of_string Buffer_from_hex].
  rewrite IH. destruct x; reflexivity.
Qed.

Lemma hex_pattern_to_hex (key : Buffer.t) :
  key <> [] -> hex_pattern (JsString.of_string (Buffer.to_hex key)) = true.
Proof.
  intros Hne. unfold hex_pattern. apply andb_true_intro. split.
  - destruct key as [|x key]; [contradiction | reflexivity].
  - clear Hne. induction key as [|x key IH]; [reflexivity|].
    cbn [Buffer.to_hex JsString.of_string forallb]. rewrite IH.
    destruct x; reflexivity.
Qed.

Lemma length_to_hex (key : Buffer.t) :
  length (JsString.of_string (Buffer.to_hex key)) = (2 * length key)%nat.
Proof.
  induction key as [|x key IH]; [reflexivity|].
  cbn [Buffer.to_hex JsString.of_string length]. rewrite IH. lia.
Qed.

(** The digits of [toString('hex')] are the digits 0 to 9 and the
    lower-case letters a to f. *)
Lemma to_hex_lower_case (key : Buffer.t) :
  Forall (fun u => 48 <= u <= 57 \/ 97 <= u <= 102)
    (JsString.of_string (Buffer.to_hex key)).
Proof.
  induction key as [|x key IH]; [constructor|].
  cbn [Buffer.to_hex JsString.of_string].
  constructor; [destruct x; vm_compute; intuition congruence|].
  constructor; [destruct x; vm_compute; intuition congruence | exact IH].
Qed.

(** For a valid master key, [exportMasterKey] gives 64 hexadecimal
    digits, the letters among them in lower case, and [importMasterKey]
    of them gives the key back. *)
Theorem export_then_import (masterKey : Buffer.t) :
  validateMasterKey masterKey = Ok tt ->
  exists hexKey : JsString.t,
    exportMasterKey masterKey = Ok hexKey
    /\ length hexKey = 64%nat
    /\ Forall (fun u => 48 <= u <= 57 \/ 97 <= u <= 102) hexKey
    /\ importMasterKey hexKey = Ok masterKey.
Proof.
  intros Hv. exists (JsString.of_string (Buffer.to_hex masterKey)).
  assert (Hne : masterKey <> []).
  { intros ->. discriminate. }
  assert (Hp := hex_pattern_to_hex masterKey Hne).
  split; [|split; [|split]].
  - unfold exportMasterKey. rewrite Hv. reflexivity.
  - apply validateMasterKey_ok in Hv as (Hlen & _).
    rewrite length_to_hex, Hlen. reflexivity.
  - apply to_hex_lower_case.
  - apply importMasterKey_ok_iff. rewrite Buffer_from_hex_to_hex. auto.
Qed.

(** ** The loops stop by their own condition

    The three [while] loops are written with a bound on the number of
    turns, the length of the buffer; each turn that continues removes at
    least one byte, so the bound is never what stops them. *)

Lemma drain_stops_by_condition (fuel : nat) :
  forall this : EncryptionStream.t,
    (1 <= this.(EncryptionStream.chunkSize))%nat ->
    (length this.(EncryptionStream.buffer) <= fuel)%nat ->
    (EncryptionStream.drain fuel this).(failure) = None ->
    let this' := (EncryptionStream.drain fuel this).(final) in
    this'.(EncryptionStream.chunkSize) = this.(EncryptionStream.chunkSize)
    /\ (length this'.(EncryptionStream.buffer) < this'.(EncryptionStream.chunkSize))%nat.
Proof.
  induction fuel as [|fuel IH]; intros this HF Hfuel Hok; cbn zeta.
  - cbn [EncryptionStream.drain final]. split; [reflexivity | lia].
  - cbn [EncryptionStream.drain] in Hok |- *.
    destruct (EncryptionStream.chunkSize this <=? length (EncryptionStream.buffer this))%nat
      eqn:E.
    + apply Nat.leb_le in E.
      destruct (encryptChunk _ _ _ _ _) as [[c rng']|e]; [|discriminate].
      unfold and_then in Hok |- *. cbn [failure final pushes] in Hok |- *.
      match goal with
      | |- context [EncryptionStream.drain fuel ?s] =>
          specialize (IH s); cbn zeta in IH;
          cbn [EncryptionStream.chunkSize EncryptionStream.buffer] in IH
      end.
      unfold Buffer.slice_from in IH. rewrite length_skipn in IH.
      destruct IH as [IH1 IH2]; [assumption | lia | exact Hok |].
      split; assumption.
    + apply Nat.leb_gt in E. cbn [final]. split; [reflexivity | assumption].
Qed.

Lemma extract_stops_by_condition (fuel : nat) :
  forall buf : Buffer.t,
    (length buf <= fuel)%nat ->
    (ChunkDeserializationStream.extract fuel (ChunkDeserializationStream.mk buf)).(failure)
    = None ->
    let buf' :=
      ChunkDeserializationStream.buffer
        (ChunkDeserializationStream.extract fuel (ChunkDeserializationStream.mk buf)).(final)
    in
    (length buf' < 4)%nat
    \/ Z.of_nat (length buf') < 4 + Buffer.be_value (firstn 4 buf').
Proof.
  induction fuel as [|fuel IH]; intros buf Hfuel Hok; cbn zeta.
  - cbn [ChunkDeserializationStream.extract final ChunkDeserializationStream.buffer].
    left. lia.
  - destruct (Nat.lt_ge_cases (length buf) 4) as [Hlt|Hge].
    + cbn [ChunkDeserializationStream.extract ChunkDeserializationStream.buffer].
      replace (4 <=? length buf)%nat with false by (symmetry; apply Nat.leb_gt; lia).
      cbn [final ChunkDeserializationStream.buffer]. left. assumption.
    + pose proof (extract_unfold buf fuel Hge) as U. cbn zeta in U.
      rewrite U in Hok |- *. clear U.
      assert (Hr : 0 <= Buffer.be_value (firstn 4 buf) <= 4294967295)
        by (apply be_value_range_4; rewrite length_firstn; lia).
      destruct (Z.of_nat (length buf) <? 4 + Buffer.be_value (firstn 4 buf)) eqn:E.
      * cbn [final ChunkDeserializationStream.buffer]. right. lia.
      * destruct (fromBuffer _) as [c|e]; [|discriminate].
        unfold and_then in Hok |- *. cbn [failure final pushes] in Hok |- *.
        apply IH; [rewrite length_skipn; lia | exact Hok].
Qed.

Lemma whole_write_extract_stops_by_condition (fuel : nat) :
  forall (buf : Buffer.t) (m : nat),
    (32 <= m)%nat ->
    (length buf <= fuel)%nat ->
    let this' :=
      (WholeWriteDeserializationStream.extract fuel
         (WholeWriteDeserializationStream.mk buf m)).(final) in
    (WholeWriteDeserializationStream.extract fuel
       (WholeWriteDeserializationStream.mk buf m)).(failure) = None
    /\ (length this'.(WholeWriteDeserializationStream.buffer) < m)%nat.
Proof.
  induction fuel as [|fuel IH]; intros buf m Hm Hfuel; cbn zeta.
  - cbn [WholeWriteDeserializationStream.extract final failure
           WholeWriteDeserializationStream.buffer].
    split; [reflexivity | lia].
  - cbn [WholeWriteDeserializationStream.extract WholeWriteDeserializationStream.buffer
           WholeWriteDeserializationStream.minChunkSize].
    destruct (m <=? length buf)%nat eqn:E.
    + apply Nat.leb_le in E. rewrite fromBuffer_parts by lia.
      unfold and_then. cbn [failure final pushes].
      unfold size, CONFIG.HEADER.TOTAL_SIZE, Buffer.slice_from. cbn [ciphertext].
      apply IH; [assumption|]. rewrite !length_skipn. lia.
    + apply Nat.leb_gt in E.
      cbn [final failure WholeWriteDeserializationStream.buffer].
      split; [reflexivity | assumption].
Qed.

(** ** One chunk: decrypting what was encrypted *)

(** For a non-empty plaintext, a valid key and id and an index up to
    100000, [encryptChunk] returns a chunk with that index, a 12-byte
    iv, a 16-byte tag and a ciphertext as long as the plaintext, and
    [decryptChunk] of that chunk returns the plaintext. *)
Theorem decryptChunk_of_encryptChunk (rng : Rng) (plaintext videoKey : Buffer.t)
    (videoId : JsString.t) (chunkIndex : Z) :
  plaintext <> [] ->
  validateMasterKey videoKey = Ok tt ->
  validateVideoId videoId = Ok tt ->
  0 <= chunkIndex <= 100000 ->
  exists (c : EncryptedChunk) (rng' : Rng),
    encryptChunk rng plaintext videoKey videoId chunkIndex = Ok (c, rng')
    /\ c.(index) = chunkIndex
    /\ length c.(iv) = 12%nat
    /\ length c.(tag) = 16%nat
    /\ length c.(ciphertext) = length plaintext
    /\ decryptChunk c videoKey videoId = Ok plaintext.
Proof.
  intros Hp Hk Ho Hi. eexists _, _. split; [apply encryptChunk_ok; assumption|].
  destruct (sealed_chunk_shape rng plaintext videoKey videoId chunkIndex)
    as (H1 & H2 & H3 & H4).
  repeat split; try assumption.
  apply decryptChunk_sealed; try assumption. lia.
Qed.

Lemma decryptChunk_of_encryptChunk_witness :
  exists (c : EncryptedChunk) (rng' : Rng),
    encryptChunk sample_rng (ascii_bytes "Hello, World!") sample_key sample_id 0
    = Ok (c, rng')
    /\ c.(index) = 0
    /\ length c.(iv) = 12%nat
    /\ length c.(tag) = 16%nat
    /\ length c.(ciphertext) = length (ascii_bytes "Hello, World!")
    /\ decryptChunk c sample_key sample_id = Ok (ascii_bytes "Hello, World!").
Proof.
  apply (decryptChunk_of_encryptChunk sample_rng (ascii_bytes "Hello, World!")
           sample_key sample_id 0).
  - discriminate.
  - reflexivity.
  - reflexivity.
  - lia.
Defined.

Lemma export_then_import_witness :
  validateMasterKey sample_key = Ok tt
  /\ exists hexKey : JsString.t,
       exportMasterKey sample_key = Ok hexKey
       /\ length hexKey = 64%nat
       /\ Forall (fun u => 48 <= u <= 57 \/ 97 <= u <= 102) hexKey
       /\ importMasterKey hexKey = Ok sample_key.
Proof.
  split; [reflexivity|]. apply (export_then_import sample_key). reflexivity.
Defined.

(** A chunk sealed for index 0 whose index field is then set to 1, and a
    chunk sealed for one video id opened under another: both are refused
    by [decryptChunk] with the authentication error. *)
Example tampered_index_and_wrong_id_are_refused :
  let c := sealed_chunk sample_rng (ascii_bytes "Hello, World!") sample_key sample_id 0 in
  decryptChunk (mkEncryptedChunk 1 c.(iv) c.(tag) c.(ciphertext)) sample_key sample_id
  = Throw (Error "Falha na autenticação do chunk 1: Unsupported state or unable to authenticate data")
  /\ decryptChunk c sample_key (JsString.of_string "video-2")
     = Throw (Error "Falha na autenticação do chunk 0: Unsupported state or unable to authenticate data").
Proof. split; vm_compute; reflexivity. Qed.

(** * Further properties *)

(** ** Strings *)

Lemma JsString_eqb_eq (s t : JsString.t) : StringPrototype.eqb s t = true <-> s = t.
Proof.
  revert t. induction s as [|u s IH]; intros [|v t]; cbn [StringPrototype.eqb];
    try (split; [discriminate | congruence]); try tauto.
  rewrite andb_true_iff, Z.eqb_eq, IH. split; [intros [-> ->]; reflexivity|].
  intros E. injection E as -> ->. auto.
Qed.

Lemma JsString_eqb_refl (s : JsString.t) : StringPrototype.eqb s s = true.
Proof. apply JsString_eqb_eq. reflexivity. Qed.

Lemma JsString_eqb_neq (s t : JsString.t) : StringPrototype.eqb s t = false <-> s <> t.
Proof.
  destruct (StringPrototype.eqb s t) eqn:E.
  - apply JsString_eqb_eq in E. split; [discriminate | contradiction].
  - split; [|reflexivity]. intros _ H. apply JsString_eqb_eq in H. congruence.
Qed.

Lemma startsWith_iff (pat s : JsString.t) :
  StringPrototype.startsWith s pat = true <-> exists b, s = pat ++ b.
Proof.
  revert s. induction pat as [|p pat IH]; intros s; cbn [StringPrototype.startsWith].
  - split; [intros _; exists s; reflexivity | reflexivity].
  - destruct s as [|u s].
    + split; [discriminate | intros [b Hb]; discriminate].
    + rewrite andb_true_iff, Z.eqb_eq, IH. split.
      * intros [-> [b ->]]. exists b. reflexivity.
      * intros [b Hb]. injection Hb as -> ->. split; [reflexivity | exists b; reflexivity].
Qed.

Lemma includes_iff (s pat : JsString.t) :
  StringPrototype.includes s pat = true <-> exists a b, s = a ++ pat ++ b.
Proof.
  induction s as [|u s IH]; cbn [StringPrototype.includes];
    rewrite orb_true_iff, startsWith_iff.
  - split.
    + intros [[b Hb]|H]; [exists [], b; exact Hb | discriminate].
    + intros (a & b & H). left. destruct a; [exists b; exact H | discriminate].
  - rewrite IH. split.
    + intros [[b Hb]|(a & b & ->)]; [exists [], b; exact Hb | exists (u :: a), b; reflexivity].
    + intros (a & b & H). destruct a as [|v a].
      * left. exists b. exact H.
      * right. injection H as -> ->. exists a, b. reflexivity.
Qed.

(** ** src/utils/security.js: the other checks *)

Lemma lor_fold_zero (f : nat -> Z) (l : list nat) (r : Z) :
  fold_left (fun result i => Z.lor result (f i)) l r = 0
  <-> r = 0 /\ forall i, In i l -> f i = 0.
Proof.
  revert r. induction l as [|j l IH]; intros r; cbn [fold_left].
  - split; [intros ->; split; [reflexivity | intros i []] | intros [-> _]; reflexivity].
  - rewrite IH, Z.lor_eq_0_iff. split.
    + intros [[-> Hj] H]. split; [reflexivity|]. intros i [<-|Hi]; auto.
    + intros [-> H]. split; [split; [reflexivity|] |]; intros; apply H; cbn; auto.
Qed.

Lemma Z_of_byte_inj (x y : byte) : Buffer.Z_of_byte x = Buffer.Z_of_byte y -> x = y.
Proof.
  intros H. rewrite <- (byte_of_Z_of_byte x), <- (byte_of_Z_of_byte y), H. reflexivity.
Qed.

(** [constantTimeCompare] is equality of Buffers: it answers [true]
    exactly when the two have the same bytes. *)
Theorem constantTimeCompare_is_equality (a b : Buffer.t) :
  constantTimeCompare a b = true <-> a = b.
Proof.
  unfold constantTimeCompare. destruct (length a =? length b)%nat eqn:El; cbn [negb].
  - apply Nat.eqb_eq in El. rewrite Z.eqb_eq, lor_fold_zero. split.
    + intros [_ H]. apply (nth_ext a b x00 x00 El). intros i Hi.
      apply Z_of_byte_inj, Z.lxor_eq_0_iff, H, in_seq. lia.
    + intros ->. split; [reflexivity|]. intros i _. apply Z.lxor_nilpotent.
  - apply Nat.eqb_neq in El. split; [discriminate | intros ->; contradiction].
Qed.

Lemma filter_video_id_char (s : JsString.t) :
  forallb SECURITY_LIMITS.video_id_char s = true ->
  filter SECURITY_LIMITS.video_id_char s = s.
Proof.
  induction s as [|u s IH]; [reflexivity|]. cbn [forallb filter].
  intros H. apply andb_prop in H as [-> H]. rewrite IH by assumption. reflexivity.
Qed.

(** [sanitizeVideoId] keeps, in order, the characters of the class
    [[a-zA-Z0-9\-_:.]] and nothing else: it works character by
    character, a character of the class giving itself and any other
    nothing, and the results follow each other as the characters do.  A
    valid id is left as it is, sanitizing twice changes nothing more,
    and the result is a valid id exactly when it has between 1 and 255
    characters. *)
Theorem sanitizeVideoId_result (videoId : JsString.t) :
  let r := sanitizeVideoId videoId in
  (forall u : Z,
     sanitizeVideoId [u] = if SECURITY_LIMITS.video_id_char u then [u] else [])
  /\ (forall a b : JsString.t,
        sanitizeVideoId (a ++ b) = sanitizeVideoId a ++ sanitizeVideoId b)
  /\ forallb SECURITY_LIMITS.video_id_char r = true
  /\ (forall u : Z, In u r <-> In u videoId /\ SECURITY_LIMITS.video_id_char u = true)
  /\ (length r <= length videoId)%nat
  /\ sanitizeVideoId r = r
  /\ (validateVideoId videoId = Ok tt -> r = videoId)
  /\ (validateVideoId r = Ok tt <-> (1 <= length r <= 255)%nat).
Proof.
  intros r. subst r. unfold sanitizeVideoId.
  split; [intros u; reflexivity|].
  split; [intros a b; apply filter_app|].
  assert (Hall : forallb SECURITY_LIMITS.video_id_char
                   (filter SECURITY_LIMITS.video_id_char videoId) = true).
  { apply forallb_forall. intros u Hu. apply filter_In in Hu. tauto. }
  split; [exact Hall|]. split; [intros u; apply filter_In|].
  split; [apply filter_length_le|].
  split; [apply filter_video_id_char, Hall|]. split.
  - intros H. apply validateVideoId_ok in H as [_ H]. apply filter_video_id_char, H.
  - rewrite validateVideoId_ok. tauto.
Qed.

(** [validateFilePath] accepts exactly the paths of 1 to 4096 characters
    in which no two dots follow each other; a path in which they do is
    refused with the SecurityError PATH_TRAVERSAL, whatever its length,
    and the other refusals are ValidationErrors. *)
Theorem validateFilePath_accepts (filePath : JsString.t) (fieldName : string) :
  (validateFilePath filePath fieldName = Ok tt
   <-> (1 <= length filePath <= 4096)%nat
       /\ ~ exists a b, filePath = a ++ JsString.of_string ".." ++ b)
  /\ (validateFilePath filePath fieldName
      = Throw (SecurityError "Path traversal detectado" "PATH_TRAVERSAL")
      <-> exists a b, filePath = a ++ JsString.of_string ".." ++ b)
  /\ (is_ok (validateFilePath filePath fieldName) = false ->
      is_SecurityError (validateFilePath filePath fieldName) = false ->
      is_ValidationError (validateFilePath filePath fieldName) = true).
Proof.
  unfold validateFilePath. rewrite <- includes_iff.
  destruct (length filePath =? 0)%nat eqn:E0.
  - apply Nat.eqb_eq in E0. destruct filePath; [|discriminate].
    split; [|split].
    + split; [discriminate | cbn; lia].
    + split; [discriminate | discriminate].
    + reflexivity.
  - apply Nat.eqb_neq in E0.
    destruct (StringPrototype.includes filePath (JsString.of_string "..")) eqn:Ei.
    + split; [|split].
      * split; [discriminate | intros [_ H]; contradiction].
      * tauto.
      * discriminate.
    + destruct (4096 <? length filePath)%nat eqn:El.
      * apply Nat.ltb_lt in El. split; [|split].
        -- split; [discriminate | lia].
        -- split; discriminate.
        -- reflexivity.
      * apply Nat.ltb_ge in El. split; [|split].
        -- split; [intros _; split; [lia | discriminate] | reflexivity].
        -- split; discriminate.
        -- discriminate.
Qed.

(** ** src/utils/security.js: RateLimiter *)

Lemma Map_get_set_same (m : RateLimiter.Map) (k : JsString.t) (v : RateLimiter.requestData) :
  RateLimiter.Map_get (RateLimiter.Map_set m k v) k = Some v.
Proof.
  induction m as [|[k' d] m IH]; cbn [RateLimiter.Map_set RateLimiter.Map_get].
  - rewrite JsString_eqb_refl. reflexivity.
  - destruct (StringPrototype.eqb k' k) eqn:E; cbn [RateLimiter.Map_get]; rewrite E;
      [reflexivity | exact IH].
Qed.

Lemma Map_get_set_other (m : RateLimiter.Map) (k k' : JsString.t)
    (v : RateLimiter.requestData) :
  k <> k' ->
  RateLimiter.Map_get (RateLimiter.Map_set m k v) k' = RateLimiter.Map_get m k'.
Proof.
  intros Hne. induction m as [|[k0 d] m IH]; cbn [RateLimiter.Map_set RateLimiter.Map_get].
  - apply JsString_eqb_neq in Hne. rewrite Hne. reflexivity.
  - destruct (StringPrototype.eqb k0 k) eqn:E; cbn [RateLimiter.Map_get].
    + apply JsString_eqb_eq in E. subst k0.
      apply JsString_eqb_neq in Hne. rewrite Hne. reflexivity.
    + rewrite IH. reflexivity.
Qed.

Lemma Map_get_delete_same (m : RateLimiter.Map) (k : JsString.t) :
  RateLimiter.Map_get (RateLimiter.Map_delete m k) k = None.
Proof.
  unfold RateLimiter.Map_delete.
  induction m as [|[k0 d] m IH]; [reflexivity|]. cbn [filter fst].
  destruct (StringPrototype.eqb k0 k) eqn:E; cbn [negb]; [exact IH|].
  cbn [RateLimiter.Map_get]. rewrite E. exact IH.
Qed.

Lemma Map_get_delete_other (m : RateLimiter.Map) (k k' : JsString.t) :
  k <> k' ->
  RateLimiter.Map_get (RateLimiter.Map_delete m k) k' = RateLimiter.Map_get m k'.
Proof.
  intros Hne. unfold RateLimiter.Map_delete.
  induction m as [|[k0 d] m IH]; [reflexivity|]. cbn [filter fst].
  destruct (StringPrototype.eqb k0 k) eqn:E; cbn [negb RateLimiter.Map_get].
  - apply JsString_eqb_eq in E. subst k0. apply JsString_eqb_neq in Hne.
    rewrite Hne. exact IH.
  - rewrite IH. reflexivity.
Qed.

(** A request of another key leaves the entry of a key as it is. *)
Lemma check_other (this : RateLimiter.t) (now : Z) (k key : JsString.t) :
  k <> key ->
  RateLimiter.Map_get (RateLimiter.requests (snd (RateLimiter.check this now k))) key
  = RateLimiter.Map_get (RateLimiter.requests this) key
  /\ RateLimiter.maxRequests (snd (RateLimiter.check this now k))
     = RateLimiter.maxRequests this
  /\ RateLimiter.windowMs (snd (RateLimiter.check this now k))
     = RateLimiter.windowMs this.
Proof.
  intros Hne. unfold RateLimiter.check.
  destruct (RateLimiter.Map_get (RateLimiter.requests this) k) as [d|].
  - destruct (RateLimiter.resetAt d <? now);
      [cbn; rewrite Map_get_set_other by assumption; auto|].
    destruct (RateLimiter.maxRequests this <=? RateLimiter.count d);
      cbn; [auto | rewrite Map_get_set_other by assumption; auto].
  - cbn. rewrite Map_get_set_other by assumption. auto.
Qed.

(** Inside a window: with an entry of count [c] that is not expired at
    any of the times to come, the next requests of the key are allowed
    while the count is below [maxRequests]. *)
Lemma answers_in_window (key : JsString.t) (reqs : list (Z * JsString.t)) :
  forall (this : RateLimiter.t) (c r : Z),
    RateLimiter.Map_get (RateLimiter.requests this) key = Some (RateLimiter.mkData c r) ->
    Forall (fun t => t <= r) (times_of key reqs) ->
    answers_to key this reqs
    = map (fun j => c + Z.of_nat j <? RateLimiter.maxRequests this)
        (seq 0 (length (times_of key reqs))).
Proof.
  induction reqs as [|[now k] reqs IH]; intros this c r Hget Hall; [reflexivity|].
  cbn [answers_to]. unfold times_of in *. cbn [filter snd] in *.
  destruct (StringPrototype.eqb k key) eqn:E.
  - apply JsString_eqb_eq in E. subst k. cbn [map fst length seq] in *.
    apply Forall_cons_iff in Hall as [Hnow Hall]. cbn [fst] in Hnow.
    unfold RateLimiter.check. rewrite Hget. cbn [RateLimiter.resetAt RateLimiter.count].
    replace (r <? now) with false by lia.
    destruct (RateLimiter.maxRequests this <=? c) eqn:Em.
    + apply Z.leb_le in Em. cbn [fst snd]. rewrite (IH this c r Hget Hall).
      replace (c + Z.of_nat 0 <? RateLimiter.maxRequests this) with false
        by (symmetry; apply Z.ltb_ge; lia).
      f_equal. rewrite <- seq_shift, map_map. apply map_ext_in. intros j _.
      transitivity false; [apply Z.ltb_ge | symmetry; apply Z.ltb_ge]; lia.
    + apply Z.leb_gt in Em. cbn [fst snd].
      rewrite (IH _ (c + 1) r); [| cbn; apply Map_get_set_same | exact Hall].
      cbn [RateLimiter.maxRequests].
      replace (c + Z.of_nat 0 <? RateLimiter.maxRequests this) with true
        by (symmetry; apply Z.ltb_lt; lia).
      f_equal. rewrite <- seq_shift, map_map. apply map_ext. intros j.
      replace (c + 1 + Z.of_nat j) with (c + Z.of_nat (S j)) by lia. reflexivity.
  - apply JsString_eqb_neq in E.
    destruct (check_other this now k key E) as (Hg & Hm & _).
    rewrite (IH _ c r); [| rewrite Hg; exact Hget | exact Hall].
    rewrite Hm. reflexivity.
Qed.

(** A window of the rate limiter.  Take any sequence of requests, of
    any keys, and one key that has no entry, or an expired one, when its
    first request arrives at time [t0]; if the later requests of the key
    arrive no later than [t0 + windowMs], then its first request is
    allowed and its request number [n >= 2] is allowed exactly when
    [n <= maxRequests].  With [maxRequests <= 1] the window still lets
    one request through. *)
Theorem RateLimiter_window (this : RateLimiter.t) (key : JsString.t)
    (reqs : list (Z * JsString.t)) (t0 : Z) (later : list Z) :
  times_of key reqs = t0 :: later ->
  match RateLimiter.Map_get (RateLimiter.requests this) key with
  | None => True
  | Some d => RateLimiter.resetAt d < t0
  end ->
  Forall (fun t => t <= t0 + RateLimiter.windowMs this) later ->
  answers_to key this reqs
  = true :: map (fun j => Z.of_nat j + 2 <=? RateLimiter.maxRequests this)
              (seq 0 (length later)).
Proof.
  revert this. induction reqs as [|[now k] reqs IH]; intros this Ht Hget Hall;
    [discriminate|].
  cbn [answers_to]. unfold times_of in Ht. cbn [filter snd] in Ht.
  destruct (StringPrototype.eqb k key) eqn:E.
  - apply JsString_eqb_eq in E. subst k. cbn [map fst] in Ht.
    injection Ht as -> Ht. fold (times_of key reqs) in Ht.
    assert (Hc : RateLimiter.check this t0 key
                 = (true,
                    RateLimiter.mk (RateLimiter.maxRequests this) (RateLimiter.windowMs this)
                      (RateLimiter.Map_set (RateLimiter.requests this) key
                         (RateLimiter.mkData 1 (t0 + RateLimiter.windowMs this))))).
    { unfold RateLimiter.check.
      destruct (RateLimiter.Map_get (RateLimiter.requests this) key) as [d|];
        [|reflexivity].
      replace (RateLimiter.resetAt d <? t0) with true by lia. reflexivity. }
    rewrite Hc. cbn [fst snd]. f_equal.
    rewrite (answers_in_window key reqs _ 1 (t0 + RateLimiter.windowMs this));
      [| cbn; apply Map_get_set_same | rewrite Ht; exact Hall].
    rewrite Ht. cbn [RateLimiter.maxRequests]. apply map_ext. intros j. 
    destruct (Z.of_nat j + 2 <=? RateLimiter.maxRequests this) eqn:E; lia.
  - apply JsString_eqb_neq in E. fold (times_of key reqs) in Ht.
    destruct (check_other this now k key E) as (Hg & Hm & Hw).
    rewrite (IH _ Ht); [rewrite Hm; reflexivity | rewrite Hg; exact Hget |
                        rewrite Hw; exact Hall].
Qed.

Lemma Map_get_In (m : RateLimiter.Map) (k : JsString.t) (d : RateLimiter.requestData) :
  RateLimiter.Map_get m k = Some d -> In k (map fst m).
Proof.
  induction m as [|[k0 d0] m IH]; [discriminate|]. cbn [RateLimiter.Map_get map fst].
  destruct (StringPrototype.eqb k0 k) eqn:E.
  - apply JsString_eqb_eq in E. intros _. left. exact E.
  - intros H. right. apply IH, H.
Qed.

Lemma Map_get_filter (p : RateLimiter.requestData -> bool) (m : RateLimiter.Map)
    (k : JsString.t) :
  NoDup (map fst m) ->
  RateLimiter.Map_get (filter (fun e => p (snd e)) m) k
  = match RateLimiter.Map_get m k with
    | Some d => if p d then Some d else None
    | None => None
    end.
Proof.
  induction m as [|[k0 d0] m IH]; intros Hnd; [reflexivity|].
  cbn [map fst] in Hnd. apply NoDup_cons_iff in Hnd as [Hnotin Hnd].
  cbn [filter snd RateLimiter.Map_get].
  destruct (StringPrototype.eqb k0 k) eqn:E.
  - apply JsString_eqb_eq in E. subst k0.
    destruct (p d0); cbn [RateLimiter.Map_get].
    + rewrite JsString_eqb_refl. reflexivity.
    + rewrite (IH Hnd).
      destruct (RateLimiter.Map_get m k) as [d|] eqn:Eg; [|reflexivity].
      exfalso. apply Hnotin. eapply Map_get_In, Eg.
  - destruct (p d0); cbn [RateLimiter.Map_get]; [rewrite E|]; apply (IH Hnd).
Qed.

Lemma cleanup_alike (this : RateLimiter.t) (t : Z) :
  NoDup (map fst (RateLimiter.requests this)) ->
  alike_from t (RateLimiter.cleanup this t) this.
Proof.
  intros Hnd. split; [reflexivity|]. split; [reflexivity|]. intros k.
  unfold RateLimiter.cleanup. cbn [RateLimiter.requests].
  rewrite (Map_get_filter (fun d => negb (RateLimiter.resetAt d <? t)) _ _ Hnd).
  destruct (RateLimiter.Map_get (RateLimiter.requests this) k) as [d|]; [|left; reflexivity].
  destruct (RateLimiter.resetAt d <? t) eqn:E; cbn [negb]; [|left; reflexivity].
  right. split; [reflexivity|]. exists d. split; [reflexivity | lia].
Qed.

Lemma check_alike (t now : Z) (key : JsString.t) (s1 s2 : RateLimiter.t) :
  t <= now -> alike_from t s1 s2 ->
  fst (RateLimiter.check s1 now key) = fst (RateLimiter.check s2 now key)
  /\ alike_from t (snd (RateLimiter.check s1 now key)) (snd (RateLimiter.check s2 now key)).
Proof.
  intros Ht (Hm & Hw & Hk). destruct s1 as [M W R1], s2 as [M2 W2 R2].
  cbn [RateLimiter.maxRequests RateLimiter.windowMs RateLimiter.requests] in Hm, Hw, Hk.
  subst M2 W2. unfold RateLimiter.check.
  cbn [RateLimiter.maxRequests RateLimiter.windowMs RateLimiter.requests].
  assert (Hset : forall v,
            alike_from t (RateLimiter.mk M W (RateLimiter.Map_set R1 key v))
              (RateLimiter.mk M W (RateLimiter.Map_set R2 key v))).
  { intros v. split; [reflexivity|]. split; [reflexivity|]. intros k.
    cbn [RateLimiter.requests].
    destruct (StringPrototype.eqb key k) eqn:E.
    - apply JsString_eqb_eq in E. subst k. left. rewrite !Map_get_set_same. reflexivity.
    - apply JsString_eqb_neq in E. rewrite !Map_get_set_other by assumption. apply Hk. }
  destruct (Hk key) as [He|(He & d & Hd & Hexp)].
  - rewrite He. destruct (RateLimiter.Map_get R2 key) as [d|].
    + destruct (RateLimiter.resetAt d <? now); [split; [reflexivity | apply Hset]|].
      destruct (M <=? RateLimiter.count d); [|split; [reflexivity | apply Hset]].
      split; [reflexivity|]. split; [reflexivity|]. split; [reflexivity | exact Hk].
    + split; [reflexivity | apply Hset].
  - rewrite He, Hd. replace (RateLimiter.resetAt d <? now) with true
      by (symmetry; apply Z.ltb_lt; lia).
    split; [reflexivity | apply Hset].
Qed.

(** [cleanup] never changes an answer: once the entries expired at time
    [t] are deleted, every sequence of requests that arrive at [t] or
    later gets the answers it would have got without the deletion. *)
Theorem RateLimiter_cleanup_is_transparent (this : RateLimiter.t) (t : Z)
    (reqs : list (Z * JsString.t)) :
  NoDup (map fst (RateLimiter.requests this)) ->
  Forall (fun r => t <= fst r) reqs ->
  answers (RateLimiter.cleanup this t) reqs = answers this reqs.
Proof.
  intros Hnd Hall. pose proof (cleanup_alike this t Hnd) as Hal.
  generalize dependent (RateLimiter.cleanup this t). clear Hnd.
  revert this. induction Hall as [|[now key] reqs Hnow Hall IH]; intros this s1 Hal;
    [reflexivity|].
  cbn [answers]. cbn [fst] in Hnow.
  destruct (check_alike t now key s1 this Hnow Hal) as [Hf Hs].
  rewrite Hf. f_equal. apply IH, Hs.
Qed.

Lemma check_bounds (this : RateLimiter.t) (now : Z) (k : JsString.t) :
  RateLimiter.maxRequests (snd (RateLimiter.check this now k))
  = RateLimiter.maxRequests this
  /\ RateLimiter.windowMs (snd (RateLimiter.check this now k))
     = RateLimiter.windowMs this.
Proof.
  unfold RateLimiter.check.
  destruct (RateLimiter.Map_get (RateLimiter.requests this) k) as [d|];
    [|split; reflexivity].
  destruct (RateLimiter.resetAt d <? now); [split; reflexivity|].
  destruct (RateLimiter.maxRequests this <=? RateLimiter.count d); split; reflexivity.
Qed.

Lemma check_alike_but (now : Z) (key k : JsString.t) (s1 s2 : RateLimiter.t) :
  alike_but key s1 s2 ->
  alike_but key (snd (RateLimiter.check s1 now k)) (snd (RateLimiter.check s2 now k))
  /\ (k <> key -> fst (RateLimiter.check s1 now k) = fst (RateLimiter.check s2 now k)).
Proof.
  intros (Hm & Hw & Hk).
  destruct (StringPrototype.eqb k key) eqn:E.
  - apply JsString_eqb_eq in E. subst k.
    split; [|intros H; exfalso; apply H; reflexivity].
    destruct (check_bounds s1 now key) as [Hm1 Hw1].
    destruct (check_bounds s2 now key) as [Hm2 Hw2].
    split; [congruence|]. split; [congruence|]. intros k' Hne.
    destruct (check_other s1 now key k') as (-> & _); [congruence|].
    destruct (check_other s2 now key k') as (-> & _); [congruence|].
    apply Hk, Hne.
  - apply JsString_eqb_neq in E.
    destruct s1 as [M W R1], s2 as [M2 W2 R2].
    cbn [RateLimiter.maxRequests RateLimiter.windowMs RateLimiter.requests] in Hm, Hw, Hk.
    subst M2 W2. unfold RateLimiter.check.
    cbn [RateLimiter.maxRequests RateLimiter.windowMs RateLimiter.requests].
    assert (Hset : forall v,
              alike_but key (RateLimiter.mk M W (RateLimiter.Map_set R1 k v))
                (RateLimiter.mk M W (RateLimiter.Map_set R2 k v))).
    { intros v. split; [reflexivity|]. split; [reflexivity|]. intros k' Hne.
      cbn [RateLimiter.requests].
      destruct (StringPrototype.eqb k k') eqn:E2.
      - apply JsString_eqb_eq in E2. subst k'. rewrite !Map_get_set_same. reflexivity.
      - apply JsString_eqb_neq in E2. rewrite !Map_get_set_other by assumption.
        apply Hk, Hne. }
    rewrite (Hk k E). destruct (RateLimiter.Map_get R2 k) as [d|].
    + destruct (RateLimiter.resetAt d <? now); [split; [apply Hset | reflexivity]|].
      destruct (M <=? RateLimiter.count d); [|split; [apply Hset | reflexivity]].
      split; [|reflexivity]. split; [reflexivity|]. split; [reflexivity | exact Hk].
    + split; [apply Hset | reflexivity].
Qed.

(** [reset(key)] forgets the key and nothing else: the key has no entry
    left, so that its next request opens a window and is allowed, and
    the requests of every other key are answered as they would have been
    without the reset, whatever requests come in between. *)
Theorem RateLimiter_reset_forgets_one_key (this : RateLimiter.t) (key : JsString.t) :
  RateLimiter.Map_get (RateLimiter.requests (RateLimiter.reset this key)) key = None
  /\ (forall now : Z, fst (RateLimiter.check (RateLimiter.reset this key) now key) = true)
  /\ (forall (other : JsString.t) (reqs : list (Z * JsString.t)),
        other <> key ->
        answers_to other (RateLimiter.reset this key) reqs = answers_to other this reqs).
Proof.
  assert (H0 : RateLimiter.Map_get (RateLimiter.requests (RateLimiter.reset this key)) key
               = None) by apply Map_get_delete_same.
  split; [exact H0|]. split.
  - intros now. unfold RateLimiter.check. rewrite H0. reflexivity.
  - intros other reqs Hne.
    assert (Hal : alike_but key (RateLimiter.reset this key) this).
    { split; [reflexivity|]. split; [reflexivity|]. intros k Hk.
      apply Map_get_delete_other. congruence. }
    clear H0. generalize dependent (RateLimiter.reset this key).
    revert this. induction reqs as [|[now k] reqs IH]; intros this s1 Hal;
      [reflexivity|].
    cbn [answers_to].
    destruct (check_alike_but now key k s1 this Hal) as [Hal' Hf].
    rewrite (IH _ _ Hal').
    destruct (StringPrototype.eqb k other) eqn:E; [|reflexivity].
    apply JsString_eqb_eq in E. subst k. rewrite Hf by assumption. reflexivity.
Qed.

(** ** src/utils/hkdf.js: generated keys *)

Lemma all_zero_distinct (b : Buffer.t) :
  Buffer.all_zero b = true -> (Buffer.distinct b <= 1)%nat.
Proof.
  unfold Buffer.all_zero, Buffer.distinct. intros H.
  assert (Hall : forall x, In x b -> x = x00).
  { intros x Hx. rewrite forallb_forall in H. specialize (H x Hx).
    symmetry. apply Byte.byte_dec_bl in H. exact H. }
  clear H. induction b as [|x b IH]; [cbn; lia|].
  cbn [nodup]. destruct (in_dec Byte.byte_eq_dec x b) as [Hin|Hnin].
  - apply IH. intros y Hy. apply Hall. right. exact Hy.
  - assert (Hb : nodup Byte.byte_eq_dec b = []).
    { destruct (nodup Byte.byte_eq_dec b) as [|y l] eqn:E; [reflexivity|].
      exfalso. apply Hnin.
      assert (Hy : In y b) by (eapply nodup_In; rewrite E; left; reflexivity).
      rewrite (Hall x (or_introl eq_refl)). rewrite <- (Hall y (or_intror Hy)). exact Hy. }
    rewrite Hb. cbn. lia.
Qed.

(** [generateMasterKey] returns the 32 bytes it draws when they hold at
    least 16 distinct values, and throws the SecurityError WEAK_KEY when
    they do not.  A key it returns is accepted wherever a master key is
    taken: [exportMasterKey] gives 64 digits from which [importMasterKey]
    gives the key back, and [deriveVideoKey] succeeds for every valid
    id. *)
Theorem generateMasterKey_result (rng : Rng) :
  let bytes := map rng.(tape) (seq rng.(cursor) 32) in
  ((16 <= Buffer.distinct bytes)%nat ->
   generateMasterKey rng = Ok (bytes, mkRng rng.(tape) (rng.(cursor) + 32))
   /\ validateMasterKey bytes = Ok tt
   /\ (exists hexKey, exportMasterKey bytes = Ok hexKey
                      /\ length hexKey = 64%nat
                      /\ importMasterKey hexKey = Ok bytes)
   /\ (forall videoId, validateVideoId videoId = Ok tt ->
                       is_ok (deriveVideoKey bytes videoId) = true))
  /\ ((Buffer.distinct bytes < 16)%nat ->
      is_SecurityError (generateMasterKey rng) = true).
Proof.
  intros bytes.
  assert (Hlen : length bytes = 32%nat) by (unfold bytes; rewrite length_map, length_seq; reflexivity).
  assert (Hgen : generateMasterKey rng
                 = (validateMasterKey bytes ;;
                    Ok (bytes, mkRng rng.(tape) (rng.(cursor) + 32)))) by reflexivity.
  split.
  - intros Hd.
    assert (Hv : validateMasterKey bytes = Ok tt).
    { apply validateMasterKey_ok. split; [exact Hlen|]. split; [|exact Hd].
      destruct (Buffer.all_zero bytes) eqn:Ez; [|reflexivity].
      apply all_zero_distinct in Ez. lia. }
    split; [rewrite Hgen, Hv; reflexivity|]. split; [exact Hv|]. split.
    + exists (JsString.of_string (Buffer.to_hex bytes)).
      split; [unfold exportMasterKey; rewrite Hv; reflexivity|].
      split; [rewrite length_to_hex, Hlen; reflexivity|].
      apply importMasterKey_ok_iff. rewrite Buffer_from_hex_to_hex.
      split; [|split; [reflexivity | exact Hv]].
      apply hex_pattern_to_hex. intros E. rewrite E in Hlen. discriminate.
    + intros videoId Ho. unfold deriveVideoKey. rewrite Hv, Ho. reflexivity.
  - intros Hd. rewrite Hgen. unfold validateMasterKey.
    unfold CONFIG.CRYPTO.KEY_LENGTH. rewrite Hlen. cbn [Nat.eqb negb].
    destruct (Buffer.all_zero bytes); [reflexivity|].
    replace (Buffer.distinct bytes <? 16)%nat with true
      by (symmetry; apply Nat.ltb_lt; exact Hd).
    reflexivity.
Qed.

(** ** src/core/chunk-crypto.js: what [decryptChunk] accepts *)

(** A buffer of 32 bytes or more always parses, and under a valid key
    and id the parsed chunk is decrypted exactly when its tag is the
    GCM tag of its ciphertext under the associated data of the id and
    of the index it carries; the plaintext then has the length of the
    buffer less 32.  Every other buffer of that size is refused with
    the authentication error, and with no other. *)
Theorem decryptChunk_of_parsed_buffer (buffer videoKey : Buffer.t) (videoId : JsString.t) :
  validateMasterKey videoKey = Ok tt ->
  validateVideoId videoId = Ok tt ->
  (32 <= length buffer)%nat ->
  exists c : EncryptedChunk,
    fromBuffer buffer = Ok c
    /\ let ws := Aes.expand_key videoKey in
       let aad := Sha256.digest (JsString.utf8 videoId ++ Buffer.be_bytes 4 c.(index)) in
       (Gcm.tag_of ws c.(iv) aad c.(ciphertext) = c.(tag) ->
        exists plaintext,
          decryptChunk c videoKey videoId = Ok plaintext
          /\ length plaintext = (length buffer - 32)%nat)
       /\ (Gcm.tag_of ws c.(iv) aad c.(ciphertext) <> c.(tag) ->
           decryptChunk c videoKey videoId
           = Throw (Error ("Falha na autenticação do chunk " ++ show c.(index)
                             ++ ": Unsupported state or unable to authenticate data"))).
Proof.
  intros Hk Ho Hlen. eexists. split; [apply fromBuffer_parts; exact Hlen|].
  cbn [index iv tag ciphertext].
  assert (Hi : 0 <= Buffer.be_value (firstn 4 buffer) <= 4294967295).
  { apply be_value_range_4. rewrite length_firstn. lia. }
  assert (Hdec : forall c, c = mkEncryptedChunk (Buffer.be_value (firstn 4 buffer))
                                 (Buffer.slice buffer 4 16) (Buffer.slice buffer 16 32)
                                 (skipn 32 buffer) ->
            decryptChunk c videoKey videoId
            = match Gcm.open_final videoKey c.(iv)
                      (Sha256.digest (JsString.utf8 videoId ++ Buffer.be_bytes 4 c.(index)))
                      c.(ciphertext) c.(tag) with
              | inl plaintext => Ok plaintext
              | inr message =>
                  Throw (Error ("Falha na autenticação do chunk "
                                  ++ show c.(index) ++ ": " ++ message))
              end).
  { intros c ->. unfold decryptChunk. rewrite Hk, Ho. cbn [bind index iv tag ciphertext].
    rewrite createAAD_ok by assumption. cbn [bind].
    unfold Gcm.open_setup, Gcm.check_key_iv.
    apply validateMasterKey_ok in Hk as (Hkl & _). rewrite Hkl.
    rewrite !length_slice by lia. cbn [Nat.eqb Nat.sub negb bind]. reflexivity. }
  rewrite (Hdec _ eq_refl). cbn [index iv tag ciphertext]. unfold Gcm.open_final.
  split.
  - intros Ht.
    destruct (list_eq_dec Byte.byte_eq_dec _ _) as [_|Hne]; [|contradiction].
    eexists. split; [reflexivity|]. rewrite length_gctr, length_skipn. reflexivity.
  - intros Ht.
    destruct (list_eq_dec Byte.byte_eq_dec _ _) as [He|_]; [contradiction|]. reflexivity.
Qed.

(** The tag of a chunk made by [encryptChunk] cannot be changed
    unnoticed: with any other tag in its place, the chunk is refused by
    [decryptChunk]. *)
Theorem changed_tag_is_refused (rng rng' : Rng) (plaintext videoKey : Buffer.t)
    (videoId : JsString.t) (chunkIndex : Z) (c : EncryptedChunk) (tag' : Buffer.t) :
  encryptChunk rng plaintext videoKey videoId chunkIndex = Ok (c, rng') ->
  tag' <> c.(tag) ->
  is_ok (decryptChunk (mkEncryptedChunk c.(index) c.(iv) tag' c.(ciphertext))
           videoKey videoId) = false.
Proof.
  intros He Ht. apply encryptChunk_inv in He as (-> & _ & Hk & Ho & Hi).
  unfold decryptChunk. rewrite Hk, Ho. cbn [bind index iv tag ciphertext sealed_chunk].
  rewrite createAAD_ok by (assumption || lia). cbn [bind].
  destruct (Gcm.open_setup videoKey (fst (randomBytes 12 rng)) tag') as [[]|];
    [|reflexivity].
  cbn [bind]. unfold Gcm.open_final.
  destruct (list_eq_dec Byte.byte_eq_dec _ _) as [He|_]; [|reflexivity].
  exfalso. apply Ht. rewrite <- He. reflexivity.
Qed.

(** ** src/core/decryption-stream.js: the length-prefixed records *)

Lemma length_framed (body : Buffer.t) : length (framed body) = (4 + length body)%nat.
Proof. unfold framed. rewrite length_app, length_be_bytes. reflexivity. Qed.

Lemma extract_stops (tail : Buffer.t) (fuel : nat) :
  incomplete tail ->
  ChunkDeserializationStream.extract fuel (ChunkDeserializationStream.mk tail)
  = mkOutcome [] (ChunkDeserializationStream.mk tail) None.
Proof.
  intros Hinc. destruct fuel as [|fuel]; [reflexivity|].
  destruct (Nat.le_gt_cases 4 (length tail)) as [H4|H4].
  - rewrite extract_unfold by assumption. cbv zeta.
    destruct Hinc as [Hinc|Hinc]; [lia|].
    replace (Z.of_nat (length tail) <? 4 + Buffer.be_value (firstn 4 tail)) with true
      by (symmetry; apply Z.ltb_lt; exact Hinc).
    reflexivity.
  - cbn [ChunkDeserializationStream.extract ChunkDeserializationStream.buffer].
    replace (4 <=? length tail)%nat with false by (symmetry; apply Nat.leb_gt; exact H4).
    reflexivity.
Qed.

Lemma extract_records (bodies : list Buffer.t) :
  forall (chunks : list EncryptedChunk) (tail : Buffer.t) (fuel : nat),
    Forall (fun b => (32 <= length b)%nat /\ Z.of_nat (length b) <= 4294967295) bodies ->
    Forall2 (fun b c => fromBuffer b = Ok c) bodies chunks ->
    incomplete tail ->
    (length bodies <= fuel)%nat ->
    ChunkDeserializationStream.extract fuel
      (ChunkDeserializationStream.mk (concat (map framed bodies) ++ tail))
    = mkOutcome chunks (ChunkDeserializationStream.mk tail) None.
Proof.
  induction bodies as [|b bodies IH]; intros chunks tail fuel Hb Hp Hinc Hfuel.
  - inversion Hp; subst. cbn [map concat app]. apply extract_stops, Hinc.
  - inversion Hp as [|b' c bs cs Hc Hcs]; subst.
    apply Forall_cons_iff in Hb as [[Hb32 Hbmax] Hb].
    destruct fuel as [|fuel]; [cbn in Hfuel; lia|]. cbn [length] in Hfuel.
    cbn [map concat]. rewrite <- app_assoc.
    set (rest := concat (map framed bodies) ++ tail).
    assert (Hhead : firstn 4 (framed b ++ rest)
                    = Buffer.be_bytes 4 (Z.of_nat (length b))).
    { unfold framed. rewrite <- app_assoc. apply firstn_app_length, length_be_bytes. }
    rewrite extract_unfold by (rewrite length_app, length_framed; lia).
    cbv zeta. rewrite Hhead, be_value_be_bytes_4 by lia.
    rewrite length_app, length_framed.
    replace (Z.of_nat (4 + length b + length rest) <? 4 + Z.of_nat (length b)) with false
      by (symmetry; apply Z.ltb_ge; lia).
    rewrite Nat2Z.id.
    assert (Hslice : Buffer.slice (framed b ++ rest) 4 (4 + length b) = b).
    { unfold Buffer.slice, framed. rewrite <- app_assoc.
      rewrite skipn_app_length by apply length_be_bytes.
      replace (4 + length b - 4)%nat with (length b) by lia.
      apply firstn_app_length. reflexivity. }
    assert (Hskip : skipn (4 + length b) (framed b ++ rest) = rest).
    { apply skipn_app_length. apply length_framed. }
    rewrite Hslice, Hskip, Hc. unfold rest, and_then. cbn [failure final pushes].
    rewrite (IH cs tail fuel Hb Hcs Hinc) by lia. reflexivity.
Qed.

Lemma app_split_at {A : Type} (X P S Y : list A) :
  P ++ S = X ++ Y -> (length X <= length P)%nat ->
  exists P', P = X ++ P' /\ P' ++ S = Y.
Proof.
  revert P. induction X as [|x X IH]; intros P H Hl.
  - exists P. split; [reflexivity | exact H].
  - destruct P as [|p P]; [cbn in Hl; lia|].
    cbn [app] in H. injection H as -> H. cbn [length] in Hl.
    destruct (IH P H) as (P' & -> & HP'); [lia|].
    exists P'. split; [reflexivity | exact HP'].
Qed.

Lemma app_prefix_firstn {A : Type} (t S X Y : list A) (n : nat) :
  t ++ S = X ++ Y -> (n <= length t)%nat -> (n <= length X)%nat ->
  firstn n t = firstn n X.
Proof.
  intros H Ht HX.
  assert (E : forall u v : list A, (n <= length u)%nat -> firstn n (u ++ v) = firstn n u).
  { intros u v Hu. rewrite firstn_app.
    replace (n - length u)%nat with 0%nat by lia. cbn [firstn]. apply app_nil_r. }
  rewrite <- (E t S Ht), <- (E X Y HX), H. reflexivity.
Qed.

(** A prefix of a sequence of records is a number of whole records
    followed by the beginning of the next one. *)
Lemma prefix_of_records (bodies : list Buffer.t) :
  forall P S : Buffer.t,
    P ++ S = concat (map framed bodies) ->
    Forall (fun b => Z.of_nat (length b) <= 4294967295) bodies ->
    exists (done todo : list Buffer.t) (tail : Buffer.t),
      bodies = done ++ todo
      /\ P = concat (map framed done) ++ tail
      /\ tail ++ S = concat (map framed todo)
      /\ incomplete tail
      /\ (todo = [] -> tail = []).
Proof.
  induction bodies as [|b bodies IH]; intros P S H Hmax.
  - cbn [map concat] in H. apply app_eq_nil in H as [-> ->].
    exists [], [], []. repeat split; try reflexivity. left. cbn. lia.
  - apply Forall_cons_iff in Hmax as [Hb Hmax]. cbn [map concat] in H.
    destruct (Nat.le_gt_cases (length (framed b)) (length P)) as [Hl|Hl].
    + destruct (app_split_at _ _ _ _ H Hl) as (P' & -> & HP').
      destruct (IH P' S HP' Hmax) as (done & todo & tail & -> & -> & Ht & Hinc & Hnil).
      exists (b :: done), todo, tail. cbn [map concat app]. rewrite app_assoc.
      repeat split; try assumption; reflexivity.
    + exists [], (b :: bodies), P. cbn [map concat app].
      split; [reflexivity|]. split; [reflexivity|]. split; [exact H|].
      split; [|discriminate].
      destruct (Nat.le_gt_cases 4 (length P)) as [H4|H4]; [right | left; exact H4].
      rewrite (app_prefix_firstn P S (framed b) (concat (map framed bodies)) 4 H H4)
        by (rewrite length_framed; lia).
      unfold framed. rewrite firstn_app_length by apply length_be_bytes.
      rewrite be_value_be_bytes_4 by lia. rewrite length_framed in Hl. lia.
Qed.

Lemma length_concat_framed (bodies : list Buffer.t) :
  (length bodies <= length (concat (map framed bodies)))%nat.
Proof.
  induction bodies as [|b bodies IH]; [cbn; lia|].
  cbn [map concat length]. rewrite length_app, length_framed. lia.
Qed.

Lemma records_not_incomplete (b : Buffer.t) (bodies : list Buffer.t) :
  Z.of_nat (length b) <= 4294967295 ->
  ~ incomplete (concat (map framed (b :: bodies))).
Proof.
  intros Hb. cbn [map concat].
  assert (Hhead : firstn 4 (framed b ++ concat (map framed bodies))
                  = Buffer.be_bytes 4 (Z.of_nat (length b))).
  { unfold framed. rewrite <- app_assoc. apply firstn_app_length, length_be_bytes. }
  unfold incomplete. rewrite Hhead, be_value_be_bytes_4 by lia.
  rewrite length_app, length_framed. lia.
Qed.

Lemma deserialization_transform_unfold (tail w : Buffer.t) :
  ChunkDeserializationStream._transform (ChunkDeserializationStream.mk tail) w
  = ChunkDeserializationStream.extract (length (tail ++ w))
      (ChunkDeserializationStream.mk (tail ++ w)).
Proof.
  unfold ChunkDeserializationStream._transform, Buffer.concat.
  cbn [ChunkDeserializationStream.buffer concat]. rewrite app_nil_r. reflexivity.
Qed.

Lemma write_all_records (writes : list Buffer.t) :
  forall (bodies : list Buffer.t) (chunks : list EncryptedChunk) (tail : Buffer.t),
    Forall (fun b => (32 <= length b)%nat /\ Z.of_nat (length b) <= 4294967295) bodies ->
    Forall2 (fun b c => fromBuffer b = Ok c) bodies chunks ->
    tail ++ concat writes = concat (map framed bodies) ->
    incomplete tail ->
    write_all ChunkDeserializationStream._transform
      (ChunkDeserializationStream.mk tail) writes
    = mkOutcome chunks (ChunkDeserializationStream.mk []) None.
Proof.
  induction writes as [|w writes IH]; intros bodies chunks tail Hb Hp Hcat Hinc.
  - cbn [concat] in Hcat. rewrite app_nil_r in Hcat. cbn [write_all].
    destruct bodies as [|b bodies].
    + inversion Hp; subst. reflexivity.
    + exfalso. apply Forall_cons_iff in Hb as [[_ Hb] _].
      apply (records_not_incomplete b bodies Hb). rewrite <- Hcat. exact Hinc.
  - cbn [concat] in Hcat. rewrite app_assoc in Hcat. cbn [write_all].
    assert (Hmax : Forall (fun b => Z.of_nat (length b) <= 4294967295) bodies).
    { eapply Forall_impl; [|exact Hb]. cbn beta. tauto. }
    destruct (prefix_of_records bodies _ _ Hcat Hmax)
      as (done & todo & tail' & -> & HP & Htodo & Hinc' & _).
    apply Forall2_app_inv_l in Hp as (cs1 & cs2 & Hp1 & Hp2 & ->).
    apply Forall_app in Hb as [Hb1 Hb2].
    rewrite deserialization_transform_unfold, HP.
    rewrite (extract_records done cs1 tail' _ Hb1 Hp1 Hinc')
      by (rewrite length_app; pose proof (length_concat_framed done); lia).
    unfold and_then. cbn [failure final pushes].
    rewrite (IH todo cs2 tail' Hb2 Hp2 Htodo Hinc'). reflexivity.
Qed.

Lemma run_records (bodies writes : list Buffer.t) (chunks : list EncryptedChunk) :
  Forall (fun b => (32 <= length b)%nat /\ Z.of_nat (length b) <= 4294967295) bodies ->
  Forall2 (fun b c => fromBuffer b = Ok c) bodies chunks ->
  concat writes = concat (map framed bodies) ->
  run ChunkDeserializationStream._transform ChunkDeserializationStream._flush
    ChunkDeserializationStream.new writes
  = mkOutcome chunks (ChunkDeserializationStream.mk []) None.
Proof.
  intros Hb Hp Hcat. unfold run, ChunkDeserializationStream.new, Buffer.alloc.
  cbn [repeat].
  rewrite (write_all_records writes bodies _ [] Hb Hp Hcat) by (left; cbn; lia).
  unfold and_then, ChunkDeserializationStream._flush.
  cbn [failure final pushes ChunkDeserializationStream.buffer length Nat.ltb Nat.leb].
  rewrite app_nil_r. reflexivity.
Qed.

(** The deserialization stream reads length-prefixed records, however
    the bytes are cut into writes: when the writes, put end to end, are
    a sequence of records, each the length of its body on four bytes
    followed by a body of 32 bytes or more, the stream pushes the chunks
    parsed from the bodies, in order, keeps nothing back and ends
    without error. *)
Theorem deserialization_reads_framed_records (bodies writes : list Buffer.t) :
  Forall (fun b => (32 <= length b)%nat /\ Z.of_nat (length b) <= 4294967295) bodies ->
  concat writes = concat (map framed bodies) ->
  exists chunks : list EncryptedChunk,
    Forall2 (fun b c => fromBuffer b = Ok c) bodies chunks
    /\ run ChunkDeserializationStream._transform ChunkDeserializationStream._flush
         ChunkDeserializationStream.new writes
       = mkOutcome chunks (ChunkDeserializationStream.mk []) None.
Proof.
  intros Hb Hcat.
  exists (map (fun b => mkEncryptedChunk (Buffer.be_value (firstn 4 b))
                          (Buffer.slice b 4 16) (Buffer.slice b 16 32) (skipn 32 b))
            bodies).
  assert (Hp : Forall2 (fun b c => fromBuffer b = Ok c) bodies
                 (map (fun b => mkEncryptedChunk (Buffer.be_value (firstn 4 b))
                                  (Buffer.slice b 4 16) (Buffer.slice b 16 32)
                                  (skipn 32 b)) bodies)).
  { clear Hcat. induction Hb as [|b bodies [Hb _] _ IH]; constructor;
      [apply fromBuffer_parts, Hb | exact IH]. }
  split; [exact Hp | apply (run_records bodies writes _ Hb Hp Hcat)].
Qed.

Lemma fromBuffer_serialized (c : EncryptedChunk) :
  0 <= c.(index) <= 4294967295 ->
  length c.(iv) = 12%nat -> length c.(tag) = 16%nat ->
  fromBuffer (serialized c) = Ok c.
Proof.
  intros Hi Hv Ht. unfold serialized. rewrite fromBuffer_layout by assumption.
  destruct c; reflexivity.
Qed.

Lemma length_serialized (c : EncryptedChunk) :
  length c.(iv) = 12%nat -> length c.(tag) = 16%nat ->
  length (serialized c) = (32 + length c.(ciphertext))%nat.
Proof.
  intros Hv Ht. unfold serialized. rewrite !length_app, length_be_bytes, Hv, Ht. lia.
Qed.

(** The same for the bytes of chunks. *)
Lemma deserialization_frames (frames : list EncryptedChunk) (writes : list Buffer.t) :
  Forall (fun c => 0 <= c.(index) <= 4294967295
                   /\ length c.(iv) = 12%nat /\ length c.(tag) = 16%nat
                   /\ Z.of_nat (length c.(ciphertext)) <= 4294967263) frames ->
  concat writes = concat (map framed (map serialized frames)) ->
  run ChunkDeserializationStream._transform ChunkDeserializationStream._flush
    ChunkDeserializationStream.new writes
  = mkOutcome frames (ChunkDeserializationStream.mk []) None.
Proof.
  intros Hshape Hcat. apply (run_records (map serialized frames)); [| |exact Hcat].
  - apply Forall_forall. intros b Hb. apply in_map_iff in Hb as (c & <- & Hc).
    rewrite Forall_forall in Hshape. destruct (Hshape c Hc) as (_ & Hv & Ht & Hs).
    rewrite length_serialized by assumption. lia.
  - clear Hcat. induction Hshape as [|c frames (Hi & Hv & Ht & _) _ IH];
      cbn [map]; constructor; [apply fromBuffer_serialized; assumption | exact IH].
Qed.

(** ** src/core/file-crypto.js: what the two directions exchange *)

Lemma encryption_run (videoKey : Buffer.t) (videoId : JsString.t)
    (options_chunkSize : option nat) (rng : Rng) (writes : list Buffer.t) :
  validateMasterKey videoKey = Ok tt ->
  validateVideoId videoId = Ok tt ->
  let F := EncryptionStream.chunkSize
             (EncryptionStream.new videoKey videoId options_chunkSize rng) in
  let n := frame_count F (length (concat writes)) in
  Z.of_nat n <= 100001 ->
  run EncryptionStream._transform EncryptionStream._flush
    (EncryptionStream.new videoKey videoId options_chunkSize rng) writes
  = mkOutcome
      (seal_all rng videoKey videoId 0 (pieces F (concat writes) n))
      (EncryptionStream.mk videoKey videoId F [] (Z.of_nat n) (length (concat writes))
         (advance_by n rng))
      None.
Proof.
  intros Hk Ho F n Hn. rewrite new_unfold. fold F.
  assert (HF : (1 <= F)%nat) by apply new_chunkSize_pos.
  clearbody F. apply (run_spec videoKey videoId F Hk Ho HF writes rng Hn).
Qed.

Lemma sealed_frames_shape (videoKey : Buffer.t) (videoId : JsString.t) (rng : Rng)
    (F : nat) (B : Buffer.t) :
  (1 <= F)%nat ->
  Z.of_nat (frame_count F (length B)) <= 100001 ->
  Forall (fun c => 0 <= c.(index) <= 4294967295
                   /\ length c.(iv) = 12%nat /\ length c.(tag) = 16%nat
                   /\ (1 <= length c.(ciphertext))%nat)
    (seal_all rng videoKey videoId 0 (pieces F B (frame_count F (length B)))).
Proof.
  intros HF Hn. apply seal_all_shape; [lia | rewrite length_pieces; lia|].
  apply pieces_nonempty, HF.
Qed.

Lemma serialization_run (frames : list EncryptedChunk) :
  Forall (fun c => 0 <= c.(index) <= 4294967295) frames ->
  run ChunkSerializationStream._transform ChunkSerializationStream._flush tt frames
  = mkOutcome (map serialized frames) tt None.
Proof.
  intros H. unfold run. rewrite serialize_all by assumption.
  unfold and_then, ChunkSerializationStream._flush. cbn [failure final pushes].
  rewrite app_nil_r. reflexivity.
Qed.

Lemma decryption_run (videoKey : Buffer.t) (videoId : JsString.t)
    (frames : list EncryptedChunk) (plaintexts : list Buffer.t) :
  Forall2 (fun c p => decryptChunk c videoKey videoId = Ok p) frames plaintexts ->
  run DecryptionStream._transform DecryptionStream._flush
    (DecryptionStream.new videoKey videoId) frames
  = mkOutcome plaintexts
      (DecryptionStream.mk videoKey videoId (length frames) (length (concat plaintexts)) [])
      None.
Proof.
  intros H. unfold run, DecryptionStream.new.
  rewrite (decrypt_run_ok _ _ _ _ _ _ _ H).
  unfold and_then, DecryptionStream._flush. cbn [failure final pushes].
  rewrite app_nil_r. reflexivity.
Qed.

Lemma encryptBuffer_frames (rng : Rng) (data masterKey : Buffer.t)
    (videoId : JsString.t) (chunkSize : option nat) (videoKey : Buffer.t) :
  deriveVideoKey masterKey videoId = Ok videoKey ->
  validateMasterKey videoKey = Ok tt ->
  let F := EncryptionStream.chunkSize
             (EncryptionStream.new videoKey videoId chunkSize rng) in
  let n := frame_count F (length data) in
  Z.of_nat n <= 100001 ->
  encryptBuffer rng data masterKey videoId chunkSize
  = Ok (map serialized (seal_all rng videoKey videoId 0 (pieces F data n))).
Proof.
  intros Hd Hk F n Hn. destruct (deriveVideoKey_inv _ _ _ Hd) as [_ Ho].
  assert (HF : (1 <= F)%nat) by apply new_chunkSize_pos.
  unfold encryptBuffer. rewrite Hd. cbn [bind].
  pose proof (encryption_run videoKey videoId chunkSize rng [data] Hk Ho) as Henc.
  cbn [concat] in Henc. rewrite app_nil_r in Henc. fold F in Henc. fold n in Henc.
  rewrite (Henc Hn). unfold settle at 1. cbn [failure pushes bind].
  rewrite serialization_run.
  - reflexivity.
  - eapply Forall_impl; [|apply (sealed_frames_shape videoKey videoId rng F data HF Hn)].
    cbn beta. tauto.
Qed.

(** The two streams of the codec undo each other.  Whatever the writes
    that bring a byte string [B] to an encryption stream with a valid
    key and id, if no more than 100001 chunks are needed, a decryption
    stream with the same key and id fed with the chunks pushes the
    successive pieces of [B], which put end to end are [B]; it reports
    as many chunks as the encryption stream, the length of [B], and no
    error. *)
Theorem decryption_stream_undoes_encryption_stream (videoKey : Buffer.t)
    (videoId : JsString.t) (options_chunkSize : option nat) (rng : Rng)
    (writes : list Buffer.t) :
  validateMasterKey videoKey = Ok tt ->
  validateVideoId videoId = Ok tt ->
  let s0 := EncryptionStream.new videoKey videoId options_chunkSize rng in
  let F := EncryptionStream.chunkSize s0 in
  let B := concat writes in
  let n := frame_count F (length B) in
  Z.of_nat n <= 100001 ->
  let e := run EncryptionStream._transform EncryptionStream._flush s0 writes in
  let d := run DecryptionStream._transform DecryptionStream._flush
             (DecryptionStream.new videoKey videoId) e.(pushes) in
  e.(failure) = None
  /\ d.(failure) = None
  /\ d.(pushes) = pieces F B n
  /\ Buffer.concat d.(pushes) = B
  /\ EncryptionStream.getStats e.(final) = (Z.of_nat n, length B)
  /\ DecryptionStream.getStats d.(final) = (n, length B, []).
Proof.
  intros Hk Ho s0 F B n Hn e d.
  assert (HF : (1 <= F)%nat) by apply new_chunkSize_pos.
  assert (He : e = mkOutcome
                     (seal_all rng videoKey videoId 0 (pieces F B n))
                     (EncryptionStream.mk videoKey videoId F [] (Z.of_nat n) (length B)
                        (advance_by n rng))
                     None)
    by (apply (encryption_run videoKey videoId options_chunkSize rng writes Hk Ho Hn)).
  clearbody F. subst d. rewrite He. cbn [pushes failure final].
  assert (Hcat : concat (pieces F B n) = B).
  { apply concat_pieces. apply frame_count_bounds. exact HF. }
  rewrite (decryption_run videoKey videoId _ (pieces F B n)).
  - cbn [pushes failure final]. unfold Buffer.concat. rewrite Hcat.
    unfold EncryptionStream.getStats, DecryptionStream.getStats.
    cbn [EncryptionStream.chunkIndex EncryptionStream.bytesProcessed
           DecryptionStream.chunksProcessed DecryptionStream.bytesProcessed
           DecryptionStream.errors].
    rewrite length_seal_all, length_pieces. repeat split; reflexivity.
  - apply seal_all_decrypts; try assumption; [lia | rewrite length_pieces; lia].
Qed.

(** What [decryptBuffer] reads with the length-prefixed class for
    [ChunkDeserializationStream].  Let [encryptBuffer] resolve with its
    chunks; put before each chunk its length on four bytes, and cut the
    bytes so obtained into writes in any way: [decryptBuffer] of these
    writes resolves with the data that was encrypted. *)
Theorem decryptBuffer_reads_framed_chunks (rng : Rng) (data masterKey : Buffer.t)
    (videoId : JsString.t) (chunkSize : option nat) (videoKey : Buffer.t)
    (writes : list Buffer.t) :
  deriveVideoKey masterKey videoId = Ok videoKey ->
  validateMasterKey videoKey = Ok tt ->
  let F := EncryptionStream.chunkSize
             (EncryptionStream.new videoKey videoId chunkSize rng) in
  Z.of_nat (frame_count F (length data)) <= 100001 ->
  Z.of_nat (length data) <= 4294967263 ->
  exists chunks : list Buffer.t,
    encryptBuffer rng data masterKey videoId chunkSize = Ok chunks
    /\ (concat writes = concat (map framed chunks) ->
        decryptBuffer length_prefixed writes masterKey videoId = Ok data).
Proof.
  intros Hd Hk F Hn Hsize. destruct (deriveVideoKey_inv _ _ _ Hd) as [_ Ho].
  assert (HF : (1 <= F)%nat) by apply new_chunkSize_pos.
  eexists. split; [apply (encryptBuffer_frames rng data masterKey videoId chunkSize
                            videoKey Hd Hk Hn)|].
  fold F. clearbody F. set (n := frame_count F (length data)) in *.
  set (frames := seal_all rng videoKey videoId 0 (pieces F data n)).
  pose proof (sealed_frames_shape videoKey videoId rng F data HF Hn) as Hshape.
  fold n in Hshape. fold frames in Hshape.
  intros Hcat. unfold decryptBuffer.
  cbn [length_prefixed transform flush construct instance]. rewrite Hd. cbn [bind].
  rewrite (deserialization_frames frames writes); [| |exact Hcat].
  2:{ apply Forall_forall. intros c Hc. rewrite Forall_forall in Hshape.
      destruct (Hshape c Hc) as (Hi & Hv & Ht & _). repeat split; try assumption; try lia.
      unfold frames in Hc. apply In_nth_error in Hc as [k Hk'].
      assert (Hlt : (k < n)%nat).
      { rewrite <- (length_pieces F data n), <- (length_seal_all videoKey videoId _ rng 0).
        apply nth_error_Some. rewrite Hk'. discriminate. }
      rewrite (nth_error_seal_all videoKey videoId _ rng 0 k (piece F data k)) in Hk'
        by (apply nth_error_pieces, Hlt).
      injection Hk' as <-.
      destruct (sealed_chunk_shape (advance_by k rng) (piece F data k) videoKey videoId
                  (Z.of_nat k)) as (_ & _ & _ & ->).
      rewrite length_piece. lia. } unfold settle at 1. cbn [failure pushes bind].
  rewrite (decryption_run videoKey videoId frames (pieces F data n)).
  - unfold settle. cbn [failure pushes bind]. unfold Buffer.concat.
    rewrite concat_pieces; [reflexivity|]. apply frame_count_bounds, HF.
  - apply seal_all_decrypts; try assumption; [lia | rewrite length_pieces; lia].
Qed.

(** ** Text encodings *)

Lemma list_triples_ind {A : Type} (P : list A -> Prop) :
  P [] -> (forall x, P [x]) -> (forall x y, P [x; y]) ->
  (forall x y z l, P l -> P (x :: y :: z :: l)) ->
  forall l, P l.
Proof.
  intros H0 H1 H2 H3.
  assert (H : forall l, P l /\ (forall x, P (x :: l)) /\ (forall x y, P (x :: y :: l))).
  { induction l as [|a l (IH0 & IH1 & IH2)].
    - repeat split; auto.
    - split; [apply IH1|]. split; [intros x; apply IH2|]. intros x y. apply H3, IH0. }
  intros l. apply H.
Qed.

Lemma base64_digit (v : Z) :
  0 <= v < 64 ->
  Base64Reference.value (Base64.digit v) = v
  /\ Base64.digit v <> 61
  /\ 43 <= Base64.digit v <= 122
  /\ Base64.digit v <> 10.
Proof.
  intros Hv.
  assert (Hall : forallb
                   (fun n => let v := Z.of_nat n in
                             (Base64Reference.value (Base64.digit v) =? v)
                             && negb (Base64.digit v =? 61)
                             && (43 <=? Base64.digit v) && (Base64.digit v <=? 122))
                   (seq 0 64) = true) by (vm_compute; reflexivity).
  rewrite forallb_forall in Hall. specialize (Hall (Z.to_nat v)).
  cbv zeta in Hall. rewrite Z2Nat.id in Hall by lia.
  assert (Hin : In (Z.to_nat v) (seq 0 64)) by (apply in_seq; lia).
  apply Hall in Hin. rewrite !andb_true_iff, negb_true_iff in Hin.
  destruct Hin as [[[H1 H2] H3] H4]. lia.
Qed.

Lemma base64_decode_encode (l : list Z) :
  Forall (fun x => 0 <= x < 256) l ->
  Base64Reference.decode (Base64.encode l) = l.
Proof.
  induction l as [| x | x y | x y z l IH] using list_triples_ind; intros Hl.
  - reflexivity.
  - apply Forall_cons_iff in Hl as [Hx _].
    cbn [Base64.encode Base64Reference.decode]. cbn [Z.eqb Pos.eqb].
    destruct (base64_digit (x / 4)) as (-> & _); [Z.div_mod_to_equations; lia|].
    destruct (base64_digit (x mod 4 * 16)) as (-> & _); [Z.div_mod_to_equations; lia|].
    f_equal. Z.div_mod_to_equations; lia.
  - apply Forall_cons_iff in Hl as [Hx Hl]. apply Forall_cons_iff in Hl as [Hy _].
    cbn [Base64.encode Base64Reference.decode].
    destruct (base64_digit (x / 4)) as (-> & _); [Z.div_mod_to_equations; lia|].
    destruct (base64_digit (x mod 4 * 16 + y / 16)) as (-> & _);
      [Z.div_mod_to_equations; lia|].
    destruct (base64_digit (y mod 16 * 4)) as (-> & Hne & _);
      [Z.div_mod_to_equations; lia|].
    apply Z.eqb_neq in Hne. rewrite Hne. cbn [Z.eqb Pos.eqb].
    f_equal; [|f_equal]; Z.div_mod_to_equations; lia.
  - apply Forall_cons_iff in Hl as [Hx Hl]. apply Forall_cons_iff in Hl as [Hy Hl].
    apply Forall_cons_iff in Hl as [Hz Hl].
    cbn [Base64.encode Base64Reference.decode].
    destruct (base64_digit (x / 4)) as (-> & _); [Z.div_mod_to_equations; lia|].
    destruct (base64_digit (x mod 4 * 16 + y / 16)) as (-> & _);
      [Z.div_mod_to_equations; lia|].
    destruct (base64_digit (y mod 16 * 4 + z / 64)) as (-> & Hne1 & _);
      [Z.div_mod_to_equations; lia|].
    destruct (base64_digit (z mod 64)) as (-> & Hne2 & _);
      [Z.div_mod_to_equations; lia|].
    apply Z.eqb_neq in Hne1, Hne2. rewrite Hne1, Hne2. rewrite (IH Hl).
    f_equal; [|f_equal; [|f_equal]]; Z.div_mod_to_equations; lia.
Qed.

Lemma to_Zs_range (b : Buffer.t) : Forall (fun x => 0 <= x < 256) (Buffer.to_Zs b).
Proof.
  apply Forall_forall. intros x Hx. apply in_map_iff in Hx as (y & <- & _).
  apply Z_of_byte_range.
Qed.

Lemma of_Zs_to_Zs (b : Buffer.t) : Buffer.of_Zs (Buffer.to_Zs b) = b.
Proof.
  unfold Buffer.of_Zs, Buffer.to_Zs. rewrite map_map.
  rewrite <- (map_id b) at 2. apply map_ext. apply byte_of_Z_of_byte.
Qed.

(** The reference decoder inverts the encoder. *)
Lemma reference_decoder_inverts (b : Buffer.t) :
  reference_decoder (Base64.encode (Buffer.to_Zs b)) = b.
Proof.
  unfold reference_decoder. rewrite base64_decode_encode by apply to_Zs_range.
  apply of_Zs_to_Zs.
Qed.

Lemma is_white_space_plain (u : Z) :
  33 <= u <= 126 -> StringPrototype.is_white_space u = false.
Proof.
  intros H. unfold StringPrototype.is_white_space.
  repeat (apply orb_false_intro);
    try (apply andb_false_iff; rewrite !Z.leb_gt; lia); apply Z.eqb_neq; lia.
Qed.

Lemma trimStart_plain (s : JsString.t) : plain s -> StringPrototype.trimStart s = s.
Proof.
  intros H. destruct H as [|u s Hu _]; [reflexivity|].
  cbn [StringPrototype.trimStart]. rewrite is_white_space_plain by assumption. reflexivity.
Qed.

Lemma trim_plain (s : JsString.t) : plain s -> StringPrototype.trim s = s.
Proof.
  intros H. unfold StringPrototype.trim, StringPrototype.trimEnd.
  rewrite (trimStart_plain s H).
  rewrite trimStart_plain by (apply Forall_rev, H). apply rev_involutive.
Qed.

Lemma utf8_ascii (s : JsString.t) :
  Forall (fun u => 0 <= u < 128) s -> JsString.utf8 s = Buffer.of_Zs s.
Proof.
  intros H. unfold JsString.utf8. f_equal.
  induction H as [|u s Hu _ IH]; [reflexivity|].
  cbn [JsString.utf8_units]. unfold JsString.is_high_surrogate, JsString.is_low_surrogate.
  replace (55296 <=? u) with false by (symmetry; apply Z.leb_gt; lia).
  replace (56320 <=? u) with false by (symmetry; apply Z.leb_gt; lia).
  cbn [andb]. unfold JsString.utf8_code_point.
  replace (u <? 128) with true by (symmetry; apply Z.ltb_lt; lia).
  cbn [app]. rewrite IH. reflexivity.
Qed.

Lemma decode_ascii (s : list Z) :
  Forall (fun u => 0 <= u < 128) s ->
  Utf8Decoder.decode_from Utf8Decoder.initial s = s.
Proof.
  induction 1 as [|u s Hu _ IH]; [reflexivity|].
  cbn [Utf8Decoder.decode_from Utf8Decoder.step Utf8Decoder.initial
         Utf8Decoder.bytes_needed].
  unfold Utf8Decoder.start.
  replace (u <=? 127) with true by (symmetry; apply Z.leb_le; lia).
  cbn [app]. fold Utf8Decoder.initial. rewrite IH. reflexivity.
Qed.

Lemma to_Zs_of_Zs (s : list Z) :
  Forall (fun u => 0 <= u < 256) s -> Buffer.to_Zs (Buffer.of_Zs s) = s.
Proof.
  induction 1 as [|u s Hu _ IH]; [reflexivity|].
  cbn [Buffer.of_Zs Buffer.to_Zs map]. fold (Buffer.of_Zs s). fold (Buffer.to_Zs (Buffer.of_Zs s)).
  rewrite IH, Z_of_byte_of_Z, Z.mod_small by lia. reflexivity.
Qed.

(** The characters of the text forms. *)
Lemma plain_to_hex (b : Buffer.t) : plain (JsString.of_string (Buffer.to_hex b)).
Proof.
  induction b as [|x b IH]; [constructor|].
  cbn [Buffer.to_hex JsString.of_string].
  assert (Hd : forall z, 0 <= z < 16 ->
                 33 <= Z.of_nat (nat_of_ascii (Buffer.hex_digit z)) <= 126).
  { intros z Hz. unfold Buffer.hex_digit.
    rewrite nat_ascii_embedding by (destruct (z <? 10); lia).
    destruct (z <? 10); lia. }
  pose proof (Z_of_byte_range x).
  constructor; [apply Hd; Z.div_mod_to_equations; lia|].
  constructor; [apply Hd; Z.div_mod_to_equations; lia | exact IH].
Qed.

Lemma plain_base64 (l : list Z) :
  Forall (fun x => 0 <= x < 256) l -> plain (Base64.encode l).
Proof.
  assert (Hd : forall v, 0 <= v < 64 -> 33 <= Base64.digit v <= 126).
  { intros v Hv. destruct (base64_digit v Hv) as (_ & _ & H & _). lia. }
  induction l as [| x | x y | x y z l IH] using list_triples_ind; intros Hl.
  - constructor.
  - apply Forall_cons_iff in Hl as [Hx _]. cbn [Base64.encode].
    repeat constructor; try lia; apply Hd; Z.div_mod_to_equations; lia.
  - apply Forall_cons_iff in Hl as [Hx Hl]. apply Forall_cons_iff in Hl as [Hy _].
    cbn [Base64.encode].
    repeat constructor; try lia; apply Hd; Z.div_mod_to_equations; lia.
  - apply Forall_cons_iff in Hl as [Hx Hl]. apply Forall_cons_iff in Hl as [Hy Hl].
    apply Forall_cons_iff in Hl as [Hz Hl]. cbn [Base64.encode].
    repeat (constructor; [apply Hd; Z.div_mod_to_equations; lia|]). apply IH, Hl.
Qed.

Lemma plain_toString (b : Buffer.t) (encoding : Encoding) :
  encoding <> binary -> plain (Buffer_toString b encoding).
Proof.
  intros He. destruct encoding; [contradiction | |]; cbn [Buffer_toString].
  - apply plain_base64, to_Zs_range.
  - apply plain_to_hex.
Qed.

Lemma toString_nonempty (b : Buffer.t) (encoding : Encoding) :
  b <> [] -> Buffer_toString b encoding <> [].
Proof.
  intros Hb. destruct b as [|x b]; [contradiction|].
  destruct encoding; cbn [Buffer_toString Buffer.to_Zs map Buffer.to_hex JsString.of_string];
    try discriminate.
  destruct (map Buffer.Z_of_byte b) as [|y [|z l]]; discriminate.
Qed.

Section TextForms.

Context {D : Base64Decoder}.
Variable encoding : Encoding.
Hypothesis not_binary : encoding <> binary.
Hypothesis decoder_inverts :
  encoding = base64 -> forall b, Buffer_from_base64 (Base64.encode (Buffer.to_Zs b)) = b.

Lemma from_toString (b : Buffer.t) :
  Buffer_from (Buffer_toString b encoding) encoding = b.
Proof.
  destruct encoding; [contradiction | |]; cbn [Buffer_toString Buffer_from].
  - apply decoder_inverts. reflexivity.
  - apply Buffer_from_hex_to_hex.
Qed.

Lemma decode_line_toString (b : Buffer.t) :
  b <> [] ->
  TextDecodingStream.decode_line encoding (Buffer_toString b encoding) = [b].
Proof.
  intros Hb. unfold TextDecodingStream.decode_line.
  rewrite trim_plain by (apply plain_toString, not_binary).
  pose proof (toString_nonempty b encoding Hb) as Hne.
  destruct (Buffer_toString b encoding) as [|u s] eqn:E; [contradiction|].
  cbn [length Nat.ltb Nat.leb]. rewrite <- E, from_toString.
  unfold Readable_push. destruct b; [contradiction | reflexivity].
Qed.

Lemma text_line_bytes (b : Buffer.t) :
  text_line encoding b = Buffer.of_Zs (Buffer_toString b encoding ++ [10]).
Proof.
  unfold text_line. apply utf8_ascii. apply Forall_app. split.
  - eapply Forall_impl; [|apply (plain_toString b encoding not_binary)].
    cbn beta. intros u Hu. lia.
  - constructor; [lia | constructor].
Qed.

Lemma text_encoding_run (chunks : list Buffer.t) :
  run TextEncodingStream._transform TextEncodingStream._flush
    (TextEncodingStream.new (Some encoding)) chunks
  = mkOutcome (map (text_line encoding) chunks) (TextEncodingStream.mk encoding) None.
Proof.
  unfold run, TextEncodingStream.new.
  assert (H : write_all TextEncodingStream._transform (TextEncodingStream.mk encoding) chunks
              = mkOutcome (map (text_line encoding) chunks)
                  (TextEncodingStream.mk encoding) None).
  { induction chunks as [|c chunks IH]; [reflexivity|].
    cbn [write_all map]. unfold TextEncodingStream._transform at 1.
    cbn [TextEncodingStream.encoding]. unfold Readable_push_string, Readable_push.
    fold (text_line encoding c). rewrite text_line_bytes.
    destruct (Buffer.of_Zs (Buffer_toString c encoding ++ [10])) as [|x l] eqn:E.
    - exfalso. apply (f_equal (@length byte)) in E.
      unfold Buffer.of_Zs in E. rewrite length_map, length_app in E. cbn in E. lia.
    - cbn [length Nat.eqb]. unfold and_then. cbn [failure final pushes].
      rewrite IH. reflexivity. }
  rewrite H. unfold and_then, TextEncodingStream._flush. cbn [failure final pushes].
  rewrite app_nil_r. reflexivity.
Qed.

End TextForms.

(** ** Lines *)

Lemma split_lines (s : JsString.t) :
  exists (ls : list JsString.t) (t : JsString.t),
    StringPrototype.split s 10 = ls ++ [t]
    /\ s = lines_text ls ++ t
    /\ Forall no_newline ls /\ no_newline t.
Proof.
  induction s as [|u s (ls & t & Hs & Heq & Hls & Ht)].
  - exists [], []. repeat split; [constructor | intros []].
  - cbn [StringPrototype.split]. destruct (u =? 10) eqn:E.
    + apply Z.eqb_eq in E. subst u. exists ([] :: ls), t. rewrite Hs.
      repeat split; try assumption.
      * unfold lines_text. cbn [map concat app]. fold (lines_text ls).
        rewrite <- Heq. reflexivity.
      * constructor; [intros [] | exact Hls].
    + apply Z.eqb_neq in E. rewrite Hs. destruct ls as [|a ls].
      * exists [], (u :: t). cbn [app]. repeat split; [|constructor|].
        -- unfold lines_text in *. cbn [map concat app] in *. rewrite Heq. reflexivity.
        -- intros [H|H]; [congruence | exact (Ht H)].
      * exists ((u :: a) :: ls), t. cbn [app]. apply Forall_cons_iff in Hls as [Ha Hls].
        repeat split; try assumption.
        -- unfold lines_text in *. cbn [map concat app] in *. rewrite Heq. reflexivity.
        -- constructor; [|exact Hls]. intros [H|H]; [congruence | exact (Ha H)].
Qed.

Lemma first_newline (a b X Y : JsString.t) :
  no_newline a -> no_newline b -> a ++ 10 :: X = b ++ 10 :: Y -> a = b /\ X = Y.
Proof.
  revert b. induction a as [|u a IH]; intros [|v b] Ha Hb H; cbn [app] in H.
  - injection H as ->. auto.
  - injection H as <- _. exfalso. apply Hb. left. reflexivity.
  - injection H as -> _. exfalso. apply Ha. left. reflexivity.
  - injection H as -> H. destruct (IH b) as [-> ->]; auto.
    + intros Hin. apply Ha. right. exact Hin.
    + intros Hin. apply Hb. right. exact Hin.
Qed.

Lemma lines_prefix (A : list JsString.t) :
  forall (B : list JsString.t) (t R : JsString.t),
    Forall no_newline A -> no_newline t -> Forall no_newline B ->
    lines_text A ++ t ++ R = lines_text B ->
    exists B', B = A ++ B' /\ t ++ R = lines_text B'.
Proof.
  induction A as [|a A IH]; intros B t R HA Ht HB H.
  - exists B. split; [reflexivity | exact H].
  - apply Forall_cons_iff in HA as [Ha HA].
    unfold lines_text in H. cbn [map concat] in H. fold (lines_text A) in H.
    rewrite <- !app_assoc in H. cbn [app] in H.
    destruct B as [|b B].
    + exfalso. cbn in H. destruct a; discriminate.
    + apply Forall_cons_iff in HB as [Hb HB].
      cbn [map concat] in H. fold (lines_text B) in H.
      rewrite <- app_assoc in H. cbn [app] in H.
      destruct (first_newline _ _ _ _ Ha Hb H) as [-> H'].
      destruct (IH B t R HA Ht HB H') as (B' & -> & HB').
      exists B'. split; [reflexivity | exact HB'].
Qed.

Lemma lines_text_nil_inv (B : list JsString.t) (t : JsString.t) :
  no_newline t -> t = lines_text B -> B = [] /\ t = [].
Proof.
  intros Ht H. destruct B as [|b B]; [split; [reflexivity | exact H]|].
  exfalso. apply Ht. rewrite H. unfold lines_text. cbn [map concat].
  apply in_or_app. left. apply in_or_app. right. left. reflexivity.
Qed.

Section TextDecoding.

Context {D : Base64Decoder}.
Variable encoding : Encoding.

Lemma text_decoding_write_all (writes : list Buffer.t) :
  forall (l : JsString.t) (B : list JsString.t),
    Forall (fun w => Forall (fun u => 0 <= u < 128) (Buffer.to_Zs w)) writes ->
    no_newline l -> Forall no_newline B ->
    l ++ concat (map Buffer.to_Zs writes) = lines_text B ->
    write_all TextDecodingStream._transform (TextDecodingStream.mk encoding l) writes
    = mkOutcome (flat_map (TextDecodingStream.decode_line encoding) B)
        (TextDecodingStream.mk encoding []) None.
Proof.
  induction writes as [|w writes IH]; intros l B Hw Hl HB H.
  - cbn [map concat] in H. rewrite app_nil_r in H.
    destruct (lines_text_nil_inv B l Hl H) as [-> ->]. reflexivity.
  - apply Forall_cons_iff in Hw as [Hw0 Hw]. cbn [map concat] in H.
    cbn [write_all]. unfold TextDecodingStream._transform at 1.
    cbn [TextDecodingStream.lineBuffer TextDecodingStream.encoding].
    unfold Utf8Decoder.decode. rewrite decode_ascii by exact Hw0.
    destruct (split_lines (l ++ Buffer.to_Zs w)) as (ls & t & Hs & Heq & Hls & Ht).
    rewrite Hs, last_last, removelast_last.
    rewrite app_assoc, Heq, <- app_assoc in H.
    destruct (lines_prefix ls B t _ Hls Ht HB H) as (B' & -> & HB').
    apply Forall_app in HB as [_ HB2].
    unfold and_then. cbn [failure final pushes].
    rewrite (IH t B' Hw Ht HB2 HB'). cbn [pushes final failure].
    rewrite flat_map_app. reflexivity.
Qed.

End TextDecoding.

Lemma concat_map_to_Zs (writes : list Buffer.t) :
  concat (map Buffer.to_Zs writes) = Buffer.to_Zs (concat writes).
Proof. unfold Buffer.to_Zs. symmetry. apply concat_map. Qed.

Lemma of_Zs_concat (ls : list (list Z)) :
  concat (map Buffer.of_Zs ls) = Buffer.of_Zs (concat ls).
Proof. unfold Buffer.of_Zs. symmetry. apply concat_map. Qed.

Lemma plain_no_newline (s : JsString.t) : plain s -> no_newline s.
Proof.
  intros H Hin. unfold plain in H. rewrite Forall_forall in H. specialize (H 10 Hin). lia.
Qed.

Lemma text_decoding_run `{D : Base64Decoder} (encoding : Encoding)
    (chunks writes : list Buffer.t) :
  encoding <> binary ->
  (encoding = base64 ->
   forall b, Buffer_from_base64 (Base64.encode (Buffer.to_Zs b)) = b) ->
  Forall (fun c => c <> []) chunks ->
  concat writes = concat (map (text_line encoding) chunks) ->
  run TextDecodingStream._transform TextDecodingStream._flush
    (TextDecodingStream.new (Some encoding)) writes
  = mkOutcome chunks (TextDecodingStream.mk encoding []) None.
Proof.
  intros He Hdec Hne Hcat.
  set (B := map (fun c => Buffer_toString c encoding) chunks).
  assert (HB : Forall plain B).
  { apply Forall_forall. intros s Hs. apply in_map_iff in Hs as (c & <- & _).
    apply plain_toString, He. }
  assert (Htext : Buffer.to_Zs (concat writes) = lines_text B).
  { rewrite Hcat.
    rewrite (map_ext _ (fun c => Buffer.of_Zs (Buffer_toString c encoding ++ [10])))
      by (intros c; apply text_line_bytes, He).
    rewrite <- (map_map (fun c => Buffer_toString c encoding ++ [10]) Buffer.of_Zs).
    rewrite of_Zs_concat. unfold lines_text, B. rewrite map_map.
    apply to_Zs_of_Zs. apply Forall_concat. apply Forall_forall.
    intros s Hs. apply in_map_iff in Hs as (c & <- & _). apply Forall_app. split.
    - eapply Forall_impl; [|apply (plain_toString c encoding He)]. cbn beta. lia.
    - constructor; [lia | constructor]. }
  assert (Hascii : Forall (fun w => Forall (fun u => 0 <= u < 128) (Buffer.to_Zs w)) writes).
  { apply Forall_forall. intros w Hw. apply Forall_forall. intros u Hu.
    assert (Hin : In u (Buffer.to_Zs (concat writes))).
    { rewrite <- concat_map_to_Zs. apply in_concat. exists (Buffer.to_Zs w).
      split; [apply in_map, Hw | exact Hu]. }
    rewrite Htext in Hin. unfold lines_text in Hin. apply in_concat in Hin as (s & Hs & Hus).
    apply in_map_iff in Hs as (l & <- & Hl). apply in_app_or in Hus as [Hus|[<-|[]]]; [|lia].
    rewrite Forall_forall in HB. specialize (HB l Hl). unfold plain in HB.
    rewrite Forall_forall in HB. specialize (HB u Hus). lia. }
  unfold run, TextDecodingStream.new.
  rewrite (text_decoding_write_all encoding writes [] B Hascii).
  - unfold and_then, TextDecodingStream._flush.
    cbn [failure final pushes TextDecodingStream.lineBuffer TextDecodingStream.encoding].
    unfold TextDecodingStream.decode_line at 2. cbn. rewrite app_nil_r. f_equal.
    unfold B. clear -He Hdec Hne. induction Hne as [|c chunks Hc _ IH]; [reflexivity|].
    cbn [map flat_map]. rewrite (decode_line_toString encoding He Hdec c Hc), IH.
    reflexivity.
  - intros [].
  - eapply Forall_impl; [|exact HB]. apply plain_no_newline.
  - cbn [app]. rewrite concat_map_to_Zs. exact Htext.
Qed.

(** The text streams undo each other, for the encodings hex and base64
    and chunks that are not empty (for base64, with a decoder that
    inverts the encoder).  The encoding stream writes one line for each
    chunk; and however the bytes of these lines are cut into writes, the
    decoding stream pushes the chunks again, in order, and keeps nothing
    back. *)
Theorem text_decoding_undoes_text_encoding `{D : Base64Decoder} (encoding : Encoding)
    (chunks writes : list Buffer.t) :
  encoding <> binary ->
  (encoding = base64 ->
   forall b, Buffer_from_base64 (Base64.encode (Buffer.to_Zs b)) = b) ->
  Forall (fun c => c <> []) chunks ->
  let e := run TextEncodingStream._transform TextEncodingStream._flush
             (TextEncodingStream.new (Some encoding)) chunks in
  e.(failure) = None
  /\ e.(pushes) = map (text_line encoding) chunks
  /\ (concat writes = concat e.(pushes) ->
      run TextDecodingStream._transform TextDecodingStream._flush
        (TextDecodingStream.new (Some encoding)) writes
      = mkOutcome chunks (TextDecodingStream.mk encoding []) None).
Proof.
  intros He Hdec Hne e. subst e. rewrite (text_encoding_run encoding He).
  cbn [failure pushes]. split; [reflexivity|]. split; [reflexivity|].
  apply (text_decoding_run encoding chunks writes He Hdec Hne).
Qed.

(** ** src/core/chunk-crypto.js: the text form of a chunk *)

(** [fromText] undoes [toText]: for a chunk with an index that fits 32
    bits, an iv of 12 bytes and a tag of 16, and for each of the
    encodings (for base64, the default, with a decoder that inverts the
    encoder), the text of the chunk is read back as the chunk. *)
Theorem fromText_undoes_toText `{D : Base64Decoder} (c : EncryptedChunk)
    (encoding : option Encoding) :
  0 <= c.(index) <= 4294967295 ->
  length c.(iv) = 12%nat ->
  length c.(tag) = 16%nat ->
  (match encoding with Some e => e | None => base64 end = base64 ->
   forall b, Buffer_from_base64 (Base64.encode (Buffer.to_Zs b)) = b) ->
  exists text : JsString.t,
    toText c encoding = Ok text
    /\ text = Buffer_toString (serialized c)
                (match encoding with Some e => e | None => base64 end)
    /\ fromText text encoding = Ok c.
Proof.
  intros Hi Hv Ht Hdec. unfold toText, fromText.
  rewrite toBuffer_ok by assumption. cbn [bind]. fold (serialized c).
  eexists. split; [reflexivity|]. split; [reflexivity|].
  set (e := match encoding with Some e => e | None => base64 end) in *.
  assert (Hb : Buffer_from (Buffer_toString (serialized c) e) e = serialized c).
  { destruct e; cbn [Buffer_toString Buffer_from].
    - apply of_Zs_to_Zs.
    - apply Hdec. reflexivity.
    - apply Buffer_from_hex_to_hex. }
  rewrite Hb. apply fromBuffer_serialized; assumption.
Qed.

(** ** src/core/file-crypto.js: files *)






Lemma written_same (files : fs.t) (path : JsString.t) (chunks : list Buffer.t) :
  fs.written files path chunks path = Some (Buffer.concat chunks).
Proof. unfold fs.written. rewrite JsString_eqb_refl. reflexivity. Qed.


Lemma opened_same (files : fs.t) (path : JsString.t) :
  fs.createWriteStream files path path = Some [].
Proof. unfold fs.createWriteStream. apply written_same. Qed.

Lemma validateFilePath_field (path : JsString.t) (f f' : string) :
  validateFilePath path f = Ok tt -> validateFilePath path f' = Ok tt.
Proof.
  unfold validateFilePath. destruct (length path =? 0)%nat; [discriminate|].
  destruct (StringPrototype.includes path (JsString.of_string "..")); [discriminate|].
  destruct (4096 <? length path)%nat; [discriminate | reflexivity].
Qed.

Lemma validateEncoding_name (e : Encoding) :
  validateEncoding (Some (Encoding_name e)) = Ok tt.
Proof. destruct e; reflexivity. Qed.







(** ** The whole-write deserialization stream *)

(** The other deserialization stream takes the bounds of the writes for
    the bounds of the chunks.  Once 33 bytes or more are at hand, what
    has been kept and the write together are parsed as one chunk, whose
    ciphertext is everything after the 32 bytes of the header, and
    nothing is kept; with fewer bytes nothing is pushed and all is kept
    for the next write.  Two chunks that arrive in one write are thus
    taken for one. *)
Theorem whole_write_takes_each_write_for_a_chunk (kept w : Buffer.t) :
  let this := WholeWriteDeserializationStream.mk kept 33 in
  let b := kept ++ w in
  ((33 <= length b)%nat ->
   WholeWriteDeserializationStream._transform this w
   = mkOutcome
       [mkEncryptedChunk (Buffer.be_value (firstn 4 b)) (Buffer.slice b 4 16)
          (Buffer.slice b 16 32) (skipn 32 b)]
       (WholeWriteDeserializationStream.mk [] 33) None)
  /\ ((length b < 33)%nat ->
      WholeWriteDeserializationStream._transform this w
      = mkOutcome [] (WholeWriteDeserializationStream.mk b 33) None).
Proof.
  intros this b. unfold WholeWriteDeserializationStream._transform, Buffer.concat.
  cbn [WholeWriteDeserializationStream.buffer WholeWriteDeserializationStream.minChunkSize
         this concat].
  rewrite app_nil_r. fold b. clearbody b. split; intros Hl.
  - destruct (length b) as [|fuel] eqn:El; [lia|].
    cbn [WholeWriteDeserializationStream.extract WholeWriteDeserializationStream.buffer
           WholeWriteDeserializationStream.minChunkSize].
    replace (33 <=? length b)%nat with true by (symmetry; apply Nat.leb_le; lia).
    rewrite fromBuffer_parts by lia.
    unfold size, CONFIG.HEADER.TOTAL_SIZE, Buffer.slice_from. cbn [ciphertext].
    replace (skipn (32 + length (skipn 32 b)) b) with (@nil byte)
      by (symmetry; apply skipn_all2; rewrite length_skipn; lia).
    unfold and_then. cbn [failure final pushes].
    destruct fuel as [|fuel];
      cbn [WholeWriteDeserializationStream.extract WholeWriteDeserializationStream.buffer
             WholeWriteDeserializationStream.minChunkSize length Nat.leb
             failure final pushes app]; reflexivity.
  - destruct (length b) as [|fuel] eqn:El; [reflexivity|].
    cbn [WholeWriteDeserializationStream.extract WholeWriteDeserializationStream.buffer
           WholeWriteDeserializationStream.minChunkSize].
    replace (33 <=? length b)%nat with false by (symmetry; apply Nat.leb_gt; lia).
    reflexivity.
Qed.

(** ** src/utils/security.js: wiped keys *)

(** [secureWipe] leaves a buffer of the same length with nothing but
    zero bytes; a key that has been wiped is refused as a weak key by
    [validateMasterKey], and so by [deriveVideoKey], [exportMasterKey],
    [encryptChunk] and [decryptChunk]. *)
Theorem secureWipe_leaves_a_refused_key (key : Buffer.t) :
  length (secureWipe key) = length key
  /\ Buffer.all_zero (secureWipe key) = true
  /\ (length key = 32%nat ->
      validateMasterKey (secureWipe key)
      = Throw (SecurityError "Master key não pode ser vazia (todos zeros)" "WEAK_KEY")
      /\ (forall videoId, is_SecurityError (deriveVideoKey (secureWipe key) videoId) = true)
      /\ is_SecurityError (exportMasterKey (secureWipe key)) = true
      /\ (forall rng plaintext videoId i,
            plaintext <> [] ->
            is_SecurityError (encryptChunk rng plaintext (secureWipe key) videoId i) = true)
      /\ (forall c videoId,
            is_SecurityError (decryptChunk c (secureWipe key) videoId) = true)).
Proof.
  unfold secureWipe.
  assert (Hz : Buffer.all_zero (repeat x00 (length key)) = true).
  { unfold Buffer.all_zero. induction (length key); [reflexivity | exact IHn]. }
  split; [apply repeat_length|]. split; [exact Hz|]. intros Hl.
  assert (Hv : validateMasterKey (repeat x00 (length key))
               = Throw (SecurityError "Master key não pode ser vazia (todos zeros)"
                          "WEAK_KEY")).
  { unfold validateMasterKey. rewrite Hz, repeat_length, Hl. reflexivity. }
  split; [exact Hv|]. split; [|split; [|split]].
  - intros videoId. unfold deriveVideoKey. rewrite Hv. reflexivity.
  - unfold exportMasterKey. rewrite Hv. reflexivity.
  - intros rng plaintext videoId i Hp. unfold encryptChunk, validateBuffer.
    destruct plaintext; [contradiction|]. cbn [length Nat.eqb bind].
    rewrite Hv. reflexivity.
  - intros c videoId. unfold decryptChunk. rewrite Hv. reflexivity.
Qed.

(** ** The limit on the number of chunks, for any writes *)








(** ** The theorems at sample inputs *)

Lemma RateLimiter_window_witness :
  answers_to (JsString.of_string "a") (RateLimiter.new (Some 2) (Some 1000))
    sample_requests
  = [true; true; false].
Proof.
  apply (RateLimiter_window (RateLimiter.new (Some 2) (Some 1000))
           (JsString.of_string "a") sample_requests 0 [20; 30]).
  - reflexivity.
  - exact I.
  - repeat constructor; cbn; lia.
Defined.

Lemma RateLimiter_cleanup_witness :
  answers (RateLimiter.cleanup stale_limiter 200)
    [(200, JsString.of_string "a"); (250, JsString.of_string "a")]
  = answers stale_limiter
      [(200, JsString.of_string "a"); (250, JsString.of_string "a")].
Proof.
  apply (RateLimiter_cleanup_is_transparent stale_limiter 200).
  - repeat constructor. intros [].
  - repeat constructor; cbn; lia.
Defined.

Lemma decryptChunk_of_parsed_buffer_witness :
  exists c : EncryptedChunk,
    fromBuffer (Buffer.alloc 40) = Ok c
    /\ let ws := Aes.expand_key sample_key in
       let aad := Sha256.digest (JsString.utf8 sample_id ++ Buffer.be_bytes 4 c.(index)) in
       (Gcm.tag_of ws c.(iv) aad c.(ciphertext) = c.(tag) ->
        exists plaintext,
          decryptChunk c sample_key sample_id = Ok plaintext
          /\ length plaintext = (length (Buffer.alloc 40) - 32)%nat)
       /\ (Gcm.tag_of ws c.(iv) aad c.(ciphertext) <> c.(tag) ->
           decryptChunk c sample_key sample_id
           = Throw (Error ("Falha na autenticação do chunk " ++ show c.(index)
                             ++ ": Unsupported state or unable to authenticate data"))).
Proof.
  apply (decryptChunk_of_parsed_buffer (Buffer.alloc 40) sample_key sample_id).
  - reflexivity.
  - reflexivity.
  - cbn. lia.
Defined.

Lemma changed_tag_witness :
  is_ok (decryptChunk
           (mkEncryptedChunk
              (sealed_chunk sample_rng (ascii_bytes "Hello") sample_key sample_id 0).(index)
              (sealed_chunk sample_rng (ascii_bytes "Hello") sample_key sample_id 0).(iv)
              (Buffer.alloc 16)
              (sealed_chunk sample_rng (ascii_bytes "Hello") sample_key sample_id 0).(ciphertext))
           sample_key sample_id) = false.
Proof.
  apply (changed_tag_is_refused sample_rng (advance sample_rng) (ascii_bytes "Hello")
           sample_key sample_id 0
           (sealed_chunk sample_rng (ascii_bytes "Hello") sample_key sample_id 0)
           (Buffer.alloc 16)).
  - apply encryptChunk_ok; [discriminate | reflexivity | reflexivity | lia].
  - vm_compute. discriminate.
Defined.

Lemma deserialization_witness :
  exists chunks : list EncryptedChunk,
    Forall2 (fun b c => fromBuffer b = Ok c) sample_records chunks
    /\ run ChunkDeserializationStream._transform ChunkDeserializationStream._flush
         ChunkDeserializationStream.new sample_record_writes
       = mkOutcome chunks (ChunkDeserializationStream.mk []) None.
Proof.
  apply (deserialization_reads_framed_records sample_records sample_record_writes).
  - repeat constructor; cbn; lia.
  - vm_compute. reflexivity.
Defined.

Lemma streams_witness :
  let s0 := EncryptionStream.new sample_key sample_id (Some 4%nat) sample_rng in
  let F := EncryptionStream.chunkSize s0 in
  let B := concat [ascii_bytes "Hello, "; ascii_bytes "World!"] in
  let n := frame_count F (length B) in
  let e := run EncryptionStream._transform EncryptionStream._flush s0
             [ascii_bytes "Hello, "; ascii_bytes "World!"] in
  let d := run DecryptionStream._transform DecryptionStream._flush
             (DecryptionStream.new sample_key sample_id) e.(pushes) in
  e.(failure) = None
  /\ d.(failure) = None
  /\ d.(pushes) = pieces F B n
  /\ Buffer.concat d.(pushes) = B
  /\ EncryptionStream.getStats e.(final) = (Z.of_nat n, length B)
  /\ DecryptionStream.getStats d.(final) = (n, length B, []).
Proof.
  apply (decryption_stream_undoes_encryption_stream sample_key sample_id (Some 4%nat)
           sample_rng [ascii_bytes "Hello, "; ascii_bytes "World!"]).
  - reflexivity.
  - reflexivity.
  - vm_compute. discriminate.
Defined.

Lemma decryptBuffer_framed_witness :
  exists chunks : list Buffer.t,
    encryptBuffer sample_rng (ascii_bytes "Hello, World!") sample_key sample_id
      (Some 4%nat) = Ok chunks
    /\ (concat [concat (map framed sample_chunks)] = concat (map framed chunks) ->
        decryptBuffer length_prefixed [concat (map framed sample_chunks)]
          sample_key sample_id
        = Ok (ascii_bytes "Hello, World!")).
Proof.
  apply (decryptBuffer_reads_framed_chunks sample_rng (ascii_bytes "Hello, World!")
           sample_key sample_id (Some 4%nat) sample_video_key
           [concat (map framed sample_chunks)]).
  - vm_compute. reflexivity.
  - reflexivity.
  - vm_compute. discriminate.
  - vm_compute. discriminate.
Defined.

Lemma text_streams_witness :
  let e := run TextEncodingStream._transform TextEncodingStream._flush
             (TextEncodingStream.new (Some base64))
             [ascii_bytes "Hello"; ascii_bytes "World!!"] in
  e.(failure) = None
  /\ e.(pushes) = map (text_line base64) [ascii_bytes "Hello"; ascii_bytes "World!!"]
  /\ (concat [ascii_bytes "SGVsb"; [x47; x38; x3d; x0a; x56]; ascii_bytes "29ybGQhIQ=="; [x0a]]
      = concat e.(pushes) ->
      run (@TextDecodingStream._transform reference_decoder)
        (@TextDecodingStream._flush reference_decoder)
        (TextDecodingStream.new (Some base64))
        [ascii_bytes "SGVsb"; [x47; x38; x3d; x0a; x56]; ascii_bytes "29ybGQhIQ=="; [x0a]]
      = mkOutcome [ascii_bytes "Hello"; ascii_bytes "World!!"]
          (TextDecodingStream.mk base64 []) None).
Proof.
  apply (@text_decoding_undoes_text_encoding reference_decoder base64
           [ascii_bytes "Hello"; ascii_bytes "World!!"]
           [ascii_bytes "SGVsb"; [x47; x38; x3d; x0a; x56]; ascii_bytes "29ybGQhIQ=="; [x0a]]).
  - discriminate.
  - intros _. exact reference_decoder_inverts.
  - repeat constructor; discriminate.
Defined.

Lemma fromText_witness :
  exists text : JsString.t,
    toText sample_chunk None = Ok text
    /\ text = Buffer_toString (serialized sample_chunk) base64
    /\ @fromText reference_decoder text None = Ok sample_chunk.
Proof.
  apply (@fromText_undoes_toText reference_decoder sample_chunk None).
  - cbn. lia.
  - reflexivity.
  - reflexivity.
  - intros _. exact reference_decoder_inverts.
Defined.








(** ** src/core/file-crypto.js: a file written onto itself *)

Lemma read_nothing (fuel : nat) : fs.read fuel [] = [].
Proof. destruct fuel; reflexivity. Qed.

(** [encryptFile] with the path of its input for its output loses the
    file.  Every check is made on the file as it was; the write stream
    then opens the path and empties it, the read stream finds nothing
    to read, no chunk is made, and the promise resolves with 0 chunks
    and 0 bytes over a file left empty. *)
Theorem encryptFile_onto_its_input (rng : Rng) (files : fs.t) (path : JsString.t)
    (masterKey videoKey content : Buffer.t) (videoId : JsString.t)
    (encoding : option Encoding) (chunkSize : option nat) :
  validateFilePath path "inputPath" = Ok tt ->
  match chunkSize with
  | Some n => validateChunkSize n = Ok tt
  | None => True
  end ->
  files path = Some content ->
  Z.of_nat (length content) <= MAX_FILE_SIZE ->
  deriveVideoKey masterKey videoId = Ok videoKey ->
  exists files' : fs.t,
    encryptFile rng files path path masterKey videoId encoding chunkSize
    = Ok (0, 0%nat, files')
    /\ files' path = Some []
    /\ (forall other, other <> path -> files' other = files other).
Proof.
  intros Hin Hcs Hfile Hsize Hd.
  destruct (deriveVideoKey_inv _ _ _ Hd) as [Hm Ho].
  exists (fs.written files path []). split; [|split].
  - unfold encryptFile.
    rewrite Hin, (validateFilePath_field path "inputPath" "outputPath" Hin), Hm, Ho,
      validateEncoding_name.
    cbn [bind].
    assert (Hcs' : match chunkSize with
                   | Some n => validateChunkSize n
                   | None => Ok tt
                   end = Ok tt).
    { destruct chunkSize; [exact Hcs | reflexivity]. }
    rewrite Hcs'. cbn [bind].
    unfold fs.existsSync, fs.statSync_size, fs.createReadStream. rewrite Hfile.
    cbn [negb bind].
    replace (MAX_FILE_SIZE <? Z.of_nat (length content)) with false
      by (symmetry; apply Z.ltb_ge; exact Hsize).
    rewrite Hd. cbn [bind]. rewrite opened_same. cbn [length bind].
    rewrite read_nothing, new_unfold.
    unfold run at 1. cbn [write_all]. unfold and_then at 1. cbn [failure final pushes].
    unfold EncryptionStream._flush.
    cbn [EncryptionStream.buffer Buffer.alloc repeat length Nat.ltb Nat.leb].
    cbn [stage failure pushes final app bind fst snd].
    unfold EncryptionStream.getStats.
    cbn [EncryptionStream.chunkIndex EncryptionStream.bytesProcessed].
    destruct encoding as [[| |]|]; reflexivity.
  - apply written_same.
  - intros other Hother. unfold fs.written.
    apply JsString_eqb_neq in Hother. rewrite Hother. reflexivity.
Qed.

(** [decryptFile] with the path of its input for its output, with either
    class for [ChunkDeserializationStream]: the file is emptied before
    it is read, nothing is decrypted, and the promise resolves with 0
    chunks, 0 bytes and no error over a file left empty. *)
Theorem decryptFile_onto_its_input `{D : Base64Decoder}
    (Deserialization : DeserializationClass) (files : fs.t) (path : JsString.t)
    (masterKey videoKey content : Buffer.t) (videoId : JsString.t)
    (encoding : option Encoding) :
  Deserialization = length_prefixed \/ Deserialization = whole_write ->
  validateFilePath path "inputPath" = Ok tt ->
  files path = Some content ->
  deriveVideoKey masterKey videoId = Ok videoKey ->
  exists files' : fs.t,
    decryptFile Deserialization files path path masterKey videoId encoding
    = Ok (0%nat, 0%nat, [], files')
    /\ files' path = Some []
    /\ (forall other, other <> path -> files' other = files other).
Proof.
  intros Hclass Hin Hfile Hd.
  destruct (deriveVideoKey_inv _ _ _ Hd) as [Hm Ho].
  exists (fs.written files path []). split; [|split].
  - unfold decryptFile.
    rewrite Hin, (validateFilePath_field path "inputPath" "outputPath" Hin), Hm, Ho,
      validateEncoding_name.
    cbn [bind]. unfold fs.existsSync, fs.createReadStream. rewrite Hfile.
    cbn [negb]. rewrite Hd. cbn [bind]. rewrite opened_same. cbn [length bind].
    rewrite read_nothing.
    destruct Hclass as [-> | ->]; destruct encoding as [[| |]|]; reflexivity.
  - apply written_same.
  - intros other Hother. unfold fs.written.
    apply JsString_eqb_neq in Hother. rewrite Hother. reflexivity.
Qed.

(** ** The theorems at sample inputs, continued *)

Lemma decryption_stream_stops_witness :
  let c0 := sealed_chunk sample_rng (ascii_bytes "first") sample_key sample_id 0 in
  let c1 :=
    sealed_chunk (advance sample_rng) (ascii_bytes "second") sample_key sample_id 1 in
  let changed := mkEncryptedChunk 7 c0.(iv) c0.(tag) c0.(ciphertext) in
  let e := Error "Falha na autenticação do chunk 7: Unsupported state or unable to authenticate data" in
  run DecryptionStream._transform DecryptionStream._flush
    (DecryptionStream.new sample_key sample_id) ([c1] ++ changed :: [c0])
  = mkOutcome [ascii_bytes "second"]
      (DecryptionStream.mk sample_key sample_id (length [c1])
         (length (concat [ascii_bytes "second"])) [(changed.(index), message_of e)])
      (Some e).
Proof.
  intros c0 c1 changed e.
  apply (decryption_stream_stops_at_the_first_refused_chunk sample_key sample_id
           [c1] [c0] [ascii_bytes "second"] changed e).
  - constructor; [vm_compute; reflexivity | constructor].
  - vm_compute. reflexivity.
Defined.

Lemma encryptFile_onto_its_input_witness :
  exists files' : fs.t,
    encryptFile sample_rng sample_files (JsString.of_string "in.bin")
      (JsString.of_string "in.bin") sample_key sample_id None None
    = Ok (0, 0%nat, files')
    /\ files' (JsString.of_string "in.bin") = Some []
    /\ (forall other, other <> JsString.of_string "in.bin" ->
                      files' other = sample_files other).
Proof.
  apply (encryptFile_onto_its_input sample_rng sample_files (JsString.of_string "in.bin")
           sample_key sample_video_key (ascii_bytes "Hello, World!") sample_id None None).
  - reflexivity.
  - exact I.
  - reflexivity.
  - vm_compute. discriminate.
  - vm_compute. reflexivity.
Defined.

Lemma decryptFile_onto_its_input_witness :
  exists files' : fs.t,
    @decryptFile reference_decoder whole_write framed_files
      (JsString.of_string "in.enc") (JsString.of_string "in.enc")
      sample_key sample_id (Some hex)
    = Ok (0%nat, 0%nat, [], files')
    /\ files' (JsString.of_string "in.enc") = Some []
    /\ (forall other, other <> JsString.of_string "in.enc" ->
                      files' other = framed_files other).
Proof.
  apply (@decryptFile_onto_its_input reference_decoder whole_write framed_files
           (JsString.of_string "in.enc") sample_key sample_video_key
           (Buffer.concat (map framed sample_chunks)) sample_id (Some hex)).
  - right. reflexivity.
  - reflexivity.
  - reflexivity.
  - vm_compute. reflexivity.
Defined.

